(** * TD-MPC2 agent ([demo3/tdmpc2.py]): planner, value estimator, TD target
    and discount heuristic.

    Numeric convention.  Tensor entries and Python floats are idealised as
    exact rationals ([Q]); equalities between computed numbers are stated
    with [==].  One addition is rounded as the dtype rounds it, because its
    second operand lies below the resolution of the format: [score.sum() +
    1e-9] in the update of [_plan] ([score_denom]).  A Python scalar
    division raises [ZeroDivisionError] on a zero
    divisor and is modelled in [option]; a tensor division never raises.
    The only place where the source itself deals with non-finite floats is
    the [nan_to_num] call of [_plan]; the value tensor reaching that call is
    therefore modelled with explicit NaN and infinities ([fvalue]).

    The world model ([common.world_model.WorldModel]), [common.math] and
    torch with its random stream are collaborators of this file of the
    repository: they are the records [WorldModel], [CommonMath] and [Torch],
    arguments of the functions below.  A batched call is modelled one batch
    entry at a time; the batch axis is a list. *)

From Stdlib Require Import QArith Qminmax Qabs Qround Lqa ZArith Lia List Bool Arith.
Import ListNotations.

Local Open Scope Q_scope.

(** ** Python and torch scalar primitives *)

(** [Qlt] as a boolean test: [Qltb a b] is Python's [a < b]. *)
Definition Qltb (a b : Q) : bool := negb (Qle_bool b a).

(** Python's builtin [max(a, b)]: the first argument is kept unless the
    second is strictly greater. *)
Definition py_max (a b : Q) : Q := if Qltb a b then b else a.

(** Python's builtin [min(a, b)]: the first argument is kept unless the
    second is strictly smaller. *)
Definition py_min (a b : Q) : Q := if Qltb b a then b else a.

(** Python's [a / b] on numbers: [ZeroDivisionError] is [None]. *)
Definition py_div (a b : Q) : option Q :=
  if Qeq_bool b 0 then None else Some (a / b).

(** [torch.clamp(x, lo, hi)], elementwise [min(max(x, lo), hi)]. *)
Definition clamp (x lo hi : Q) : Q := Qmin (Qmax x lo) hi.

(** ** Configuration *)

Record Cfg := mkCfg {
  horizon : nat;
  num_samples : nat;
  num_pi_trajs : nat;
  num_elites : nat;
  iterations : nat;
  action_dim : nat;
  num_envs : nat;
  min_std : Q;
  max_std : Q;
  temperature : Q;
  multitask : bool;
  mpc : bool;
  discount_hardcoded : Q;
  discount_denom : Q;
  discount_min : Q;
  discount_max : Q;
  episode_length : Z;
  episode_lengths : list Z
}.

(** ** Discount scheduler *)

(** [TDMPC2._get_discount]. *)
Definition _get_discount (cfg : Cfg) (ep_len : Z) : option Q :=
  if negb (Qeq_bool (discount_hardcoded cfg) 0) then
    Some (discount_hardcoded cfg)
  else
    match py_div (inject_Z ep_len) (discount_denom cfg) with
    | None => None
    | Some frac =>
        match py_div (frac - 1) frac with
        | None => None
        | Some x =>
            Some (py_min (py_max x (discount_min cfg)) (discount_max cfg))
        end
    end.

(** ** Tensors

    A tensor is a nested list; the innermost axis of an action tensor is a
    [vec] of [action_dim] components.  Elementwise operations combine two
    vectors position by position. *)

Definition vec := list Q.

(** Coordinates naming one draw of the random stream (call site, batch
    index, iteration, ...): the stream is fixed, each draw is read at its
    coordinates. *)
Definition key := list nat.

Definition vzeros (n : nat) : vec := repeat 0 n.

Definition vmap2 (f : Q -> Q -> Q) (a b : vec) : vec :=
  map (fun p => f (fst p) (snd p)) (combine a b).

Definition vadd : vec -> vec -> vec := vmap2 Qplus.
Definition vmul : vec -> vec -> vec := vmap2 Qmult.

Definition vclamp (lo hi : Q) (v : vec) : vec :=
  map (fun x => clamp x lo hi) v.

Fixpoint Qsum (l : list Q) : Q :=
  match l with
  | [] => 0
  | x :: l' => x + Qsum l'
  end.

(** [sum_i w_i * x_i], the reduction [(w * x).sum(dim)]. *)
Definition wsum (w x : list Q) : Q := Qsum (vmap2 Qmult w x).

(** [l] with its positions. *)
Definition indexed {A : Type} (l : list A) : list (nat * A) :=
  combine (seq 0 (length l)) l.

(** [Tensor.max(dim)] over a list; a reduction over an empty axis raises. *)
Definition list_max (l : list Q) : option Q :=
  match l with
  | [] => None
  | x :: l' => Some (fold_left Qmax l' x)
  end.

(** All-or-nothing traversal of a list of fallible computations. *)
Fixpoint sequence {A : Type} (l : list (option A)) : option (list A) :=
  match l with
  | [] => Some []
  | None :: _ => None
  | Some x :: l' =>
      match sequence l' with
      | Some xs => Some (x :: xs)
      | None => None
      end
  end.

Definition traverse {A B : Type} (f : A -> option B) (l : list A)
  : option (list B) := sequence (map f l).

Definition bind {A B : Type} (m : option A) (f : A -> option B) : option B :=
  match m with
  | Some x => f x
  | None => None
  end.

Notation "x <- m ;; k" := (bind m (fun x => k))
  (at level 61, m at next level, right associativity).
Notation "' p <- m ;; k" := (bind m (fun p => k))
  (at level 61, p pattern, m at next level, right associativity).

(** [assert b] raises unless [b]. *)
Definition assert (b : bool) : option unit := if b then Some tt else None.

(** Broadcasting of the leading (batch) axis in an assignment or [copy_]
    into a tensor of [n] rows: the source has [n] rows, or one row that is
    repeated; anything else raises. *)
Definition broadcast_rows {A : Type} (n : nat) (rows : list A)
  : option (list A) :=
  if length rows =? n then Some rows
  else match rows with
       | [r] => Some (repeat r n)
       | _ => None
       end.

(** ** Non-finite floats at the value-estimate boundary *)

Inductive dtype := Float16 | BFloat16 | Float32 | Float64.

(** [torch.finfo(dtype).max]. *)
Definition finfo_max (dt : dtype) : Q :=
  inject_Z
    match dt with
    | Float16 => 65504
    | BFloat16 => (2 ^ 8 - 1) * 2 ^ 120
    | Float32 => (2 ^ 24 - 1) * 2 ^ 104
    | Float64 => (2 ^ 53 - 1) * 2 ^ 971
    end.

(** [torch.finfo(dtype).min]. *)
Definition finfo_min (dt : dtype) : Q := - finfo_max dt.

(** The non-finite floats. *)
Inductive nonfinite := NaN | PosInf | NegInf.

(** An entry of a float tensor: a finite number, NaN or an infinity. *)
Inductive fvalue :=
| Finite (q : Q)
| NonFinite (s : nonfinite).

(** [torch.nan_to_num(input, nan=0.0, posinf=None, neginf=None)] on one
    entry: NaN becomes [nan]; an infinity becomes [posinf] / [neginf], or,
    when that argument is [None], the greatest / least finite value of the
    dtype. *)
Definition nan_to_num (dt : dtype) (nan : Q) (posinf neginf : option Q)
  (v : fvalue) : Q :=
  match v with
  | Finite q => q
  | NonFinite NaN => nan
  | NonFinite PosInf =>
      match posinf with Some p => p | None => finfo_max dt end
  | NonFinite NegInf =>
      match neginf with Some p => p | None => finfo_min dt end
  end.

(** ** Rounding to a floating-point format

    The arithmetic of the tensors is exact, with one exception: where the
    code adds a constant that lies below the resolution of the format to a
    sum of order 1, the addition is rounded as the format rounds it. *)

(** The number of significand bits of a dtype, the implicit bit
    included. *)
Definition precision (dt : dtype) : Z :=
  match dt with
  | Float16 => 11
  | BFloat16 => 8
  | Float32 => 24
  | Float64 => 53
  end.

(** [floor (log2 x)] for a positive [x]. *)
Definition Qlog2 (x : Q) : Z :=
  let e := (Z.log2 (Qnum x) - Z.log2 (Z.pos (Qden x)))%Z in
  if Qle_bool (Qpower 2 e) x then e else (e - 1)%Z.

(** The nearest integer, ties to even. *)
Definition round_half_even (q : Q) : Z :=
  let f := Qfloor q in
  match Qcompare (q - inject_Z f) (1 # 2) with
  | Lt => f
  | Gt => (f + 1)%Z
  | Eq => if Z.even f then f else (f + 1)%Z
  end.

(** [x] rounded to the nearest number of [precision dt] significant bits,
    ties to even: the rounding of the basic operations of the dtype.  The
    exponent range is not modelled (no overflow, no subnormals). *)
Definition round_to (dt : dtype) (x : Q) : Q :=
  let y := Qred (Qabs x) in
  if Qeq_bool y 0 then 0
  else
    let ulp := Qpower 2 (Qlog2 y - precision dt + 1) in
    let r := inject_Z (round_half_even (y / ulp)) * ulp in
    if Qle_bool 0 x then r else - r.

(** ** External collaborators *)

(** The [return_type] argument of [WorldModel.Q]. *)
Inductive return_type := RetMin | RetAvg | RetAll.

(** The tuple returned by [WorldModel.pi]: component 0 is the mean of the
    action distribution, component 1 a sampled action. *)
Record PiOut := mkPiOut {
  pi_mu : vec;
  pi_sample : vec
}.

(** [common.world_model.WorldModel], one batch entry at a time.  [pi]
    samples, so it reads the random stream at a [key].  [model_Q] is
    [WorldModel.Q]: its last two arguments are [return_type] and [target].
    [degenerate] tells whether the float rollout behind a value estimate
    ended in NaN or an infinity; [model_dtype] is the dtype of the model's
    outputs. *)
Record WorldModel := mkWorldModel {
  latent : Type;
  observation : Type;
  encode : observation -> option nat -> latent;
  next : latent -> vec -> option nat -> latent;
  reward : latent -> vec -> option nat -> vec;
  model_Q : latent -> vec -> option nat -> return_type -> bool -> Q;
  pi : key -> latent -> option nat -> PiOut;
  _action_masks : list vec;
  degenerate : key -> latent -> list vec -> option nat -> option nonfinite;
  model_dtype : dtype
}.

(** [common.math]. *)
Record CommonMath := mkCommonMath {
  two_hot_inv : vec -> Cfg -> Q;
  gumbel_softmax_sample : key -> list Q -> nat
}.

(** [torch]: the transcendental functions and the normal draws. *)
Record Torch := mkTorch {
  torch_exp : Q -> Q;
  torch_sqrt : Q -> Q;
  torch_randn : key -> Q
}.

Definition randn_vec (tc : Torch) (k : key) (n : nat) : vec :=
  map (fun d => torch_randn tc (k ++ [d])) (seq 0 n).

(** ** The agent *)

(** [self.discount]: a float in single-task mode, one entry per task in
    multi-task mode. *)
Inductive discount_t :=
| ScalarDiscount (d : Q)
| TaskDiscounts (ds : list Q).

Record Agent := mkAgent {
  cfg : Cfg;
  discount : discount_t;
  _prev_mean : list (list vec)
}.

(** [TDMPC2.__init__]: the iteration heuristic, the discount(s) and the
    zero warm-start buffer of shape (num_envs, horizon, action_dim). *)
Definition __init__ (c : Cfg) : option Agent :=
  let c' :=
    mkCfg (horizon c) (num_samples c) (num_pi_trajs c) (num_elites c)
      (iterations c + 2 * (if 20 <=? action_dim c then 1 else 0))%nat
      (action_dim c) (num_envs c) (min_std c) (max_std c) (temperature c)
      (multitask c) (mpc c) (discount_hardcoded c) (discount_denom c)
      (discount_min c) (discount_max c) (episode_length c)
      (episode_lengths c) in
  d <- (if multitask c'
        then option_map TaskDiscounts
               (traverse (_get_discount c') (episode_lengths c'))
        else option_map ScalarDiscount
               (_get_discount c' (episode_length c'))) ;;
  Some (mkAgent c' d
          (repeat (repeat (vzeros (action_dim c')) (horizon c'))
             (num_envs c'))).

(** The discount used for one batch entry: [self.discount[task]] in
    multi-task mode, [self.discount] otherwise. *)
Definition discount_update (ag : Agent) (task : option nat) : option Q :=
  if multitask (cfg ag) then
    match discount ag, task with
    | TaskDiscounts ds, Some k => nth_error ds k
    | _, _ => None
    end
  else
    match discount ag with
    | ScalarDiscount d => Some d
    | TaskDiscounts _ => None
    end.

(** ** Value estimator *)

(** The loop of [_estimate_value] over the timesteps [ts]; the state is
    [(z, G, discount)]. *)
Fixpoint value_rollout (wm : WorldModel) (ml : CommonMath) (ag : Agent)
  (task : option nat) (actions : list vec) (ts : list nat)
  (st : latent wm * Q * Q) : option (latent wm * Q * Q) :=
  match ts with
  | [] => Some st
  | t :: ts' =>
      let '(z, G, disc) := st in
      a <- nth_error actions t ;;
      let r := two_hot_inv ml (reward wm z a task) (cfg ag) in
      let z' := next wm z a task in
      let G' := G + disc * r in
      du <- discount_update ag task ;;
      value_rollout wm ml ag task actions ts' (z', G', disc * du)
  end.

(** [TDMPC2._estimate_value] for one candidate: [actions] is that
    candidate's action sequence, [actions[t]] its action at step [t]. *)
Definition _estimate_value (wm : WorldModel) (ml : CommonMath) (ag : Agent)
  (k : key) (z : latent wm) (actions : list vec) (task : option nat)
  : option Q :=
  '(z', G, disc) <-
    value_rollout wm ml ag task actions (seq 0 (horizon (cfg ag))) (z, 0, 1) ;;
  Some (G + disc *
          model_Q wm z' (pi_sample (pi wm k z' task)) task RetAvg false).

(** ** TD target *)

(** [TDMPC2._td_target] for one batch entry. *)
Definition _td_target (wm : WorldModel) (ag : Agent) (k : key)
  (next_z : latent wm) (rew : Q) (task : option nat) : option Q :=
  let p := pi_sample (pi wm k next_z task) in
  d <- discount_update ag task ;;
  Some (rew + d * model_Q wm next_z p task RetMin true).

(** ** Trajectory planner *)

(** [torch.topk(values, k).indices]: the positions of the [k] largest
    entries, largest first; among equal entries the earlier position comes
    first (torch leaves the order of ties unspecified).  Raises when [k]
    exceeds the number of entries. *)
Fixpoint insert_desc (x : nat * Q) (l : list (nat * Q)) : list (nat * Q) :=
  match l with
  | [] => [x]
  | y :: l' =>
      if Qle_bool (snd y) (snd x) then x :: l else y :: insert_desc x l'
  end.

Definition sort_desc (l : list (nat * Q)) : list (nat * Q) :=
  fold_right insert_desc [] l.

Definition topk (values : list Q) (k : nat) : option (list nat) :=
  if (k <=? length values)%nat
  then Some (map fst (firstn k (sort_desc (indexed values))))
  else None.

(** The additive constant of the two denominators of the update. *)
Definition denom_eps : Q := 1 # 1000000000.

(** [score.sum(1, keepdim=True) + 1e-9], an addition in the dtype [dt] of
    [score]: in single precision the constant is below the resolution of a
    sum near 1 and the addition returns the sum. *)
Definition score_denom (dt : dtype) (score : list Q) : Q :=
  round_to dt (Qsum score + denom_eps).

(** [self.model._action_masks[task]]. *)
Definition action_mask (wm : WorldModel) (task : option nat) : option vec :=
  match task with
  | Some k => nth_error (_action_masks wm) k
  | None => None
  end.

(** The multi-task masking [x * self.model._action_masks[task]] of one
    action vector; the identity in single-task mode. *)
Definition masking (wm : WorldModel) (ag : Agent) (task : option nat)
  : option (vec -> vec) :=
  if multitask (cfg ag) then
    m <- action_mask wm task ;; Some (fun v => vmul v m)
  else Some (fun v => v).

(** The policy trajectory [j] of batch entry [e]: [horizon] actions, the
    first [n] of them followed by a model step, then the last one. *)
Fixpoint pi_rollout (wm : WorldModel) (task : option nat) (e j : nat)
  (n t : nat) (z : latent wm) : list vec :=
  let a := pi_sample (pi wm [0; e; j; t]%nat z task) in
  match n with
  | O => [a]
  | S n' => a :: pi_rollout wm task e j n' (S t) (next wm z a task)
  end.

(** [pi_actions], indexed [t][j]; writing the last timestep raises when
    [horizon] is 0. *)
Definition pi_trajs (wm : WorldModel) (ag : Agent) (task : option nat)
  (e : nat) (z : latent wm) : option (list (list vec)) :=
  let c := cfg ag in
  _ <- assert (0 <? horizon c)%nat ;;
  Some (map (fun t =>
          map (fun j =>
                 nth t (pi_rollout wm task e j (horizon c - 1) 0 z) [])
              (seq 0 (num_pi_trajs c)))
          (seq 0 (horizon c))).

(** The state of the refinement loop for one batch entry: [mean] and
    [std] indexed [t], the candidates [actions] indexed [t][s], and
    [score] with [elite_actions] (indexed [t][i]) once an iteration has
    bound them. *)
Record PlanState := mkPlanState {
  ps_mean : list vec;
  ps_std : list vec;
  ps_actions : list (list vec);
  ps_elite : option (list Q * list (list vec))
}.

(** [mean] before the loop: zero, or [mean[:-1] = prev[1:]] when [t0] is
    false; the assignment raises unless both slices have the same number of
    timesteps. *)
Definition init_mean (c : Cfg) (t0 : bool) (prev : list vec)
  : option (list vec) :=
  let mean := repeat (vzeros (action_dim c)) (horizon c) in
  if t0 then Some mean
  else
    let src := tl prev in
    _ <- assert (length src =? length (removelast mean))%nat ;;
    Some (src ++ skipn (length src) mean).

(** [actions] before the loop: the policy trajectories in the first
    [num_pi_trajs] slots of every timestep, the other slots not yet
    written. *)
Definition init_actions (wm : WorldModel) (ag : Agent) (task : option nat)
  (e : nat) (z : latent wm) : option (list (list vec)) :=
  let c := cfg ag in
  let blank :=
    repeat (vzeros (action_dim c)) (num_samples c - num_pi_trajs c) in
  if (0 <? num_pi_trajs c)%nat then
    pa <- pi_trajs wm ag task e z ;;
    Some (map (fun row => row ++ blank) pa)
  else Some (repeat blank (horizon c)).

(** [mean.unsqueeze(2) + std.unsqueeze(2) * r], clamped to [-1, 1]:
    indexed [t][s]. *)
Definition sample_actions (tc : Torch) (c : Cfg) (e i : nat)
  (mean std : list vec) : list (list vec) :=
  map (fun tms =>
         let t := fst tms in
         let m := fst (snd tms) in
         let sd := snd (snd tms) in
         map (fun s =>
                vclamp (-1) 1
                  (vadd m (vmul sd
                     (randn_vec tc [0; e; i; t; s]%nat (action_dim c)))))
             (seq 0 (num_samples c - num_pi_trajs c)))
      (indexed (combine mean std)).

(** The action sequence of candidate [s]. *)
Definition column (s : nat) (actions : list (list vec)) : list vec :=
  map (fun row => nth s row []) actions.

(** The float entry of [self._estimate_value(z, actions, task)] for
    candidate [s]. *)
Definition candidate_value (wm : WorldModel) (ml : CommonMath) (ag : Agent)
  (task : option nat) (e i : nat) (z : latent wm)
  (actions : list (list vec)) (s : nat) : option fvalue :=
  let k := [1; e; i; s]%nat in
  let acts := column s actions in
  g <- _estimate_value wm ml ag k z acts task ;;
  Some match degenerate wm k z acts task with
       | Some nf => NonFinite nf
       | None => Finite g
       end.

(** [value]: the estimates after [.nan_to_num(0)]. *)
Definition plan_values (wm : WorldModel) (ml : CommonMath) (ag : Agent)
  (task : option nat) (e i : nat) (z : latent wm)
  (actions : list (list vec)) : option (list Q) :=
  raw <- traverse (candidate_value wm ml ag task e i z actions)
           (seq 0 (num_samples (cfg ag))) ;;
  Some (map (nan_to_num (model_dtype wm) 0 None None) raw).

(** The softmax weights of the elite values. *)
Definition elite_score (tc : Torch) (c : Cfg) (elite_value : list Q)
  : option (list Q) :=
  max_value <- list_max elite_value ;;
  let score :=
    map (fun v => torch_exp tc (temperature c * (v - max_value)))
        elite_value in
  Some (map (fun x => x / Qsum score) score).

(** Component [d] of every elite action of one timestep. *)
Definition component (d : nat) (row : list vec) : list Q :=
  map (fun a => nth d a 0) row.

(** [(score * elite_actions).sum(dim) / (score.sum() + 1e-9)] at one
    timestep. *)
Definition weighted_mean (dt : dtype) (c : Cfg) (score : list Q)
  (row : list vec) : vec :=
  map (fun d => wsum score (component d row) / score_denom dt score)
      (seq 0 (action_dim c)).

(** [((score * (elite_actions - mean) ** 2).sum(dim) / (score.sum() + 1e-9))
    .sqrt()] at one timestep. *)
Definition weighted_std (tc : Torch) (dt : dtype) (c : Cfg) (score : list Q)
  (row : list vec) (mean : vec) : vec :=
  map (fun d =>
         let m := nth d mean 0 in
         torch_sqrt tc
           (wsum score (map (fun x => (x - m) * (x - m)) (component d row))
            / score_denom dt score))
      (seq 0 (action_dim c)).

(** The candidates of one iteration: the sampled actions written after
    the first [num_pi_trajs] slots of every timestep, then the multi-task
    mask applied to the whole tensor. *)
Definition candidates (tc : Torch) (c : Cfg) (mask : vec -> vec) (e i : nat)
  (st : PlanState) : list (list vec) :=
  let actions_sample := sample_actions tc c e i (ps_mean st) (ps_std st) in
  map (map mask)
    (map (fun p => firstn (num_pi_trajs c) (fst p) ++ snd p)
       (combine (ps_actions st) actions_sample)).

(** [torch.gather(value, 1, elite_idxs)]. *)
Definition gather_values (value : list Q) (elite_idxs : list nat) : list Q :=
  map (fun s => nth s value 0) elite_idxs.

(** [torch.gather(actions, 2, elite_idxs)], indexed [t][i]. *)
Definition gather_actions (actions : list (list vec))
  (elite_idxs : list nat) : list (list vec) :=
  map (fun row => map (fun s => nth s row []) elite_idxs) actions.

(** The recomputed [mean], indexed [t]. *)
Definition update_mean (dt : dtype) (c : Cfg) (score : list Q)
  (elite_actions : list (list vec)) : list vec :=
  map (weighted_mean dt c score) elite_actions.

(** The recomputed [std] after [clamp(min_std, max_std)], indexed [t]. *)
Definition update_std (tc : Torch) (dt : dtype) (c : Cfg) (score : list Q)
  (elite_actions : list (list vec)) (mean : list vec) : list vec :=
  map (vclamp (min_std c) (max_std c))
    (map (fun p => weighted_std tc dt c score (fst p) (snd p))
       (combine elite_actions mean)).

(** One pass of the body of the refinement loop. *)
Definition mppi_iteration (wm : WorldModel) (ml : CommonMath) (tc : Torch)
  (ag : Agent) (task : option nat) (e : nat) (z : latent wm) (i : nat)
  (st : PlanState) : option PlanState :=
  let c := cfg ag in
  (* Sample actions *)
  mask <- masking wm ag task ;;
  let actions := candidates tc c mask e i st in
  (* Compute elite actions *)
  value <- plan_values wm ml ag task e i z actions ;;
  elite_idxs <- topk value (num_elites c) ;;
  let elite_value := gather_values value elite_idxs in
  let elite_actions := gather_actions actions elite_idxs in
  (* Update parameters *)
  score <- elite_score tc c elite_value ;;
  let dt := model_dtype wm in
  let mean := update_mean dt c score elite_actions in
  let std := update_std tc dt c score elite_actions mean in
  Some (mkPlanState (map mask mean) (map mask std) actions
          (Some (score, elite_actions))).

(** The refinement loop: iterations [i], [i+1], ..., [i+n-1]. *)
Fixpoint mppi_loop (wm : WorldModel) (ml : CommonMath) (tc : Torch)
  (ag : Agent) (task : option nat) (e : nat) (z : latent wm) (n i : nat)
  (st : PlanState) : option PlanState :=
  match n with
  | O => Some st
  | S n' =>
      st' <- mppi_iteration wm ml tc ag task e z i st ;;
      mppi_loop wm ml tc ag task e z n' (S i) st'
  end.

(** The planner up to the end of the loop, for batch entry [e]. *)
Definition plan_refine (wm : WorldModel) (ml : CommonMath) (tc : Torch)
  (ag : Agent) (task : option nat) (e : nat) (o : observation wm)
  (mean0 : list vec) : option PlanState :=
  let c := cfg ag in
  let z := encode wm o task in
  _ <- assert (num_pi_trajs c <=? num_samples c)%nat ;;
  actions <- init_actions wm ag task e z ;;
  let std := repeat (repeat (max_std c) (action_dim c)) (horizon c) in
  mppi_loop wm ml tc ag task e z (iterations c) 0
    (mkPlanState mean0 std actions None).

(** The action of batch entry [e] before the final clamp: the first
    action of the trajectory drawn among the elites, plus exploration noise
    unless [eval_mode]. *)
Definition plan_select (ml : CommonMath) (tc : Torch) (c : Cfg)
  (eval_mode : bool) (e : nat) (st : PlanState) : option vec :=
  '(score, elite_actions) <- ps_elite st ;;
  let rand_idx := gumbel_softmax_sample ml [e] score in
  actions <- traverse (fun row => nth_error row rand_idx) elite_actions ;;
  a <- nth_error actions 0 ;;
  std <- nth_error (ps_std st) 0 ;;
  Some (if eval_mode then a
        else vadd a (vmul std (randn_vec tc [1]%nat (action_dim c)))).

(** The initial [mean] of every batch entry: [self._prev_mean] is read
    (with its batch axis broadcast to the batch of [obs]) unless [t0]. *)
Definition warm_start (ag : Agent) (b_size : nat) (t0 : bool)
  : option (list (list vec)) :=
  prev <- (if t0 then Some (repeat [] b_size)
           else broadcast_rows b_size (_prev_mean ag)) ;;
  traverse (init_mean (cfg ag) t0) prev.

(** The state of every batch entry at the end of the refinement loop. *)
Definition plan_states (wm : WorldModel) (ml : CommonMath) (tc : Torch)
  (ag : Agent) (obs : list (observation wm)) (t0 : bool)
  (task : option nat) : option (list PlanState) :=
  mean0 <- warm_start ag (length obs) t0 ;;
  traverse (fun p => plan_refine wm ml tc ag task
                       (fst p) (fst (snd p)) (snd (snd p)))
    (indexed (combine obs mean0)).

(** [TDMPC2._plan]: the actions of the batch and the agent with its
    warm-start buffer overwritten by the final [mean].  ([torch.stack]
    raises on an empty batch.) *)
Definition _plan (wm : WorldModel) (ml : CommonMath) (tc : Torch)
  (ag : Agent) (obs : list (observation wm)) (t0 eval_mode : bool)
  (task : option nat) : option (list vec * Agent) :=
  let c := cfg ag in
  sts <- plan_states wm ml tc ag obs t0 task ;;
  a <- traverse (fun p => plan_select ml tc c eval_mode (fst p) (snd p))
         (indexed sts) ;;
  _ <- assert (0 <? length obs)%nat ;;
  prev' <- broadcast_rows (length (_prev_mean ag)) (map ps_mean sts) ;;
  Some (map (vclamp (-1) 1) a, mkAgent c (discount ag) prev').

(** [TDMPC2.plan]: the property returns [self._plan]. *)
Definition plan := _plan.

(** ** Acting *)

(** The tensor returned by [act]: of shape (action_dim,) or
    (batch, action_dim). *)
Inductive act_out :=
| Action (a : vec)
| Actions (a : list vec).

(** [TDMPC2.act]. *)
Definition act (wm : WorldModel) (ml : CommonMath) (tc : Torch)
  (ag : Agent) (obs : list (observation wm)) (t0 eval_mode : bool)
  (task : option nat) : option (act_out * Agent) :=
  if mpc (cfg ag) then
    '(a, ag') <- plan wm ml tc ag obs t0 eval_mode task ;;
    Some (Actions a, ag')
  else
    let z := map (fun o => encode wm o task) obs in
    let out := map (fun p => pi wm [2; fst p]%nat (snd p) task) (indexed z) in
    let a := map (if eval_mode then pi_mu else pi_sample) out in
    a0 <- nth_error a 0 ;;
    Some (Action a0, ag).

(** ** Reference formulas

    The closed forms the specification gives for the value estimate: they
    are written from its sentences and compared with [_estimate_value]
    below. *)

(** [d] multiplied [n] times: the product of the first [n] discounts. *)
Fixpoint Qpow (d : Q) (n : nat) : Q :=
  match n with
  | O => 1
  | S n' => Qpow d n' * d
  end.

(** [z_t]: the latent reached after the first [t] actions. *)
Definition latent_at (wm : WorldModel) (task : option nat) (z : latent wm)
  (actions : list vec) (t : nat) : latent wm :=
  fold_left (fun z a => next wm z a task) (firstn t actions) z.

(** The two-hot-decoded reward of [(z_t, action_t)]. *)
Definition reward_at (wm : WorldModel) (ml : CommonMath) (ag : Agent)
  (task : option nat) (z : latent wm) (actions : list vec) (t : nat) : Q :=
  two_hot_inv ml
    (reward wm (latent_at wm task z actions t) (nth t actions []) task)
    (cfg ag).

(** The bootstrap term: the average-mode Q of a latent and a
    policy-sampled action. *)
Definition bootstrap (wm : WorldModel) (k : key) (task : option nat)
  (z : latent wm) : Q :=
  model_Q wm z (pi_sample (pi wm k z task)) task RetAvg false.

(** [sum_{t < H} d^t * reward_t + d^H * bootstrap(z_H)]. *)
Definition discounted_return (wm : WorldModel) (ml : CommonMath)
  (ag : Agent) (k : key) (task : option nat) (z : latent wm)
  (actions : list vec) (d : Q) : Q :=
  let H := horizon (cfg ag) in
  Qsum (map (fun t => Qpow d t * reward_at wm ml ag task z actions t)
          (seq 0 H))
  + Qpow d H * bootstrap wm k task (latent_at wm task z actions H).

(** ** Planner preconditions *)

(** The conditions under which [_plan] runs to completion: at least one
    iteration and one timestep, [1 <= num_elites <= num_samples],
    [num_pi_trajs <= num_samples], a non-empty batch matching the
    warm-start buffer, a buffer of [horizon] timesteps per entry, a
    discount and (in multi-task mode) an action mask for the task, and a
    sampled elite index within the elite set. *)
Record plan_ready (wm : WorldModel) (ml : CommonMath) (ag : Agent)
  (obs : list (observation wm)) (task : option nat) : Prop := {
  ready_iterations : (0 < iterations (cfg ag))%nat;
  ready_horizon : (0 < horizon (cfg ag))%nat;
  ready_elites : (0 < num_elites (cfg ag) <= num_samples (cfg ag))%nat;
  ready_pi_trajs : (num_pi_trajs (cfg ag) <= num_samples (cfg ag))%nat;
  ready_batch : (0 < length obs)%nat;
  ready_envs : length (_prev_mean ag) = length obs;
  ready_buffer :
    Forall (fun m => length m = horizon (cfg ag)) (_prev_mean ag);
  ready_discount : exists d, discount_update ag task = Some d;
  ready_mask : exists mask, masking wm ag task = Some mask;
  ready_gumbel :
    forall k score, (0 < length score)%nat ->
      (gumbel_softmax_sample ml k score < length score)%nat
}.

(** The loop state has [horizon] timesteps in [mean], [std] and
    [actions]. *)
Definition plan_shape (c : Cfg) (st : PlanState) : Prop :=
  length (ps_mean st) = horizon c
  /\ length (ps_std st) = horizon c
  /\ length (ps_actions st) = horizon c.

(** An iteration has bound [score] and [elite_actions], with [num_elites]
    entries per timestep. *)
Definition plan_bound (c : Cfg) (st : PlanState) : Prop :=
  exists score elite_actions,
    ps_elite st = Some (score, elite_actions)
    /\ length score = num_elites c
    /\ length elite_actions = horizon c
    /\ Forall (fun row => length row = num_elites c) elite_actions.

(** ** Example instances

    Small concrete collaborators on which the definitions are evaluated.
    [tc_example] uses rational stand-ins: for [exp] a positive increasing
    function that agrees with it at 0, for [sqrt] one that agrees with it
    at 0 and 1. *)

(** Identity dynamics, reward decoded to 1, policy action 1, Q equal to the
    latent. *)
Definition wm_identity : WorldModel :=
  mkWorldModel Q Q
    (fun o _ => o)
    (fun z _ _ => z)
    (fun _ _ _ => [1])
    (fun z _ _ _ _ => z)
    (fun _ _ _ => mkPiOut [0] [1])
    [[1]; [0]]
    (fun _ _ _ _ => None)
    Float32.

(** As [wm_identity], with every value estimate overflowing to +Inf. *)
Definition wm_overflow : WorldModel :=
  mkWorldModel Q Q
    (fun o _ => o)
    (fun z _ _ => z)
    (fun _ _ _ => [1])
    (fun z _ _ _ _ => z)
    (fun _ _ _ => mkPiOut [0] [1])
    [[1]; [0]]
    (fun _ _ _ _ => Some PosInf)
    Float32.

Definition ml_example : CommonMath :=
  mkCommonMath (fun l _ => nth 0 l 0) (fun _ _ => 0%nat).

Definition tc_example : Torch :=
  mkTorch (fun x => if Qle_bool x 0 then 1 / (1 - x) else 1 + x)
    (fun x => x) (fun _ => 1 # 2).

Definition cfg_default : Cfg :=
  mkCfg 3 8 2 2 1 1 1 (1 # 20) 2 (1 # 2) false true
    0 5 (95 # 100) (995 # 1000) 500 [].

(** An override outside the bounds. *)
Definition cfg_override : Cfg :=
  mkCfg 3 8 2 2 1 1 1 (1 # 20) 2 (1 # 2) false true
    2 5 (95 # 100) (995 # 1000) 500 [].

(** One candidate, one elite, one timestep, one iteration. *)
Definition cfg_single : Cfg :=
  mkCfg 1 1 1 1 1 1 1 (1 # 20) 2 (1 # 2) false true
    0 5 (95 # 100) (995 # 1000) 500 [].

(** Two tasks; planning disabled in [cfg_policy]. *)
Definition cfg_multitask : Cfg :=
  mkCfg 1 2 1 1 1 1 1 (1 # 20) 2 (1 # 2) true true
    0 5 (95 # 100) (995 # 1000) 500 [500; 1000]%Z.

Definition cfg_policy : Cfg :=
  mkCfg 3 8 2 2 1 1 1 (1 # 20) 2 (1 # 2) false false
    0 5 (95 # 100) (995 # 1000) 500 [].

Definition agent_of (c : Cfg) : Agent :=
  match __init__ c with
  | Some ag => ag
  | None => mkAgent c (ScalarDiscount 0) []
  end.

(** An agent in mid-episode: a non-zero warm-start buffer. *)
Definition agent_warm : Agent :=
  mkAgent cfg_default (ScalarDiscount (99 # 100))
    [[[1 # 2]; [1 # 4]; [1 # 8]]].

(** An agent with a zero discount. *)
Definition agent_myopic : Agent :=
  mkAgent cfg_default (ScalarDiscount 0) [[[0]; [0]; [0]]].

(** As [wm_identity], with every Q value equal to 5. *)
Definition wm_constant : WorldModel :=
  mkWorldModel Q Q
    (fun o _ => o)
    (fun z _ _ => z)
    (fun _ _ _ => [1])
    (fun _ _ _ _ _ => 5)
    (fun _ _ _ => mkPiOut [0] [1])
    [[1]; [0]]
    (fun _ _ _ _ => None)
    Float32.

(** Indexed values in non-increasing order of value. *)
Fixpoint descending (l : list (nat * Q)) : Prop :=
  match l with
  | [] => True
  | x :: l' => Forall (fun y => snd y <= snd x) l' /\ descending l'
  end.

(** An action vector within the bounds [-1, 1] of the action space. *)
Definition in_box (v : vec) : Prop :=
  Forall (fun x => -1 <= x /\ x <= 1) v.

(** ** Policy actions *)

(** [TDMPC2.policy_action]: the policy of the behaviour-cloning model
    [bc] ([self.bc_model]) on every observation of the batch; component 0
    of the policy output in eval mode, component 1 otherwise. *)
Definition policy_action (bc : WorldModel) (obs : list (observation bc))
  (eval_mode : bool) (task : option nat) : list vec :=
  let z := map (fun o => encode bc o task) obs in
  let out := map (fun p => pi bc [2; fst p]%nat (snd p) task) (indexed z) in
  map (if eval_mode then pi_mu else pi_sample) out.

(** The candidates of a loop state hold, in the first [num_pi_trajs]
    slots of every timestep, the policy trajectories rolled out from the
    latent [z] of batch entry [e]. *)
Definition holds_pi_trajs (wm : WorldModel) (ag : Agent) (task : option nat)
  (e : nat) (z : latent wm) (st : PlanState) : Prop :=
  Forall (fun row => (num_pi_trajs (cfg ag) <= length row)%nat)
    (ps_actions st)
  /\ forall t j,
       (t < horizon (cfg ag))%nat -> (j < num_pi_trajs (cfg ag))%nat ->
       nth j (nth t (ps_actions st) []) []
       = nth t (pi_rollout wm task e j (horizon (cfg ag) - 1) 0 z) [].

(** * Auxiliary results *)

(** ** Scalar primitives *)

Lemma Qltb_true (a b : Q) : Qltb a b = true <-> a < b.
Proof.
  unfold Qltb. rewrite negb_true_iff.
  destruct (Qle_bool b a) eqn:E.
  - apply Qle_bool_iff in E. split; [discriminate | intro H; lra].
  - split; [intros _ | reflexivity].
    destruct (Qlt_le_dec a b) as [H | H]; [exact H |].
    apply Qle_bool_iff in H. congruence.
Qed.

Lemma Qltb_false (a b : Q) : Qltb a b = false <-> b <= a.
Proof.
  destruct (Qltb a b) eqn:E.
  - apply Qltb_true in E. split; [discriminate | intro H; lra].
  - split; [intros _ | reflexivity].
    destruct (Qlt_le_dec a b) as [H | H]; [| exact H].
    apply Qltb_true in H. congruence.
Qed.

Lemma py_max_Qmax (a b : Q) : py_max a b == Qmax a b.
Proof.
  unfold py_max. destruct (Qltb a b) eqn:E.
  - apply Qltb_true in E. rewrite Q.max_r; [reflexivity | lra].
  - apply Qltb_false in E. rewrite Q.max_l; [reflexivity | lra].
Qed.

Lemma py_min_Qmin (a b : Q) : py_min a b == Qmin a b.
Proof.
  unfold py_min. destruct (Qltb b a) eqn:E.
  - apply Qltb_true in E. rewrite Q.min_r; [reflexivity | lra].
  - apply Qltb_false in E. rewrite Q.min_l; [reflexivity | lra].
Qed.

Lemma py_min_max_clamp (x lo hi : Q) :
  py_min (py_max x lo) hi == clamp x lo hi.
Proof.
  unfold clamp. rewrite py_min_Qmin.
  apply Q.min_compat; [apply py_max_Qmax | reflexivity].
Qed.

Lemma clamp_cases (x lo hi : Q) :
  (hi <= Qmax x lo /\ clamp x lo hi == hi) \/
  (Qmax x lo <= hi /\ x <= lo /\ clamp x lo hi == lo) \/
  (Qmax x lo <= hi /\ lo <= x /\ clamp x lo hi == x).
Proof.
  unfold clamp.
  destruct (Q.max_spec x lo) as [[H1 H2] | [H1 H2]];
  destruct (Q.min_spec (Qmax x lo) hi) as [[H3 H4] | [H3 H4]];
  rewrite H2 in *; lra.
Qed.

Lemma clamp_bounds (x lo hi : Q) :
  lo <= hi -> lo <= clamp x lo hi /\ clamp x lo hi <= hi.
Proof.
  intro H. destruct (clamp_cases x lo hi) as [[A B] | [[A [B C]] | [A [B C]]]];
    rewrite ?B, ?C.
  - lra.
  - destruct (Q.max_spec x lo) as [[H1 H2] | [H1 H2]]; rewrite H2 in A; lra.
  - destruct (Q.max_spec x lo) as [[H1 H2] | [H1 H2]]; rewrite H2 in A; lra.
Qed.

#[global] Instance clamp_Proper : Proper (Qeq ==> Qeq ==> Qeq ==> Qeq) clamp.
Proof.
  intros x x' Hx lo lo' Hlo hi hi' Hhi. unfold clamp.
  apply Q.min_compat; [apply Q.max_compat |]; assumption.
Qed.

Lemma Qabs_diff_bounds (x y : Q) :
  x - y <= Qabs (x - y) /\ y - x <= Qabs (x - y).
Proof.
  split; [apply Qle_Qabs |].
  rewrite <- Qabs_opp. eapply Qle_trans; [| apply Qle_Qabs]. lra.
Qed.

(** [clamp] is non-expansive in its first argument. *)
Lemma clamp_lipschitz (x y lo hi : Q) :
  Qabs (clamp x lo hi - clamp y lo hi) <= Qabs (x - y).
Proof.
  destruct (Qabs_diff_bounds x y) as [D1 D2].
  apply Qabs_Qle_condition. unfold clamp.
  destruct (Q.max_spec x lo) as [[H1 H2] | [H1 H2]];
  destruct (Q.max_spec y lo) as [[H3 H4] | [H3 H4]];
  destruct (Q.min_spec (Qmax x lo) hi) as [[H5 H6] | [H5 H6]];
  destruct (Q.min_spec (Qmax y lo) hi) as [[H7 H8] | [H7 H8]];
  rewrite H6, H8; rewrite H2 in H5; rewrite H4 in H7; try rewrite H2;
    try rewrite H4; lra.
Qed.

(** ** Discount scheduler *)

Lemma py_div_some (a b : Q) : ~ b == 0 -> py_div a b = Some (a / b).
Proof.
  intro H. unfold py_div. destruct (Qeq_bool b 0) eqn:E; [| reflexivity].
  apply Qeq_bool_iff in E. contradiction.
Qed.

Lemma get_discount_no_override (c : Cfg) (L : Z) :
  discount_hardcoded c == 0 ->
  ~ discount_denom c == 0 ->
  L <> 0%Z ->
  let frac := inject_Z L / discount_denom c in
  _get_discount c L =
    Some (py_min (py_max ((frac - 1) / frac) (discount_min c))
            (discount_max c)).
Proof.
  intros Hh Hd HL frac. unfold _get_discount.
  apply Qeq_bool_iff in Hh. rewrite Hh. cbn [negb].
  rewrite py_div_some by exact Hd. fold frac.
  rewrite py_div_some; [reflexivity |].
  unfold frac. intro E.
  assert (HL' : ~ inject_Z L == 0).
  { intro E'. apply HL. unfold Qeq in E'. cbn in E'. lia. }
  apply HL'.
  assert (inject_Z L == inject_Z L / discount_denom c * discount_denom c)
    as -> by (field; exact Hd).
  rewrite E. ring.
Qed.

Lemma inject_Z_pos (L : Z) : (0 < L)%Z -> 0 < inject_Z L.
Proof. intro H. unfold Qlt. cbn. lia. Qed.

(** The heuristic [(frac - 1) / frac] is [1 - denom / L]. *)
Lemma heuristic_distance (den : Q) (L : Z) :
  ~ den == 0 -> (0 < L)%Z ->
  (inject_Z L / den - 1) / (inject_Z L / den) - 1 == - (den / inject_Z L).
Proof.
  intros Hd HL. pose proof (inject_Z_pos L HL) as HL'.
  field. split; [lra | exact Hd].
Qed.

(** Beyond some length the heuristic is within [eps] of 1. *)
Lemma heuristic_limit (den eps : Q) :
  ~ den == 0 -> 0 < eps ->
  exists N : Z, (0 < N)%Z /\
    forall L : Z, (N <= L)%Z ->
      Qabs ((inject_Z L / den - 1) / (inject_Z L / den) - 1) < eps.
Proof.
  intros Hd He.
  set (b := Qabs den / eps).
  exists (Z.max 1 (Qfloor b + 1)). split; [lia |].
  intros L HL.
  assert (HLpos : (0 < L)%Z) by lia.
  pose proof (inject_Z_pos L HLpos) as HL'.
  rewrite heuristic_distance by assumption.
  rewrite Qabs_opp.
  assert (Hb : b < inject_Z L).
  { eapply Qlt_le_trans; [apply Qlt_floor |].
    rewrite <- Zle_Qle. lia. }
  assert (Habs : Qabs (den / inject_Z L) == Qabs den / inject_Z L).
  { unfold Qdiv. rewrite Qabs_Qmult. rewrite (Qabs_pos (/ inject_Z L)).
    - reflexivity.
    - apply Qlt_le_weak, Qinv_lt_0_compat, HL'. }
  rewrite Habs.
  apply Qlt_shift_div_r; [exact HL' |].
  assert (Hb' : b * eps == Qabs den) by (unfold b; field; lra).
  rewrite <- Hb'. rewrite (Qmult_comm eps).
  apply Qmult_lt_compat_r; assumption.
Qed.

(** ** Value estimator *)

Lemma latent_at_succ (wm : WorldModel) (task : option nat) (z : latent wm)
  (actions : list vec) (t : nat) :
  (t < length actions)%nat ->
  latent_at wm task z actions (S t) =
    next wm (latent_at wm task z actions t) (nth t actions []) task.
Proof.
  unfold latent_at. revert z t.
  induction actions as [| a rest IH]; intros z t Ht; cbn in Ht; [lia |].
  destruct t as [| t]; [reflexivity |].
  cbn [firstn fold_left nth]. cbn [firstn fold_left] in IH.
  apply IH. lia.
Qed.

Lemma nth_error_nth_default {A : Type} (l : list A) (t : nat) (d : A) :
  (t < length l)%nat -> nth_error l t = Some (nth t l d).
Proof.
  revert t. induction l as [| x l IH]; intros t Ht; cbn in Ht; [lia |].
  destruct t; [reflexivity |]. cbn. apply IH. lia.
Qed.

Lemma Qsum_map_ext {A : Type} (f g : A -> Q) (l : list A) :
  (forall x, f x == g x) -> Qsum (map f l) == Qsum (map g l).
Proof.
  intro H. induction l as [| x l IH]; [reflexivity |].
  cbn [map Qsum]. rewrite IH, H. reflexivity.
Qed.

Lemma Qsum_map_scale {A : Type} (c : Q) (f : A -> Q) (l : list A) :
  Qsum (map (fun x => c * f x) l) == c * Qsum (map f l).
Proof.
  induction l as [| x l IH]; cbn [map Qsum]; [ring |].
  rewrite IH. ring.
Qed.

(** The loop invariant of [_estimate_value]: after the steps
    [s, ..., s+n-1] the state holds the latent [z_{s+n}], the return
    accumulated so far and the accumulated discount. *)
Lemma value_rollout_spec (wm : WorldModel) (ml : CommonMath) (ag : Agent)
  (task : option nat) (actions : list vec) (z0 : latent wm) (d : Q) :
  discount_update ag task = Some d ->
  forall (n s : nat) (G disc : Q),
    (s + n <= length actions)%nat ->
    exists G' disc',
      value_rollout wm ml ag task actions (seq s n)
        (latent_at wm task z0 actions s, G, disc)
      = Some (latent_at wm task z0 actions (s + n), G', disc')
      /\ G' == G + disc *
           Qsum (map (fun j =>
                        Qpow d j * reward_at wm ml ag task z0 actions (s + j))
                   (seq 0 n))
      /\ disc' == disc * Qpow d n.
Proof.
  intros Hd n. induction n as [| n IH]; intros s G disc Hlen.
  - exists G, disc. cbn. rewrite Nat.add_0_r.
    repeat split; [ring | ring].
  - cbn [seq value_rollout].
    rewrite (nth_error_nth_default actions s []) by lia. cbn [bind].
    rewrite Hd. cbn [bind].
    rewrite <- latent_at_succ by lia.
    destruct (IH (S s)
                (G + disc * two_hot_inv ml
                     (reward wm (latent_at wm task z0 actions s)
                        (nth s actions []) task) (cfg ag))
                (disc * d)) as [G' [disc' [E [HG Hdisc]]]]; [lia |].
    exists G', disc'. rewrite E.
    replace (S s + n)%nat with (s + S n)%nat by lia.
    split; [reflexivity | split].
    + rewrite HG. cbn [seq map Qsum].
      rewrite <- seq_shift, map_map.
      assert (Hshift :
        Qsum (map (fun j => Qpow d (S j)
                     * reward_at wm ml ag task z0 actions (s + S j))
                (seq 0 n))
        == d * Qsum (map (fun j => Qpow d j
                     * reward_at wm ml ag task z0 actions (S s + j))
                (seq 0 n))).
      { rewrite <- Qsum_map_scale. apply Qsum_map_ext. intro j.
        cbn [Qpow]. replace (s + S j)%nat with (S s + j)%nat by lia. ring. }
      rewrite Hshift. unfold reward_at at 2. rewrite Nat.add_0_r.
      cbn [Qpow]. ring.
    + rewrite Hdisc. cbn [Qpow].
      assert (Hcomm : forall m, Qpow d m * d == d * Qpow d m)
        by (intro m; ring).
      rewrite Hcomm. ring.
Qed.

(** ** Fallible computations *)

Lemma bind_some {A B : Type} (m : option A) (f : A -> option B) (y : B) :
  bind m f = Some y -> exists x, m = Some x /\ f x = Some y.
Proof.
  destruct m as [x |]; cbn; [| discriminate].
  intro H. exists x. split; [reflexivity | exact H].
Qed.

Lemma assert_some (b : bool) (u : unit) : assert b = Some u -> b = true.
Proof. destruct b; [reflexivity | discriminate]. Qed.

(** Inversion of one [bind] in hypothesis [H]. *)
Tactic Notation "inv_bind" hyp(H) ident(x) ident(Hx) :=
  apply bind_some in H; destruct H as [x [Hx H]].

Lemma traverse_Forall2 {A B : Type} (f : A -> option B) (l : list A)
  (ys : list B) :
  traverse f l = Some ys -> Forall2 (fun x y => f x = Some y) l ys.
Proof.
  unfold traverse. revert ys.
  induction l as [| x l IH]; intros ys H; cbn in H.
  - injection H as <-. constructor.
  - destruct (f x) as [y |] eqn:E; [| discriminate].
    destruct (sequence (map f l)) as [ys' |]; [| discriminate].
    injection H as <-. constructor; [exact E | apply IH; reflexivity].
Qed.

Lemma traverse_total {A B : Type} (f : A -> option B) (l : list A) :
  Forall (fun x => exists y, f x = Some y) l ->
  exists ys, traverse f l = Some ys.
Proof.
  unfold traverse. induction 1 as [| x l [y E] _ [ys IH]].
  - exists []. reflexivity.
  - exists (y :: ys). cbn. rewrite E, IH. reflexivity.
Qed.

Lemma Forall2_length_eq {A B : Type} (R : A -> B -> Prop) (l : list A)
  (ys : list B) : Forall2 R l ys -> length l = length ys.
Proof. induction 1; cbn; congruence. Qed.

Lemma Forall2_nth_error {A B : Type} (R : A -> B -> Prop) (l : list A)
  (ys : list B) :
  Forall2 R l ys ->
  forall i x, nth_error l i = Some x ->
    exists y, nth_error ys i = Some y /\ R x y.
Proof.
  induction 1 as [| x0 y0 l ys HR _ IH]; intros i x Hi.
  - destruct i; discriminate.
  - destruct i as [| i]; cbn in Hi.
    + injection Hi as <-. exists y0. split; [reflexivity | exact HR].
    + apply IH. exact Hi.
Qed.

Lemma nth_error_seq (s n i : nat) :
  (i < n)%nat -> nth_error (seq s n) i = Some (s + i)%nat.
Proof.
  revert s i. induction n as [| n IH]; intros s i Hi; [lia |].
  destruct i as [| i]; cbn; [f_equal; lia |].
  rewrite IH by lia. f_equal. lia.
Qed.

Lemma nth_error_Some_nth {A : Type} (l : list A) (i : nat) (x d : A) :
  nth_error l i = Some x -> nth i l d = x.
Proof.
  revert i. induction l as [| y l IH]; intros i H; destruct i; cbn in *;
    try discriminate.
  - congruence.
  - apply IH. exact H.
Qed.

(** ** Non-finite values *)

Lemma finfo_max_pos (dt : dtype) : 0 < finfo_max dt.
Proof. destruct dt; reflexivity. Qed.

(** After [nan_to_num(0)] a finite estimate is unchanged, NaN is 0, and an
    infinity is the extreme finite value of the dtype. *)
Lemma nan_to_num_cases (dt : dtype) (v : fvalue) :
  nan_to_num dt 0 None None v =
    match v with
    | Finite g => g
    | NonFinite NaN => 0
    | NonFinite PosInf => finfo_max dt
    | NonFinite NegInf => finfo_min dt
    end.
Proof. destruct v as [g | []]; reflexivity. Qed.

(** ** The refinement loop *)

Lemma vclamp_bounds (lo hi : Q) (v : vec) :
  lo <= hi -> Forall (fun x => lo <= x /\ x <= hi) (vclamp lo hi v).
Proof.
  intro H. unfold vclamp. apply Forall_map, Forall_forall.
  intros x _. apply clamp_bounds. exact H.
Qed.

Lemma vmap2_length (f : Q -> Q -> Q) (a b : vec) :
  length (vmap2 f a b) = Nat.min (length a) (length b).
Proof. unfold vmap2. rewrite length_map. apply length_combine. Qed.

Lemma combine_nth_lt {A B : Type} (a : list A) (b : list B) (d : nat)
  (x : A) (y : B) :
  (d < length a)%nat -> (d < length b)%nat ->
  nth d (combine a b) (x, y) = (nth d a x, nth d b y).
Proof.
  revert b d. induction a as [| u a IH]; intros b d Ha Hb; cbn in Ha; [lia |].
  destruct b as [| v b]; cbn in Hb; [lia |].
  destruct d as [| d]; [reflexivity |]. cbn. apply IH; lia.
Qed.

Lemma vmap2_nth (f : Q -> Q -> Q) (a b : vec) (d : nat) :
  (d < length (vmap2 f a b))%nat ->
  nth d (vmap2 f a b) 0 = f (nth d a 0) (nth d b 0).
Proof.
  rewrite vmap2_length. intro H. unfold vmap2.
  rewrite (nth_indep _ 0 (f (fst (0, 0)) (snd (0, 0))))
    by (rewrite length_map, length_combine; exact H).
  rewrite (map_nth (fun p => f (fst p) (snd p))).
  rewrite combine_nth_lt by lia.
  reflexivity.
Qed.

(** The state after an iteration, in terms of the quantities the
    iteration computes. *)
Lemma mppi_iteration_inv (wm : WorldModel) (ml : CommonMath) (tc : Torch)
  (ag : Agent) (task : option nat) (e : nat) (z : latent wm) (i : nat)
  (st st' : PlanState) :
  mppi_iteration wm ml tc ag task e z i st = Some st' ->
  exists mask value elite_idxs score,
    let c := cfg ag in
    let actions := candidates tc c mask e i st in
    let elite_actions := gather_actions actions elite_idxs in
    masking wm ag task = Some mask
    /\ plan_values wm ml ag task e i z actions = Some value
    /\ topk value (num_elites c) = Some elite_idxs
    /\ elite_score tc c (gather_values value elite_idxs) = Some score
    /\ st' = mkPlanState
               (map mask (update_mean (model_dtype wm) c score
                            elite_actions))
               (map mask (update_std tc (model_dtype wm) c score
                            elite_actions
                            (update_mean (model_dtype wm) c score
                               elite_actions)))
               actions (Some (score, elite_actions)).
Proof.
  intro H. unfold mppi_iteration in H.
  inv_bind H mask Hmask. inv_bind H value Hvalue.
  inv_bind H idxs Hidxs. inv_bind H score Hscore.
  injection H as <-.
  exists mask, value, idxs, score. cbn zeta.
  repeat split; assumption.
Qed.

(** A loop of at least one iteration ends with an iteration. *)
Lemma mppi_loop_last (wm : WorldModel) (ml : CommonMath) (tc : Torch)
  (ag : Agent) (task : option nat) (e : nat) (z : latent wm) (n i : nat)
  (st st' : PlanState) :
  (0 < n)%nat ->
  mppi_loop wm ml tc ag task e z n i st = Some st' ->
  exists j st1, mppi_iteration wm ml tc ag task e z j st1 = Some st'.
Proof.
  revert i st. induction n as [| n IH]; intros i st Hn H; [lia |].
  cbn [mppi_loop] in H. inv_bind H st1 H1.
  destruct n as [| n].
  - cbn in H. injection H as <-. exists i, st. exact H1.
  - apply (IH (S i) st1); [lia | exact H].
Qed.

Lemma masking_single (wm : WorldModel) (ag : Agent) (task : option nat)
  (mask : vec -> vec) :
  multitask (cfg ag) = false ->
  masking wm ag task = Some mask -> mask = fun v => v.
Proof.
  intros Hm H. unfold masking in H. rewrite Hm in H. congruence.
Qed.

Lemma masking_multi (wm : WorldModel) (ag : Agent) (task : option nat)
  (mask : vec -> vec) :
  multitask (cfg ag) = true ->
  masking wm ag task = Some mask ->
  exists m, action_mask wm task = Some m /\ mask = fun v => vmul v m.
Proof.
  intros Hm H. unfold masking in H. rewrite Hm in H.
  inv_bind H m Hmask. exists m. split; [exact Hmask | congruence].
Qed.

(** ** The recomputed mean *)

Lemma wsum_cons (a b : Q) (w x : list Q) :
  wsum (a :: w) (b :: x) = a * b + wsum w x.
Proof. reflexivity. Qed.

(** A sum with non-negative weights lies between the extreme values
    scaled by the total weight. *)
Lemma wsum_bounds (lo hi : Q) (w x : list Q) :
  Forall (fun a => 0 <= a) w ->
  length w = length x ->
  Forall (fun v => lo <= v /\ v <= hi) x ->
  lo * Qsum w <= wsum w x /\ wsum w x <= hi * Qsum w.
Proof.
  intro Hw. revert x.
  induction Hw as [| a w Ha _ IH]; intros x Hlen Hx.
  - destruct x; [| discriminate]. cbn. lra.
  - destruct x as [| b x]; [discriminate |].
    inversion Hx as [| ? ? [Hb1 Hb2] Hx']; subst.
    injection Hlen as Hlen.
    destruct (IH x Hlen Hx') as [I1 I2].
    rewrite wsum_cons. cbn [Qsum].
    assert (P1 : lo * a <= a * b).
    { rewrite (Qmult_comm a b). apply Qmult_le_compat_r; assumption. }
    assert (P2 : a * b <= hi * a).
    { rewrite (Qmult_comm a b). apply Qmult_le_compat_r; assumption. }
    split; lra.
Qed.

Lemma Qsum_map_div (S : Q) (l : list Q) :
  Qsum (map (fun x => x / S) l) == Qsum l / S.
Proof.
  induction l as [| x l IH]; cbn [map Qsum].
  - unfold Qdiv. ring.
  - rewrite IH. unfold Qdiv. ring.
Qed.

Lemma Qsum_pos (l : list Q) :
  l <> [] -> Forall (fun x => 0 < x) l -> 0 < Qsum l.
Proof.
  intros Hne H. induction H as [| x l Hx Hl IH]; [contradiction |].
  cbn [Qsum]. destruct l as [| y l].
  - cbn. lra.
  - assert (0 < Qsum (y :: l)) by (apply IH; discriminate). lra.
Qed.

(** The weights computed by [elite_score] are a probability vector over
    the elites when [torch.exp] is positive. *)
Lemma elite_score_weights (tc : Torch) (c : Cfg) (elite_value score : list Q) :
  (forall x, 0 < torch_exp tc x) ->
  elite_score tc c elite_value = Some score ->
  length score = length elite_value
  /\ Forall (fun w => 0 <= w) score
  /\ Qsum score == 1.
Proof.
  intros Hexp H. unfold elite_score in H. inv_bind H mx Hmx.
  injection H as <-.
  set (es := map (fun v => torch_exp tc (temperature c * (v - mx)))
               elite_value).
  assert (Hes : Forall (fun x => 0 < x) es).
  { apply Forall_map, Forall_forall. intros v _. apply Hexp. }
  assert (Hne : es <> []).
  { destruct elite_value; [discriminate |]. discriminate. }
  pose proof (Qsum_pos es Hne Hes) as HS.
  split; [unfold es; rewrite !length_map; reflexivity | split].
  - apply Forall_map. eapply Forall_impl; [| exact Hes].
    intros x Hx. cbn beta. apply Qle_shift_div_l; [exact HS |].
    rewrite Qmult_0_l. apply Qlt_le_weak, Hx.
  - rewrite Qsum_map_div. field. lra.
Qed.

Lemma round_to_eq (dt : dtype) (x y : Q) :
  x == y -> round_to dt x = round_to dt y.
Proof.
  intro H. unfold round_to.
  assert (E : Qred (Qabs x) = Qred (Qabs y)).
  { apply Qred_complete. rewrite H. reflexivity. }
  rewrite E.
  assert (B : Qle_bool 0 x = Qle_bool 0 y).
  { destruct (Qle_bool 0 x) eqn:E1, (Qle_bool 0 y) eqn:E2; try reflexivity.
    - apply Qle_bool_iff in E1. rewrite H in E1. apply Qle_bool_iff in E1.
      congruence.
    - apply Qle_bool_iff in E2. rewrite <- H in E2.
      apply Qle_bool_iff in E2. congruence. }
  rewrite B. reflexivity.
Qed.


(** In every dtype the denominator is at least 1 when the scores sum
    to 1. *)
Lemma score_denom_ge_one (dt : dtype) (score : list Q) :
  Qsum score == 1 -> 1 <= score_denom dt score.
Proof.
  intro Hsum. unfold score_denom.
  rewrite (round_to_eq dt _ (1 + denom_eps))
    by (rewrite Hsum; reflexivity).
  destruct dt; vm_compute; discriminate.
Qed.


Lemma gather_actions_rows (actions : list (list vec)) (idxs : list nat)
  (row : list vec) :
  In row (gather_actions actions idxs) -> length row = length idxs.
Proof.
  unfold gather_actions. intro H. apply in_map_iff in H.
  destruct H as [r [<- _]]. apply length_map.
Qed.

(** ** Warm start *)

Lemma broadcast_rows_length {A : Type} (n : nat) (rows out : list A) :
  broadcast_rows n rows = Some out -> length out = n.
Proof.
  unfold broadcast_rows. destruct (length rows =? n)%nat eqn:E.
  - intro H. injection H as <-. apply Nat.eqb_eq. exact E.
  - destruct rows as [| r [| ? ?]]; try discriminate.
    intro H. injection H as <-. apply repeat_length.
Qed.

Lemma broadcast_rows_same {A : Type} (n : nat) (rows : list A) :
  length rows = n -> broadcast_rows n rows = Some rows.
Proof.
  intro H. unfold broadcast_rows.
  apply Nat.eqb_eq in H. rewrite H. reflexivity.
Qed.

Lemma removelast_repeat_length {A : Type} (x : A) (n : nat) :
  length (removelast (repeat x n)) = (n - 1)%nat.
Proof.
  induction n as [| n IH]; [reflexivity |].
  cbn [repeat]. destruct n as [| n]; [reflexivity |].
  change (removelast (x :: repeat x (S n)))
    with (x :: removelast (repeat x (S n))).
  cbn [length]. rewrite IH. lia.
Qed.

Lemma skipn_repeat {A : Type} (x : A) (k n : nat) :
  skipn k (repeat x n) = repeat x (n - k).
Proof.
  revert n. induction k as [| k IH]; intro n.
  - rewrite Nat.sub_0_r. reflexivity.
  - destruct n as [| n]; [reflexivity |]. cbn. apply IH.
Qed.

(** The shape of [mean] before the loop when [t0] is false. *)
Lemma init_mean_shift (c : Cfg) (prev mean : list vec) :
  init_mean c false prev = Some mean ->
  length mean = horizon c
  /\ (forall t, (S t < horizon c)%nat -> nth t mean [] = nth (S t) prev [])
  /\ ((0 < horizon c)%nat ->
      nth (horizon c - 1) mean [] = vzeros (action_dim c)).
Proof.
  unfold init_mean.
  assert (Hsrc : forall t, nth t (tl prev) [] = nth (S t) prev []).
  { intro t. destruct prev as [| p prev]; [destruct t; reflexivity |].
    reflexivity. }
  remember (tl prev) as src eqn:Esrc. clear Esrc.
  intro H. inv_bind H u Hu. injection H as <-.
  apply assert_some, Nat.eqb_eq in Hu.
  rewrite removelast_repeat_length in Hu.
  rewrite Hu, skipn_repeat.
  split; [| split].
  - rewrite length_app, repeat_length, Hu. lia.
  - intros t Ht. rewrite app_nth1 by lia. apply Hsrc.
  - intro HH. rewrite app_nth2 by lia. rewrite Hu, Nat.sub_diag.
    replace (horizon c - (horizon c - 1))%nat with 1%nat by lia.
    reflexivity.
Qed.

Lemma init_mean_total (c : Cfg) (t0 : bool) (prev : list vec) :
  (t0 = false -> length prev = horizon c) ->
  exists mean, init_mean c t0 prev = Some mean /\ length mean = horizon c.
Proof.
  intro H. unfold init_mean. destruct t0.
  - eexists. split; [reflexivity | apply repeat_length].
  - specialize (H eq_refl).
    assert (Htl : length (tl prev) = (horizon c - 1)%nat).
    { destruct prev; cbn in *; lia. }
    remember (tl prev) as src eqn:Esrc. clear Esrc.
    assert (E : (length src
                 =? length (removelast
                              (repeat (vzeros (action_dim c)) (horizon c))))%nat
                = true).
    { apply Nat.eqb_eq. rewrite removelast_repeat_length. exact Htl. }
    rewrite E. cbn [assert bind]. eexists. split; [reflexivity |].
    rewrite length_app, skipn_repeat, repeat_length. lia.
Qed.

Lemma Forall2_Forall_r {A B : Type} (R : A -> B -> Prop) (P : B -> Prop)
  (l : list A) (ys : list B) :
  (forall x y, R x y -> P y) -> Forall2 R l ys -> Forall P ys.
Proof.
  intros HP H. induction H as [| x y l ys HR _ IH]; constructor.
  - apply (HP x). exact HR.
  - exact IH.
Qed.

(** The stages of a completed call of [_plan]. *)
Lemma plan_inv (wm : WorldModel) (ml : CommonMath) (tc : Torch) (ag : Agent)
  (obs : list (observation wm)) (t0 eval_mode : bool) (task : option nat)
  (a : list vec) (ag' : Agent) :
  _plan wm ml tc ag obs t0 eval_mode task = Some (a, ag') ->
  exists mean0 sts a0,
    warm_start ag (length obs) t0 = Some mean0
    /\ traverse (fun p => plan_refine wm ml tc ag task
                            (fst p) (fst (snd p)) (snd (snd p)))
         (indexed (combine obs mean0)) = Some sts
    /\ traverse (fun p => plan_select ml tc (cfg ag) eval_mode
                            (fst p) (snd p))
         (indexed sts) = Some a0
    /\ (0 < length obs)%nat
    /\ broadcast_rows (length (_prev_mean ag)) (map ps_mean sts)
       = Some (_prev_mean ag')
    /\ a = map (vclamp (-1) 1) a0
    /\ cfg ag' = cfg ag /\ discount ag' = discount ag.
Proof.
  intro H. unfold _plan in H. inv_bind H sts Hsts.
  unfold plan_states in Hsts. inv_bind Hsts mean0 Hmean0.
  inv_bind H a0 Ha0. inv_bind H u Hu. inv_bind H prev' Hprev'.
  injection H as <- <-.
  apply assert_some, Nat.ltb_lt in Hu.
  exists mean0, sts, a0. cbn [_prev_mean cfg discount].
  repeat split; assumption.
Qed.

(** ** The planner runs to completion *)

Lemma estimate_value_total (wm : WorldModel) (ml : CommonMath) (ag : Agent)
  (k : key) (z : latent wm) (actions : list vec) (task : option nat) (d : Q) :
  length actions = horizon (cfg ag) ->
  discount_update ag task = Some d ->
  exists g, _estimate_value wm ml ag k z actions task = Some g.
Proof.
  intros Hlen Hd.
  destruct (value_rollout_spec wm ml ag task actions z d Hd
              (horizon (cfg ag)) 0 0 1) as [G [disc [E _]]]; [lia |].
  unfold _estimate_value. change (latent_at wm task z actions 0) with z in E.
  rewrite E. cbn [bind]. eexists. reflexivity.
Qed.

Lemma insert_desc_length (x : nat * Q) (l : list (nat * Q)) :
  length (insert_desc x l) = S (length l).
Proof.
  induction l as [| y l IH]; [reflexivity |].
  cbn [insert_desc]. destruct (Qle_bool (snd y) (snd x)); cbn; [reflexivity |].
  rewrite IH. reflexivity.
Qed.

Lemma sort_desc_length (l : list (nat * Q)) :
  length (sort_desc l) = length l.
Proof.
  induction l as [| x l IH]; [reflexivity |].
  unfold sort_desc in *. cbn [fold_right]. rewrite insert_desc_length.
  cbn [length]. f_equal. exact IH.
Qed.

Lemma indexed_length {A : Type} (l : list A) : length (indexed l) = length l.
Proof. unfold indexed. rewrite length_combine, length_seq. lia. Qed.

Lemma topk_total (values : list Q) (k : nat) :
  (k <= length values)%nat ->
  exists idxs, topk values k = Some idxs /\ length idxs = k.
Proof.
  intro H. unfold topk. apply Nat.leb_le in H as E. rewrite E.
  eexists. split; [reflexivity |].
  rewrite length_map, length_firstn, sort_desc_length, indexed_length. lia.
Qed.

Lemma elite_score_total (tc : Torch) (c : Cfg) (elite_value : list Q) :
  (0 < length elite_value)%nat ->
  exists score, elite_score tc c elite_value = Some score
    /\ length score = length elite_value.
Proof.
  intro H. destruct elite_value as [| v l]; [cbn in H; lia |].
  unfold elite_score. cbn [list_max bind].
  eexists. split; [reflexivity |]. rewrite !length_map. reflexivity.
Qed.

Lemma sample_actions_length (tc : Torch) (c : Cfg) (e i : nat)
  (mean std : list vec) :
  length (sample_actions tc c e i mean std)
  = Nat.min (length mean) (length std).
Proof.
  unfold sample_actions.
  rewrite length_map, indexed_length, length_combine. reflexivity.
Qed.

Lemma candidates_length (tc : Torch) (c : Cfg) (mask : vec -> vec)
  (e i : nat) (st : PlanState) :
  plan_shape c st -> length (candidates tc c mask e i st) = horizon c.
Proof.
  intros [H1 [H2 H3]]. unfold candidates.
  rewrite !length_map, length_combine, sample_actions_length. lia.
Qed.

Lemma plan_values_total (wm : WorldModel) (ml : CommonMath) (ag : Agent)
  (task : option nat) (e i : nat) (z : latent wm)
  (actions : list (list vec)) (d : Q) :
  length actions = horizon (cfg ag) ->
  discount_update ag task = Some d ->
  exists value, plan_values wm ml ag task e i z actions = Some value
    /\ length value = num_samples (cfg ag).
Proof.
  intros Hlen Hd. unfold plan_values.
  destruct (traverse_total (candidate_value wm ml ag task e i z actions)
              (seq 0 (num_samples (cfg ag)))) as [raw Hraw].
  { apply Forall_forall. intros s _. unfold candidate_value.
    destruct (estimate_value_total wm ml ag [1; e; i; s]%nat z
                (column s actions) task d) as [g Hg].
    - unfold column. rewrite length_map. exact Hlen.
    - exact Hd.
    - rewrite Hg. cbn [bind]. eexists. reflexivity. }
  rewrite Hraw. cbn [bind]. eexists. split; [reflexivity |].
  rewrite length_map.
  rewrite <- (Forall2_length_eq _ _ _ (traverse_Forall2 _ _ _ Hraw)).
  apply length_seq.
Qed.

(** Under the planner's preconditions an iteration completes, keeps the
    shape of the state and binds [score] and [elite_actions]. *)
Lemma mppi_iteration_total (wm : WorldModel) (ml : CommonMath) (tc : Torch)
  (ag : Agent) (task : option nat) (e : nat) (z : latent wm) (i : nat)
  (st : PlanState) (mask : vec -> vec) (d : Q) :
  masking wm ag task = Some mask ->
  discount_update ag task = Some d ->
  (0 < num_elites (cfg ag) <= num_samples (cfg ag))%nat ->
  plan_shape (cfg ag) st ->
  exists st', mppi_iteration wm ml tc ag task e z i st = Some st'
    /\ plan_shape (cfg ag) st' /\ plan_bound (cfg ag) st'.
Proof.
  intros Hmask Hd Hk Hshape.
  pose proof (candidates_length tc (cfg ag) mask e i st Hshape) as Hc.
  unfold mppi_iteration. rewrite Hmask. cbn [bind].
  destruct (plan_values_total wm ml ag task e i z _ d Hc Hd)
    as [value [Hv Hvl]].
  rewrite Hv. cbn [bind].
  destruct (topk_total value (num_elites (cfg ag))) as [idxs [Ht Htl]];
    [lia |].
  rewrite Ht. cbn [bind].
  destruct (elite_score_total tc (cfg ag) (gather_values value idxs))
    as [score [Hs Hsl]].
  { unfold gather_values. rewrite length_map. lia. }
  rewrite Hs. cbn [bind].
  eexists. split; [reflexivity |].
  assert (Hea : length (gather_actions (candidates tc (cfg ag) mask e i st)
                          idxs) = horizon (cfg ag)).
  { unfold gather_actions. rewrite length_map. exact Hc. }
  split.
  - unfold plan_shape. cbn [ps_mean ps_std ps_actions].
    unfold update_std, update_mean.
    rewrite !length_map, length_combine, !length_map.
    unfold gather_actions in *. rewrite length_map in *. lia.
  - exists score, (gather_actions (candidates tc (cfg ag) mask e i st) idxs).
    cbn [ps_elite]. split; [reflexivity |]. split; [| split].
    + rewrite Hsl. unfold gather_values. rewrite length_map. exact Htl.
    + exact Hea.
    + apply Forall_forall. intros row Hrow.
      rewrite (gather_actions_rows _ _ _ Hrow). exact Htl.
Qed.

Lemma mppi_loop_total (wm : WorldModel) (ml : CommonMath) (tc : Torch)
  (ag : Agent) (task : option nat) (e : nat) (z : latent wm)
  (mask : vec -> vec) (d : Q) :
  masking wm ag task = Some mask ->
  discount_update ag task = Some d ->
  (0 < num_elites (cfg ag) <= num_samples (cfg ag))%nat ->
  forall (n i : nat) (st : PlanState),
    (0 < n)%nat ->
    plan_shape (cfg ag) st ->
    exists st', mppi_loop wm ml tc ag task e z n i st = Some st'
      /\ plan_shape (cfg ag) st' /\ plan_bound (cfg ag) st'.
Proof.
  intros Hmask Hd Hk n.
  induction n as [| n IH]; intros i st Hn Hshape; [lia |].
  cbn [mppi_loop].
  destruct (mppi_iteration_total wm ml tc ag task e z i st mask d
              Hmask Hd Hk Hshape) as [st1 [E1 [S1 B1]]].
  rewrite E1. cbn [bind].
  destruct n as [| n].
  - cbn [mppi_loop]. exists st1.
    split; [reflexivity | split; assumption].
  - apply IH; [lia | exact S1].
Qed.

Lemma init_actions_total (wm : WorldModel) (ag : Agent) (task : option nat)
  (e : nat) (z : latent wm) :
  (0 < horizon (cfg ag))%nat ->
  exists actions, init_actions wm ag task e z = Some actions
    /\ length actions = horizon (cfg ag).
Proof.
  intro HH. unfold init_actions.
  destruct (0 <? num_pi_trajs (cfg ag))%nat.
  - unfold pi_trajs. apply Nat.ltb_lt in HH as E. rewrite E.
    cbn [assert bind]. eexists. split; [reflexivity |].
    rewrite !length_map. apply length_seq.
  - eexists. split; [reflexivity | apply repeat_length].
Qed.

Lemma plan_refine_total (wm : WorldModel) (ml : CommonMath) (tc : Torch)
  (ag : Agent) (task : option nat) (e : nat) (o : observation wm)
  (mean0 : list vec) (mask : vec -> vec) (d : Q) :
  masking wm ag task = Some mask ->
  discount_update ag task = Some d ->
  (0 < num_elites (cfg ag) <= num_samples (cfg ag))%nat ->
  (num_pi_trajs (cfg ag) <= num_samples (cfg ag))%nat ->
  (0 < iterations (cfg ag))%nat ->
  (0 < horizon (cfg ag))%nat ->
  length mean0 = horizon (cfg ag) ->
  exists st, plan_refine wm ml tc ag task e o mean0 = Some st
    /\ plan_shape (cfg ag) st /\ plan_bound (cfg ag) st.
Proof.
  intros Hmask Hd Hk Hpi Hit HH Hm. unfold plan_refine.
  apply Nat.leb_le in Hpi as E. rewrite E. cbn [assert bind].
  destruct (init_actions_total wm ag task e (encode wm o task) HH)
    as [actions [Ha Hal]].
  rewrite Ha. cbn [bind].
  apply (mppi_loop_total wm ml tc ag task e _ mask d Hmask Hd Hk);
    [exact Hit |].
  unfold plan_shape. cbn [ps_mean ps_std ps_actions].
  rewrite repeat_length. repeat split; assumption.
Qed.

Lemma plan_select_total (ml : CommonMath) (tc : Torch) (c : Cfg)
  (eval_mode : bool) (e : nat) (st : PlanState) :
  (0 < horizon c)%nat ->
  (0 < num_elites c)%nat ->
  (forall k score, (0 < length score)%nat ->
     (gumbel_softmax_sample ml k score < length score)%nat) ->
  plan_shape c st -> plan_bound c st ->
  exists a, plan_select ml tc c eval_mode e st = Some a.
Proof.
  intros HH Hk Hg [_ [Hstd _]] [score [ea [He [Hsl [Heal Hrows]]]]].
  unfold plan_select. rewrite He. cbn [bind].
  set (idx := gumbel_softmax_sample ml [e] score).
  assert (Hidx : (idx < num_elites c)%nat).
  { rewrite <- Hsl. apply Hg. lia. }
  destruct (traverse_total (fun row : list vec => nth_error row idx) ea)
    as [acts Hacts].
  { eapply Forall_impl; [| exact Hrows].
    intros row Hrow. cbn beta in Hrow |- *.
    destruct (nth_error row idx) as [x |] eqn:E; [exists x; reflexivity |].
    apply nth_error_None in E. lia. }
  rewrite Hacts. cbn [bind].
  pose proof (Forall2_length_eq _ _ _ (traverse_Forall2 _ _ _ Hacts)) as L.
  destruct acts as [| a0 acts]; [cbn in L; lia |].
  destruct (ps_std st) as [| s0 stds]; [cbn in Hstd; lia |].
  cbn [nth_error bind]. eexists. reflexivity.
Qed.

Lemma warm_start_total (ag : Agent) (b_size : nat) (t0 : bool) :
  length (_prev_mean ag) = b_size ->
  Forall (fun m => length m = horizon (cfg ag)) (_prev_mean ag) ->
  exists mean0, warm_start ag b_size t0 = Some mean0
    /\ length mean0 = b_size
    /\ Forall (fun m => length m = horizon (cfg ag)) mean0.
Proof.
  intros Hlen Hbuf. unfold warm_start.
  assert (Hprev : exists prev,
            (if t0 then Some (repeat [] b_size)
             else broadcast_rows b_size (_prev_mean ag)) = Some prev
            /\ length prev = b_size
            /\ Forall (fun p : list vec =>
                         t0 = false -> length p = horizon (cfg ag)) prev).
  { destruct t0.
    - eexists. split; [reflexivity |]. split; [apply repeat_length |].
      apply Forall_forall. intros p _ Hf. discriminate Hf.
    - exists (_prev_mean ag). split; [apply broadcast_rows_same, Hlen |].
      split; [exact Hlen |].
      eapply Forall_impl; [| exact Hbuf]. intros p Hp _. exact Hp. }
  destruct Hprev as [prev [Ep [Lp Fp]]]. rewrite Ep. cbn [bind].
  destruct (traverse_total (init_mean (cfg ag) t0) prev) as [mean0 Hm].
  { eapply Forall_impl; [| exact Fp]. intros p Hp. cbn beta.
    destruct (init_mean_total (cfg ag) t0 p Hp) as [m [Em _]].
    exists m. exact Em. }
  exists mean0. split; [exact Hm |].
  apply traverse_Forall2 in Hm.
  split; [rewrite <- (Forall2_length_eq _ _ _ Hm); exact Lp |].
  eapply Forall2_Forall_r; [| exact Hm].
  intros p m Em. cbn beta in Em.
  destruct t0.
  - cbn in Em. injection Em as <-. apply repeat_length.
  - apply (init_mean_shift _ _ _ Em).
Qed.

Lemma traverse_total_prop {A B : Type} (f : A -> option B) (P : B -> Prop)
  (l : list A) :
  Forall (fun x => exists y, f x = Some y /\ P y) l ->
  exists ys, traverse f l = Some ys /\ Forall P ys.
Proof.
  unfold traverse. induction 1 as [| x l [y [E Py]] _ [ys [IH Pys]]].
  - exists []. split; [reflexivity | constructor].
  - exists (y :: ys). cbn. rewrite E, IH.
    split; [reflexivity | constructor; assumption].
Qed.

Lemma in_indexed {A : Type} (l : list A) (p : nat * A) :
  In p (indexed l) -> In (snd p) l.
Proof.
  unfold indexed. destruct p as [e x]. intro H.
  apply in_combine_r in H. exact H.
Qed.

(** Under its preconditions [_plan] returns one action per batch entry. *)
Lemma plan_returns (wm : WorldModel) (ml : CommonMath) (tc : Torch)
  (ag : Agent) (obs : list (observation wm)) (t0 eval_mode : bool)
  (task : option nat) :
  plan_ready wm ml ag obs task ->
  exists a ag', _plan wm ml tc ag obs t0 eval_mode task = Some (a, ag')
    /\ length a = length obs.
Proof.
  intros [Hit HH Hk Hpi Hb Henv Hbuf [d Hd] [mask Hmask] Hg].
  destruct (warm_start_total ag (length obs) t0 Henv Hbuf)
    as [mean0 [Hm0 [Lm0 Fm0]]].
  unfold _plan, plan_states. rewrite Hm0. cbn [bind].
  destruct (traverse_total_prop
              (fun p => plan_refine wm ml tc ag task
                          (fst p) (fst (snd p)) (snd (snd p)))
              (fun st => plan_shape (cfg ag) st /\ plan_bound (cfg ag) st)
              (indexed (combine obs mean0))) as [sts [Hsts Fsts]].
  { apply Forall_forall. intros [e [o m]] Hp.
    apply in_indexed in Hp. cbn [fst snd] in *. apply in_combine_r in Hp.
    rewrite Forall_forall in Fm0.
    apply (plan_refine_total wm ml tc ag task e o m mask d
             Hmask Hd Hk Hpi Hit HH (Fm0 _ Hp)). }
  rewrite Hsts. cbn [bind].
  destruct (traverse_total
              (fun p => plan_select ml tc (cfg ag) eval_mode (fst p) (snd p))
              (indexed sts)) as [a0 Ha0].
  { apply Forall_forall. intros p Hp. apply in_indexed in Hp.
    rewrite Forall_forall in Fsts. destruct (Fsts _ Hp) as [S1 B1].
    apply plan_select_total; try assumption. lia. }
  rewrite Ha0. cbn [bind].
  apply Nat.ltb_lt in Hb as Eb. rewrite Eb. cbn [assert bind].
  pose proof (Forall2_length_eq _ _ _ (traverse_Forall2 _ _ _ Hsts)) as Ls.
  rewrite indexed_length, length_combine, Lm0, Nat.min_id in Ls.
  pose proof (Forall2_length_eq _ _ _ (traverse_Forall2 _ _ _ Ha0)) as La.
  rewrite indexed_length in La.
  rewrite broadcast_rows_same by (rewrite length_map; lia).
  cbn [bind]. eexists. eexists. split; [reflexivity |].
  rewrite length_map. lia.
Qed.

(** A returned batch of actions has one action per observation. *)
Lemma plan_length (wm : WorldModel) (ml : CommonMath) (tc : Torch)
  (ag : Agent) (obs : list (observation wm)) (t0 eval_mode : bool)
  (task : option nat) (a : list vec) (ag' : Agent) :
  _plan wm ml tc ag obs t0 eval_mode task = Some (a, ag') ->
  length a = length obs.
Proof.
  intro H.
  destruct (plan_inv _ _ _ _ _ _ _ _ _ _ H)
    as [mean0 [sts [a0 [Hm0 [Hsts [Ha0 [_ [_ [-> _]]]]]]]]].
  pose proof (Forall2_length_eq _ _ _ (traverse_Forall2 _ _ _ Hsts)) as Ls.
  pose proof (Forall2_length_eq _ _ _ (traverse_Forall2 _ _ _ Ha0)) as La.
  rewrite indexed_length in La.
  rewrite indexed_length, length_combine in Ls.
  unfold warm_start in Hm0. inv_bind Hm0 prev Hp.
  pose proof (Forall2_length_eq _ _ _ (traverse_Forall2 _ _ _ Hm0)) as Lm.
  assert (Lp : length prev = length obs).
  { destruct t0.
    - injection Hp as <-. apply repeat_length.
    - apply (broadcast_rows_length _ _ _ Hp). }
  rewrite length_map. lia.
Qed.

(** The warm-start buffer built by [__init__] has [num_envs] entries of
    [horizon] timesteps. *)
Lemma init_buffer_shape (c : Cfg) (ag : Agent) :
  __init__ c = Some ag ->
  length (_prev_mean ag) = num_envs c
  /\ Forall (fun m => length m = horizon (cfg ag)) (_prev_mean ag).
Proof.
  unfold __init__. intro H. inv_bind H d Hd. injection H as <-.
  cbn [_prev_mean cfg horizon]. split; [apply repeat_length |].
  apply Forall_forall. intros m Hm. apply repeat_spec in Hm. subst m.
  apply repeat_length.
Qed.

(** The planner's preconditions still hold for the agent it returns: the
    next call on a batch of the same size runs to completion too. *)
Lemma plan_preserves_ready (wm : WorldModel) (ml : CommonMath) (tc : Torch)
  (ag : Agent) (obs : list (observation wm)) (t0 eval_mode : bool)
  (task : option nat) (a : list vec) (ag' : Agent) :
  plan_ready wm ml ag obs task ->
  _plan wm ml tc ag obs t0 eval_mode task = Some (a, ag') ->
  plan_ready wm ml ag' obs task.
Proof.
  intros [Hit HH Hk Hpi Hb Henv Hbuf [d Hd] [mask Hmask] Hg] H.
  destruct (plan_inv _ _ _ _ _ _ _ _ _ _ H)
    as [mean0 [sts [a0 [Hm0 [Hsts [_ [_ [Hprev [_ [Hcfg Hdisc]]]]]]]]]].
  destruct (warm_start_total ag (length obs) t0 Henv Hbuf)
    as [mean0' [Hm0' [Lm0 Fm0]]].
  assert (mean0' = mean0) by congruence. subst mean0'.
  destruct (traverse_total_prop
              (fun p => plan_refine wm ml tc ag task
                          (fst p) (fst (snd p)) (snd (snd p)))
              (fun st => plan_shape (cfg ag) st /\ plan_bound (cfg ag) st)
              (indexed (combine obs mean0))) as [sts' [Hsts' Fsts]].
  { apply Forall_forall. intros [e [o m]] Hp.
    apply in_indexed in Hp. cbn [fst snd] in *. apply in_combine_r in Hp.
    rewrite Forall_forall in Fm0.
    apply (plan_refine_total wm ml tc ag task e o m mask d
             Hmask Hd Hk Hpi Hit HH (Fm0 _ Hp)). }
  assert (sts' = sts) by congruence. subst sts'.
  pose proof (Forall2_length_eq _ _ _ (traverse_Forall2 _ _ _ Hsts)) as Ls.
  rewrite indexed_length, length_combine, Lm0, Nat.min_id in Ls.
  rewrite broadcast_rows_same in Hprev by (rewrite length_map; lia).
  injection Hprev as Hprev.
  constructor; rewrite ?Hcfg; try assumption.
  - rewrite <- Hprev, length_map. lia.
  - rewrite <- Hprev. apply Forall_map.
    eapply Forall_impl; [| exact Fsts]. intros st [[S1 _] _]. exact S1.
  - exists d. unfold discount_update in *. rewrite Hcfg, Hdisc. exact Hd.
  - exists mask. unfold masking in *. rewrite Hcfg. exact Hmask.
Qed.

(** * Further lemmas on the planner and its collaborators *)

Lemma py_div_none (a b : Q) : py_div a b = None <-> b == 0.
Proof.
  unfold py_div. destruct (Qeq_bool b 0) eqn:E.
  - apply Qeq_bool_iff in E. split; [intros _; exact E | reflexivity].
  - split; [discriminate |]. intro H. apply Qeq_bool_iff in H. congruence.
Qed.

Lemma inject_Z_zero (L : Z) : inject_Z L == 0 <-> L = 0%Z.
Proof.
  unfold Qeq. cbn. split; intro H; lia.
Qed.

Lemma get_discount_none_iff (c : Cfg) (L : Z) :
  _get_discount c L = None <->
  discount_hardcoded c == 0 /\ (discount_denom c == 0 \/ L = 0%Z).
Proof.
  unfold _get_discount.
  destruct (Qeq_bool (discount_hardcoded c) 0) eqn:Eh; cbn [negb].
  - apply Qeq_bool_iff in Eh.
    destruct (py_div (inject_Z L) (discount_denom c)) as [frac |] eqn:E1.
    + assert (Hd : ~ discount_denom c == 0).
      { intro H.
        apply (proj2 (py_div_none (inject_Z L) (discount_denom c))) in H.
        congruence. }
      unfold py_div in E1.
      destruct (Qeq_bool (discount_denom c) 0); [discriminate |].
      injection E1 as <-.
      destruct (py_div (inject_Z L / discount_denom c - 1)
                  (inject_Z L / discount_denom c)) as [x |] eqn:E2.
      * split; [discriminate |]. intros [_ [H | H]]; [contradiction |].
        exfalso. assert (E : py_div (inject_Z L / discount_denom c - 1)
                               (inject_Z L / discount_denom c) = None).
        { apply py_div_none. subst L. unfold Qdiv. ring. }
        congruence.
      * split; [| reflexivity]. intros _. split; [exact Eh |]. right.
        apply py_div_none in E2. apply inject_Z_zero.
        assert (inject_Z L
                == inject_Z L / discount_denom c * discount_denom c)
          as -> by (field; exact Hd).
        rewrite E2. ring.
    + split; [| reflexivity]. intros _. split; [exact Eh |]. left.
      apply py_div_none in E1. exact E1.
  - split; [discriminate |]. intros [H _].
    apply Qeq_bool_iff in H. congruence.
Qed.

Lemma clamp_monotone (x y lo hi : Q) :
  x <= y -> clamp x lo hi <= clamp y lo hi.
Proof.
  intro H. unfold clamp.
  apply Q.min_le_compat_r. apply Q.max_le_compat_r. exact H.
Qed.

(** The heuristic value before clamping. *)
Lemma heuristic_value (den : Q) (L : Z) :
  ~ den == 0 -> (0 < L)%Z ->
  (inject_Z L / den - 1) / (inject_Z L / den) == 1 - den / inject_Z L.
Proof.
  intros Hd HL. pose proof (inject_Z_pos L HL) as HL'.
  field. split; [lra | exact Hd].
Qed.

Lemma get_discount_cfg (c c' : Cfg) (L : Z) :
  discount_hardcoded c' = discount_hardcoded c ->
  discount_denom c' = discount_denom c ->
  discount_min c' = discount_min c ->
  discount_max c' = discount_max c ->
  _get_discount c' L = _get_discount c L.
Proof.
  intros H1 H2 H3 H4. unfold _get_discount. rewrite H1, H2, H3, H4.
  reflexivity.
Qed.

(** The configuration stored by [__init__]: only [iterations] changes. *)
Lemma init_cfg (c : Cfg) (ag : Agent) :
  __init__ c = Some ag ->
  iterations (cfg ag)
  = (iterations c + 2 * (if 20 <=? action_dim c then 1 else 0))%nat
  /\ horizon (cfg ag) = horizon c
  /\ num_samples (cfg ag) = num_samples c
  /\ num_pi_trajs (cfg ag) = num_pi_trajs c
  /\ num_elites (cfg ag) = num_elites c
  /\ action_dim (cfg ag) = action_dim c
  /\ multitask (cfg ag) = multitask c
  /\ forall L, _get_discount (cfg ag) L = _get_discount c L.
Proof.
  unfold __init__. intro H. inv_bind H d Hd. injection H as <-.
  cbn [cfg]. repeat (split; [reflexivity |]).
  intro L. apply get_discount_cfg; reflexivity.
Qed.

(** The discount stored by [__init__]. *)
Lemma init_inv (c : Cfg) (ag : Agent) :
  __init__ c = Some ag ->
  (if multitask c
   then option_map TaskDiscounts
          (traverse (_get_discount c) (episode_lengths c))
   else option_map ScalarDiscount (_get_discount c (episode_length c)))
  = Some (discount ag).
Proof.
  unfold __init__. intro H. inv_bind H d Hd. injection H as <-.
  exact Hd.
Qed.

Lemma traverse_repeat {A B : Type} (f : A -> option B) (x : A) (y : B)
  (n : nat) :
  f x = Some y -> traverse f (repeat x n) = Some (repeat y n).
Proof.
  intro H. unfold traverse. induction n as [| n IH]; [reflexivity |].
  cbn. rewrite H, IH. reflexivity.
Qed.

Lemma init_mean_zero_buffer (c : Cfg) :
  init_mean c false (repeat (vzeros (action_dim c)) (horizon c))
  = Some (repeat (vzeros (action_dim c)) (horizon c)).
Proof.
  unfold init_mean.
  set (z := vzeros (action_dim c)).
  assert (Htl : tl (repeat z (horizon c)) = repeat z (horizon c - 1)).
  { destruct (horizon c) as [| h]; [reflexivity |].
    cbn. rewrite Nat.sub_0_r. reflexivity. }
  rewrite Htl, removelast_repeat_length, repeat_length, Nat.eqb_refl.
  cbn [assert bind]. rewrite skipn_repeat, <- repeat_app. f_equal. f_equal.
  lia.
Qed.

Lemma init_buffer_zero (c : Cfg) (ag : Agent) :
  __init__ c = Some ag ->
  _prev_mean ag
  = repeat (repeat (vzeros (action_dim (cfg ag))) (horizon (cfg ag)))
      (num_envs c).
Proof.
  unfold __init__. intro H. inv_bind H d Hd. injection H as <-.
  reflexivity.
Qed.

(** The loop only reads the actions at the timesteps it visits. *)
Lemma value_rollout_ext (wm : WorldModel) (ml : CommonMath) (ag : Agent)
  (task : option nat) (a1 a2 : list vec) (ts : list nat) :
  (forall t, In t ts -> nth_error a1 t = nth_error a2 t) ->
  forall st, value_rollout wm ml ag task a1 ts st
             = value_rollout wm ml ag task a2 ts st.
Proof.
  induction ts as [| t ts IH]; intros H st; [reflexivity |].
  cbn [value_rollout]. destruct st as [[z G] disc].
  rewrite (H t) by (left; reflexivity).
  destruct (nth_error a2 t) as [a |]; [| reflexivity]. cbn [bind].
  destruct (discount_update ag task) as [du |]; [| reflexivity]. cbn [bind].
  apply IH. intros u Hu. apply H. right. exact Hu.
Qed.

(** The loop raises when it visits a timestep past the action sequence. *)
Lemma value_rollout_short (wm : WorldModel) (ml : CommonMath) (ag : Agent)
  (task : option nat) (actions : list vec) (ts : list nat) :
  (exists t, In t ts /\ (length actions <= t)%nat) ->
  forall st, value_rollout wm ml ag task actions ts st = None.
Proof.
  induction ts as [| t ts IH]; intros [u [Hu Hlen]] st; [destruct Hu |].
  cbn [value_rollout]. destruct st as [[z G] disc].
  destruct (nth_error actions t) as [a |] eqn:E; [| reflexivity].
  cbn [bind].
  destruct (discount_update ag task) as [du |]; [| reflexivity]. cbn [bind].
  destruct Hu as [-> | Hu].
  - apply nth_error_None in Hlen. congruence.
  - apply IH. exists u. split; assumption.
Qed.

Lemma Qpow_unit (d : Q) (n : nat) :
  0 <= d -> d <= 1 -> 0 <= Qpow d n /\ Qpow d n <= 1.
Proof.
  intros H0 H1. induction n as [| n [I0 I1]]; cbn [Qpow]; [lra |].
  split.
  - apply Qmult_le_0_compat; assumption.
  - assert (Qpow d n * d <= 1 * d) by (apply Qmult_le_compat_r; assumption).
    lra.
Qed.

Lemma scaled_bound (p r R : Q) :
  0 <= p -> p <= 1 -> - R <= r -> r <= R -> - R <= p * r /\ p * r <= R.
Proof.
  intros Hp0 Hp1 Hr0 Hr1.
  assert (HR : 0 <= R) by lra.
  assert (A : p * r <= p * R).
  { rewrite (Qmult_comm p r), (Qmult_comm p R).
    apply Qmult_le_compat_r; assumption. }
  assert (B : p * (- R) <= p * r).
  { rewrite (Qmult_comm p (- R)), (Qmult_comm p r).
    apply Qmult_le_compat_r; assumption. }
  assert (C : p * R <= 1 * R) by (apply Qmult_le_compat_r; assumption).
  split; lra.
Qed.

Lemma Qsum_bound (R : Q) (l : list Q) :
  Forall (fun x => - R <= x /\ x <= R) l ->
  - (inject_Z (Z.of_nat (length l)) * R) <= Qsum l
  /\ Qsum l <= inject_Z (Z.of_nat (length l)) * R.
Proof.
  induction 1 as [| x l [H1 H2] _ [I1 I2]].
  - cbn [length Qsum Z.of_nat]. change (inject_Z 0) with 0. lra.
  - cbn [length Qsum]. rewrite Nat2Z.inj_succ. unfold Z.succ.
    rewrite inject_Z_plus. change (inject_Z 1) with 1. split; lra.
Qed.

Lemma Qpow_zero (d : Q) (n : nat) : d == 0 -> Qpow d (S n) == 0.
Proof.
  intro H. cbn [Qpow].
  transitivity (Qpow d n * 0); [| ring].
  apply Qmult_comp; [reflexivity | exact H].
Qed.

Lemma warm_start_shape (ag : Agent) (n : nat) (t0 : bool)
  (mean0 : list (list vec)) :
  warm_start ag n t0 = Some mean0 ->
  length mean0 = n
  /\ Forall (fun m => length m = horizon (cfg ag)) mean0.
Proof.
  unfold warm_start. intro H. inv_bind H prev Hp.
  apply traverse_Forall2 in H.
  assert (Lp : length prev = n).
  { destruct t0.
    - injection Hp as <-. apply repeat_length.
    - apply (broadcast_rows_length _ _ _ Hp). }
  split; [rewrite <- (Forall2_length_eq _ _ _ H); exact Lp |].
  eapply Forall2_Forall_r; [| exact H].
  intros p m E. cbn beta in E. destruct t0.
  - cbn in E. injection E as <-. apply repeat_length.
  - apply (init_mean_shift _ _ _ E).
Qed.

Lemma init_actions_shape (wm : WorldModel) (ag : Agent) (task : option nat)
  (e : nat) (z : latent wm) (actions : list (list vec)) :
  init_actions wm ag task e z = Some actions ->
  length actions = horizon (cfg ag).
Proof.
  unfold init_actions. destruct (0 <? num_pi_trajs (cfg ag))%nat.
  - intro H. inv_bind H pa Hpa. injection H as <-.
    unfold pi_trajs in Hpa. inv_bind Hpa u Hu. injection Hpa as <-.
    rewrite !length_map. apply length_seq.
  - intro H. injection H as <-. apply repeat_length.
Qed.

(** An iteration keeps the number of timesteps of the state. *)
Lemma mppi_iteration_shape (wm : WorldModel) (ml : CommonMath) (tc : Torch)
  (ag : Agent) (task : option nat) (e : nat) (z : latent wm) (i : nat)
  (st st' : PlanState) :
  mppi_iteration wm ml tc ag task e z i st = Some st' ->
  plan_shape (cfg ag) st -> plan_shape (cfg ag) st'.
Proof.
  intros H Hs.
  destruct (mppi_iteration_inv _ _ _ _ _ _ _ _ _ _ H)
    as [mask [value [idxs [score [_ [_ [_ [_ ->]]]]]]]].
  pose proof (candidates_length tc (cfg ag) mask e i st Hs) as Hc.
  unfold plan_shape. cbn [ps_mean ps_std ps_actions].
  unfold update_std, update_mean, gather_actions.
  rewrite !length_map, length_combine, !length_map.
  change (list (list Q)) with (list vec) in *.
  rewrite Hc, Nat.min_id. repeat split; exact Hc.
Qed.

Lemma mppi_loop_shape (wm : WorldModel) (ml : CommonMath) (tc : Torch)
  (ag : Agent) (task : option nat) (e : nat) (z : latent wm) (n : nat) :
  forall (i : nat) (st st' : PlanState),
    mppi_loop wm ml tc ag task e z n i st = Some st' ->
    plan_shape (cfg ag) st -> plan_shape (cfg ag) st'.
Proof.
  induction n as [| n IH]; intros i st st' H Hs; cbn [mppi_loop] in H.
  - injection H as <-. exact Hs.
  - inv_bind H st1 H1.
    apply (IH _ _ _ H). apply (mppi_iteration_shape _ _ _ _ _ _ _ _ _ _ H1 Hs).
Qed.

(** The stages of a completed [plan_refine]. *)
Lemma plan_refine_inv (wm : WorldModel) (ml : CommonMath) (tc : Torch)
  (ag : Agent) (task : option nat) (e : nat) (o : observation wm)
  (mean0 : list vec) (st : PlanState) :
  plan_refine wm ml tc ag task e o mean0 = Some st ->
  (num_pi_trajs (cfg ag) <= num_samples (cfg ag))%nat
  /\ exists actions,
       init_actions wm ag task e (encode wm o task) = Some actions
       /\ mppi_loop wm ml tc ag task e (encode wm o task)
            (iterations (cfg ag)) 0
            (mkPlanState mean0
               (repeat (repeat (max_std (cfg ag)) (action_dim (cfg ag)))
                  (horizon (cfg ag)))
               actions None) = Some st.
Proof.
  unfold plan_refine. intro H. inv_bind H u Hu. inv_bind H actions Ha.
  apply assert_some, Nat.leb_le in Hu.
  split; [exact Hu |]. exists actions. split; [exact Ha | exact H].
Qed.

Lemma plan_refine_shape (wm : WorldModel) (ml : CommonMath) (tc : Torch)
  (ag : Agent) (task : option nat) (e : nat) (o : observation wm)
  (mean0 : list vec) (st : PlanState) :
  plan_refine wm ml tc ag task e o mean0 = Some st ->
  length mean0 = horizon (cfg ag) ->
  plan_shape (cfg ag) st.
Proof.
  intros H Hm.
  destruct (plan_refine_inv _ _ _ _ _ _ _ _ _ H) as [_ [actions [Ha Hl]]].
  apply (mppi_loop_shape _ _ _ _ _ _ _ _ _ _ _ Hl).
  unfold plan_shape. cbn [ps_mean ps_std ps_actions].
  rewrite repeat_length. split; [exact Hm | split; [reflexivity |]].
  apply (init_actions_shape _ _ _ _ _ _ Ha).
Qed.

Lemma traverse_head {A B : Type} (f : A -> option B) (l : list A)
  (ys : list B) (y : B) :
  traverse f l = Some ys -> nth_error ys 0 = Some y ->
  exists x, nth_error l 0 = Some x /\ f x = Some y.
Proof.
  intros H Hy. apply traverse_Forall2 in H.
  destruct H as [| x y0 l ys E _]; [discriminate |].
  cbn in Hy. injection Hy as <-. exists x. split; [reflexivity | exact E].
Qed.

(** What [plan_select] returns. *)
Lemma plan_select_inv (ml : CommonMath) (tc : Torch) (c : Cfg)
  (eval_mode : bool) (e : nat) (st : PlanState) (a : vec) :
  plan_select ml tc c eval_mode e st = Some a ->
  exists score elite_actions row x std0,
    ps_elite st = Some (score, elite_actions)
    /\ nth_error elite_actions 0 = Some row
    /\ nth_error row (gumbel_softmax_sample ml [e] score) = Some x
    /\ nth_error (ps_std st) 0 = Some std0
    /\ a = if eval_mode then x
           else vadd x (vmul std0 (randn_vec tc [1]%nat (action_dim c))).
Proof.
  unfold plan_select. intro H. inv_bind H p Hp. destruct p as [score ea].
  inv_bind H acts Hacts. inv_bind H x Hx. inv_bind H std0 Hstd.
  injection H as <-.
  destruct (traverse_head _ _ _ _ Hacts Hx) as [row [Hrow Hsel]].
  exists score, ea, row, x, std0. repeat split; assumption.
Qed.

Lemma broadcast_rows_inv {A : Type} (n : nat) (rows out : list A) :
  broadcast_rows n rows = Some out ->
  (length rows = n /\ out = rows)
  \/ (exists r, rows = [r] /\ out = repeat r n).
Proof.
  unfold broadcast_rows. destruct (length rows =? n)%nat eqn:E.
  - intro H. injection H as <-. left. split; [| reflexivity].
    apply Nat.eqb_eq. exact E.
  - destruct rows as [| r [| ? ?]]; try discriminate.
    intro H. injection H as <-. right. exists r. split; reflexivity.
Qed.

Lemma plan_states_length (wm : WorldModel) (ml : CommonMath) (tc : Torch)
  (ag : Agent) (obs : list (observation wm)) (t0 : bool) (task : option nat)
  (mean0 : list (list vec)) (sts : list PlanState) :
  warm_start ag (length obs) t0 = Some mean0 ->
  traverse (fun p => plan_refine wm ml tc ag task
                       (fst p) (fst (snd p)) (snd (snd p)))
    (indexed (combine obs mean0)) = Some sts ->
  length sts = length obs.
Proof.
  intros Hm Hs. destruct (warm_start_shape _ _ _ _ Hm) as [Lm _].
  apply traverse_Forall2, Forall2_length_eq in Hs.
  rewrite indexed_length, length_combine in Hs. lia.
Qed.

Lemma insert_desc_In (x p : nat * Q) (l : list (nat * Q)) :
  In p (insert_desc x l) <-> p = x \/ In p l.
Proof.
  induction l as [| y l IH]; cbn [insert_desc].
  - cbn. intuition.
  - destruct (Qle_bool (snd y) (snd x)).
    + cbn. intuition.
    + cbn [In]. rewrite IH. intuition.
Qed.

Lemma sort_desc_In (p : nat * Q) (l : list (nat * Q)) :
  In p (sort_desc l) <-> In p l.
Proof.
  unfold sort_desc. induction l as [| x l IH]; cbn [fold_right].
  - reflexivity.
  - rewrite insert_desc_In, IH. cbn. intuition.
Qed.

Lemma insert_desc_descending (x : nat * Q) (l : list (nat * Q)) :
  descending l -> descending (insert_desc x l).
Proof.
  induction l as [| y l IH]; cbn [insert_desc]; intro H.
  - cbn. split; [constructor | exact I].
  - destruct H as [Hy Hl].
    destruct (Qle_bool (snd y) (snd x)) eqn:E.
    + apply Qle_bool_iff in E. cbn [descending]. split.
      * constructor; [exact E |].
        eapply Forall_impl; [| exact Hy]. cbn beta. intros z Hz. lra.
      * split; assumption.
    + assert (Hlt : snd x < snd y).
      { apply Qnot_le_lt. intro C. apply Qle_bool_iff in C.
        rewrite C in E. discriminate E. }
      cbn [descending]. split; [| apply IH; exact Hl].
      apply Forall_forall. intros z Hz.
      apply insert_desc_In in Hz. destruct Hz as [-> | Hz].
      * apply Qlt_le_weak. exact Hlt.
      * rewrite Forall_forall in Hy. apply Hy. exact Hz.
Qed.

Lemma sort_desc_descending (l : list (nat * Q)) : descending (sort_desc l).
Proof.
  unfold sort_desc. induction l as [| x l IH]; cbn [fold_right].
  - exact I.
  - apply insert_desc_descending. exact IH.
Qed.

Lemma descending_app (l1 l2 : list (nat * Q)) :
  descending (l1 ++ l2) ->
  forall x y, In x l1 -> In y l2 -> snd y <= snd x.
Proof.
  induction l1 as [| z l1 IH]; intros H x y Hx Hy; [destruct Hx |].
  cbn [app descending] in H. destruct H as [Hz Hl].
  destruct Hx as [-> | Hx].
  - rewrite Forall_forall in Hz. apply Hz. apply in_or_app. right. exact Hy.
  - apply (IH Hl x y Hx Hy).
Qed.

Lemma insert_desc_fst (x : nat * Q) (l : list (nat * Q)) :
  NoDup (map fst l) -> ~ In (fst x) (map fst l) ->
  NoDup (map fst (insert_desc x l)).
Proof.
  induction l as [| y l IH]; cbn [insert_desc]; intros Hn Hx.
  - cbn. constructor; [intros [] | constructor].
  - destruct (Qle_bool (snd y) (snd x)).
    + cbn [map]. constructor; assumption.
    + cbn [map] in *. inversion Hn as [| ? ? Hy Hl]; subst.
      constructor.
      * intro C. apply in_map_iff in C. destruct C as [p [Ep Hp]].
        apply insert_desc_In in Hp. destruct Hp as [-> | Hp].
        -- apply Hx. left. exact (eq_sym Ep).
        -- apply Hy. rewrite <- Ep. apply in_map. exact Hp.
      * apply IH; [exact Hl |]. intro C. apply Hx. right. exact C.
Qed.

Lemma sort_desc_fst (l : list (nat * Q)) :
  NoDup (map fst l) -> NoDup (map fst (sort_desc l)).
Proof.
  unfold sort_desc. induction l as [| x l IH]; cbn [fold_right map];
    intro H; [constructor |].
  inversion H as [| ? ? Hx Hl]; subst.
  apply insert_desc_fst; [apply IH; exact Hl |].
  intro C. apply Hx. apply in_map_iff in C. destruct C as [p [Ep Hp]].
  apply (sort_desc_In p l) in Hp. rewrite <- Ep. apply in_map. exact Hp.
Qed.

Lemma in_combine_seq {A : Type} (l : list A) (s i : nat) (v : A) :
  In (i, v) (combine (seq s (length l)) l) <->
  (s <= i)%nat /\ nth_error l (i - s) = Some v.
Proof.
  revert s. induction l as [| x l IH]; intro s; cbn [length seq combine].
  - cbn [In]. split; [intros [] |]. intros [_ H].
    destruct (i - s)%nat; discriminate H.
  - cbn [In]. rewrite IH. split.
    + intros [E | [Hs Hn]].
      * injection E as <- <-. rewrite Nat.sub_diag. split; [lia | reflexivity].
      * split; [lia |].
        replace (i - s)%nat with (S (i - S s)) by lia. exact Hn.
    + intros [Hs Hn]. destruct (Nat.eq_dec s i) as [-> | Hne].
      * left. rewrite Nat.sub_diag in Hn. cbn in Hn. injection Hn as ->.
        reflexivity.
      * right. split; [lia |].
        replace (i - s)%nat with (S (i - S s)) in Hn by lia. exact Hn.
Qed.

Lemma in_indexed_iff {A : Type} (l : list A) (i : nat) (v : A) :
  In (i, v) (indexed l) <-> nth_error l i = Some v.
Proof.
  unfold indexed. rewrite in_combine_seq, Nat.sub_0_r.
  split; [intros [_ H]; exact H | intro H; split; [lia | exact H]].
Qed.

Lemma indexed_fst {A : Type} (l : list A) :
  map fst (indexed l) = seq 0 (length l).
Proof.
  unfold indexed. generalize 0%nat.
  induction l as [| x l IH]; intro s; [reflexivity |].
  cbn [length seq combine map fst]. rewrite IH. reflexivity.
Qed.

(** [topk] returns [k] distinct positions, and no position left out holds
    a larger value than a position returned. *)
Lemma topk_spec (values : list Q) (k : nat) (idxs : list nat) :
  topk values k = Some idxs ->
  length idxs = k
  /\ NoDup idxs
  /\ (forall i, In i idxs -> (i < length values)%nat)
  /\ (forall i j, In i idxs -> (j < length values)%nat -> ~ In j idxs ->
        nth j values 0 <= nth i values 0).
Proof.
  unfold topk. destruct (k <=? length values)%nat eqn:Ek; [| discriminate].
  apply Nat.leb_le in Ek. intro H. injection H as <-.
  set (L := sort_desc (indexed values)).
  assert (Hin : forall i, In i (map fst (firstn k L)) ->
            exists v, In (i, v) (firstn k L)
                      /\ nth_error values i = Some v).
  { intros i Hi. apply in_map_iff in Hi. destruct Hi as [[i' v] [E Hp]].
    cbn in E. subst i'. exists v. split; [exact Hp |].
    apply in_indexed_iff, (sort_desc_In (i, v)). change (In (i, v) L).
    rewrite <- (firstn_skipn k L). apply in_or_app. left. exact Hp. }
  split; [| split; [| split]].
  - rewrite length_map, length_firstn. unfold L.
    rewrite sort_desc_length, indexed_length. lia.
  - assert (Hn : NoDup (map fst L)).
    { apply sort_desc_fst. rewrite indexed_fst. apply seq_NoDup. }
    rewrite <- (firstn_skipn k L), map_app in Hn.
    apply NoDup_app_remove_r in Hn. exact Hn.
  - intros i Hi. destruct (Hin i Hi) as [v [_ Hv]].
    apply nth_error_Some. rewrite Hv. discriminate.
  - intros i j Hi Hj Hnj. destruct (Hin i Hi) as [v [Hp Hv]].
    rewrite (nth_error_nth _ _ 0 Hv).
    pose proof (nth_error_nth_default values j 0 Hj) as Hvj.
    set (w := nth j values 0) in *.
    assert (Hw : In (j, w) L).
    { apply sort_desc_In, in_indexed_iff. exact Hvj. }
    rewrite <- (firstn_skipn k L) in Hw. apply in_app_or in Hw.
    destruct Hw as [Hw | Hw].
    + exfalso. apply Hnj. apply in_map_iff. exists (j, w).
      split; [reflexivity | exact Hw].
    + pose proof (sort_desc_descending (indexed values)) as Hd.
      fold L in Hd. rewrite <- (firstn_skipn k L) in Hd.
      apply (descending_app _ _ Hd (i, v) (j, w) Hp Hw).
Qed.

Lemma plan_values_length (wm : WorldModel) (ml : CommonMath) (ag : Agent)
  (task : option nat) (e i : nat) (z : latent wm)
  (actions : list (list vec)) (value : list Q) :
  plan_values wm ml ag task e i z actions = Some value ->
  length value = num_samples (cfg ag).
Proof.
  unfold plan_values. intro H. inv_bind H raw Hraw. injection H as <-.
  rewrite length_map.
  rewrite <- (Forall2_length_eq _ _ _ (traverse_Forall2 _ _ _ Hraw)).
  apply length_seq.
Qed.

Lemma traverse_nth_error {A B : Type} (f : A -> option B) (l : list A)
  (ys : list B) (i : nat) (y : B) :
  traverse f l = Some ys -> nth_error ys i = Some y ->
  exists x, nth_error l i = Some x /\ f x = Some y.
Proof.
  intro H. apply traverse_Forall2 in H. revert i.
  induction H as [| x y0 l ys E _ IH]; intros i Hy.
  - destruct i; discriminate Hy.
  - destruct i as [| i]; cbn in Hy |- *.
    + injection Hy as <-. exists x. split; [reflexivity | exact E].
    + apply IH. exact Hy.
Qed.

Lemma nth_error_combine {A B : Type} (a : list A) (b : list B) (i : nat)
  (p : A * B) :
  nth_error (combine a b) i = Some p ->
  nth_error a i = Some (fst p) /\ nth_error b i = Some (snd p).
Proof.
  revert b i. induction a as [| x a IH]; intros b i H.
  - destruct i; discriminate H.
  - destruct b as [| y b]; [destruct i; discriminate H |].
    destruct i as [| i]; cbn in H |- *.
    + injection H as <-. split; reflexivity.
    + apply IH. exact H.
Qed.

Lemma nth_error_indexed {A : Type} (l : list A) (i : nat) (p : nat * A) :
  nth_error (indexed l) i = Some p ->
  fst p = i /\ nth_error l i = Some (snd p).
Proof.
  unfold indexed. intro H.
  destruct (nth_error_combine _ _ _ _ H) as [H1 H2].
  split; [| exact H2].
  assert (Hi : (i < length l)%nat).
  { apply nth_error_Some. rewrite H2. discriminate. }
  rewrite (nth_error_seq 0 _ _ Hi) in H1. injection H1 as <-. reflexivity.
Qed.

Lemma indexed_nth_error {A : Type} (l : list A) (i : nat) (x : A) :
  nth_error l i = Some x -> nth_error (indexed l) i = Some (i, x).
Proof.
  intro H. apply nth_error_In in H as Hin.
  assert (Hi : (i < length (indexed l))%nat).
  { rewrite indexed_length. apply nth_error_Some. rewrite H. discriminate. }
  destruct (nth_error (indexed l) i) as [p |] eqn:E.
  - destruct (nth_error_indexed _ _ _ E) as [E1 E2].
    rewrite H in E2. injection E2 as E2. destruct p as [j y].
    cbn in E1, E2. subst. reflexivity.
  - apply nth_error_None in E. lia.
Qed.

Lemma nth_error_map_inv {A B : Type} (f : A -> B) (l : list A) (i : nat)
  (y : B) :
  nth_error (map f l) i = Some y ->
  exists x, nth_error l i = Some x /\ y = f x.
Proof.
  rewrite nth_error_map. destruct (nth_error l i) as [x |]; cbn; intro H;
    [| discriminate H].
  injection H as <-. exists x. split; reflexivity.
Qed.

(** The batch entries of a completed [_plan]: entry [e] of the result is
    the clamped selection from the final state of entry [e], which the
    refinement reached from observation [e]; every row of the new buffer
    is the mean of a final state. *)
Lemma plan_entries (wm : WorldModel) (ml : CommonMath) (tc : Torch)
  (ag : Agent) (obs : list (observation wm)) (t0 eval_mode : bool)
  (task : option nat) (a : list vec) (ag' : Agent) :
  _plan wm ml tc ag obs t0 eval_mode task = Some (a, ag') ->
  exists sts a0,
    plan_states wm ml tc ag obs t0 task = Some sts
    /\ a = map (vclamp (-1) 1) a0
    /\ (forall e v, nth_error a0 e = Some v ->
          exists st o m,
            nth_error sts e = Some st
            /\ nth_error obs e = Some o
            /\ length m = horizon (cfg ag)
            /\ plan_refine wm ml tc ag task e o m = Some st
            /\ plan_select ml tc (cfg ag) eval_mode e st = Some v)
    /\ (forall st, In st sts ->
          exists e v, nth_error sts e = Some st /\ nth_error a0 e = Some v)
    /\ (forall m, In m (_prev_mean ag') ->
          exists st, In st sts /\ m = ps_mean st).
Proof.
  intro H.
  destruct (plan_inv _ _ _ _ _ _ _ _ _ _ H)
    as [mean0 [sts [a0 [Hm0 [Hsts [Ha0 [_ [Hprev [Ha _]]]]]]]]].
  exists sts, a0.
  split; [unfold plan_states; rewrite Hm0; exact Hsts |].
  split; [exact Ha |].
  destruct (warm_start_shape _ _ _ _ Hm0) as [_ Fm].
  split; [| split].
  - intros e v Hv.
    destruct (traverse_nth_error _ _ _ _ _ Ha0 Hv) as [[e' st] [Hp Hsel]].
    destruct (nth_error_indexed _ _ _ Hp) as [Ee Hst].
    cbn [fst snd] in Ee, Hst, Hsel. subst e'.
    destruct (traverse_nth_error _ _ _ _ _ Hsts Hst)
      as [[e' [o m]] [Hq Href]].
    destruct (nth_error_indexed _ _ _ Hq) as [Ee Hom].
    cbn [fst snd] in Ee, Hom, Href. subst e'.
    destruct (nth_error_combine _ _ _ _ Hom) as [Ho Hm].
    cbn [fst snd] in Ho, Hm.
    exists st, o, m. split; [exact Hst |]. split; [exact Ho |].
    split; [| split; [exact Href | exact Hsel]].
    rewrite Forall_forall in Fm. apply Fm.
    apply (nth_error_In _ _ Hm).
  - intros st Hst. apply In_nth_error in Hst. destruct Hst as [e He].
    apply indexed_nth_error in He as Hp.
    apply traverse_Forall2 in Ha0.
    destruct (Forall2_nth_error _ _ _ Ha0 _ _ Hp) as [v [Hv _]].
    exists e, v. split; [exact He | exact Hv].
  - intros m Hm.
    destruct (broadcast_rows_inv _ _ _ Hprev) as [[_ E] | [r [E Hout]]].
    + rewrite E in Hm. apply in_map_iff in Hm. destruct Hm as [st [<- Hst]].
      exists st. split; [exact Hst | reflexivity].
    + rewrite Hout in Hm. apply repeat_spec in Hm. subst m.
      assert (Hr : In r (map ps_mean sts)) by (rewrite E; left; reflexivity).
      apply in_map_iff in Hr. destruct Hr as [st [<- Hst]].
      exists st. split; [exact Hst | reflexivity].
Qed.

(** A final state from which an action is selected was produced by an
    iteration of the loop. *)
Lemma plan_refine_last (wm : WorldModel) (ml : CommonMath) (tc : Torch)
  (ag : Agent) (task : option nat) (eval_mode : bool) (e : nat)
  (o : observation wm) (m : list vec) (st : PlanState) (v : vec) :
  plan_refine wm ml tc ag task e o m = Some st ->
  plan_select ml tc (cfg ag) eval_mode e st = Some v ->
  (0 < iterations (cfg ag))%nat
  /\ exists j st1,
       mppi_iteration wm ml tc ag task e (encode wm o task) j st1 = Some st.
Proof.
  intros Href Hsel.
  destruct (plan_refine_inv _ _ _ _ _ _ _ _ _ Href) as [_ [actions [_ Hl]]].
  destruct (plan_select_inv _ _ _ _ _ _ _ Hsel)
    as [score [ea [row [x [std0 [He _]]]]]].
  assert (Hit : (0 < iterations (cfg ag))%nat).
  { destruct (iterations (cfg ag)) as [| n]; [| lia].
    cbn in Hl. injection Hl as <-. discriminate He. }
  split; [exact Hit |].
  apply (mppi_loop_last _ _ _ _ _ _ _ _ _ _ _ Hit Hl).
Qed.

Lemma in_box_nth (v : vec) (d : nat) :
  in_box v -> -1 <= nth d v 0 /\ nth d v 0 <= 1.
Proof.
  intro H. destruct (nth_in_or_default d v 0) as [Hin | ->]; [| lra].
  unfold in_box in H. rewrite Forall_forall in H. apply H. exact Hin.
Qed.

Lemma vclamp_in_box (v : vec) : in_box (vclamp (-1) 1 v).
Proof. apply vclamp_bounds. lra. Qed.

(** Clamping to [-1, 1] leaves a vector within the bounds unchanged. *)
Lemma vclamp_box_id (v : vec) : in_box v -> vclamp (-1) 1 v = v.
Proof.
  unfold in_box, vclamp. induction 1 as [| x v [H1 H2] _ IH]; [reflexivity |].
  cbn [map]. rewrite IH. f_equal.
  unfold clamp, Qmin, Qmax, GenericMinMax.gmin, GenericMinMax.gmax.
  destruct (x ?= -1) eqn:E1.
  - destruct (x ?= 1) eqn:E2; try reflexivity.
    apply Qgt_alt in E2. lra.
  - apply Qlt_alt in E1. lra.
  - destruct (x ?= 1) eqn:E2; try reflexivity.
    apply Qgt_alt in E2. lra.
Qed.

Lemma firstn_In {A : Type} (n : nat) (l : list A) (x : A) :
  In x (firstn n l) -> In x l.
Proof.
  intro H. rewrite <- (firstn_skipn n l). apply in_or_app. left. exact H.
Qed.

Lemma mask_in_box (wm : WorldModel) (ag : Agent) (task : option nat)
  (mask : vec -> vec) :
  (multitask (cfg ag) = true ->
   forall m, action_mask wm task = Some m ->
     Forall (fun x => 0 <= x /\ x <= 1) m) ->
  masking wm ag task = Some mask ->
  forall v, in_box v -> in_box (mask v).
Proof.
  intros Hm Hmask v Hv. destruct (multitask (cfg ag)) eqn:M.
  - destruct (masking_multi _ _ _ _ M Hmask) as [m [Em ->]].
    specialize (Hm eq_refl m Em).
    unfold in_box, vmul, vmap2 in *. apply Forall_map, Forall_forall.
    intros [x y] Hin. cbn [fst snd].
    rewrite Forall_forall in Hv, Hm.
    specialize (Hv x (in_combine_l _ _ _ _ Hin)).
    specialize (Hm y (in_combine_r _ _ _ _ Hin)).
    cbn beta in Hv, Hm. split; nra.
  - rewrite (masking_single _ _ _ _ M Hmask). exact Hv.
Qed.

Lemma sample_actions_box (tc : Torch) (c : Cfg) (e i : nat)
  (mean std : list vec) (row : list vec) :
  In row (sample_actions tc c e i mean std) -> Forall in_box row.
Proof.
  unfold sample_actions. intro H. apply in_map_iff in H.
  destruct H as [p [<- _]]. apply Forall_forall. intros x Hx.
  apply in_map_iff in Hx. destruct Hx as [s [<- _]]. apply vclamp_in_box.
Qed.

Lemma candidates_box (tc : Torch) (c : Cfg) (mask : vec -> vec) (e i : nat)
  (st : PlanState) :
  (forall v, in_box v -> in_box (mask v)) ->
  Forall (Forall in_box) (ps_actions st) ->
  Forall (Forall in_box) (candidates tc c mask e i st).
Proof.
  intros Hmask Hst. unfold candidates. apply Forall_forall. intros row Hrow.
  apply in_map_iff in Hrow. destruct Hrow as [r1 [<- Hr1]].
  apply in_map_iff in Hr1. destruct Hr1 as [[old new] [<- Hp]].
  cbn [fst snd]. apply Forall_forall. intros x Hx.
  apply in_map_iff in Hx. destruct Hx as [x' [<- Hx']].
  apply Hmask. apply in_app_or in Hx'. destruct Hx' as [Hx' | Hx'].
  - apply firstn_In in Hx'. rewrite Forall_forall in Hst.
    specialize (Hst old (in_combine_l _ _ _ _ Hp)).
    rewrite Forall_forall in Hst. apply Hst. exact Hx'.
  - pose proof (sample_actions_box _ _ _ _ _ _ _ (in_combine_r _ _ _ _ Hp))
      as Hn.
    rewrite Forall_forall in Hn. apply Hn. exact Hx'.
Qed.

Lemma gather_actions_box (actions : list (list vec)) (idxs : list nat) :
  Forall (Forall in_box) actions ->
  Forall (Forall in_box) (gather_actions actions idxs).
Proof.
  intro H. unfold gather_actions. apply Forall_forall. intros row Hrow.
  apply in_map_iff in Hrow. destruct Hrow as [r [<- Hr]].
  apply Forall_forall. intros x Hx.
  apply in_map_iff in Hx. destruct Hx as [s [<- _]].
  destruct (nth_in_or_default s r []) as [Hin | ->]; [| constructor].
  rewrite Forall_forall in H. specialize (H r Hr).
  rewrite Forall_forall in H. apply H. exact Hin.
Qed.

Lemma weighted_mean_box (dt : dtype) (c : Cfg) (score : list Q)
  (row : list vec) :
  Forall (fun w => 0 <= w) score ->
  Qsum score == 1 ->
  length score = length row ->
  Forall in_box row ->
  in_box (weighted_mean dt c score row).
Proof.
  intros Hnn Hsum Hlen Hrow. unfold weighted_mean, in_box.
  apply Forall_forall. intros x Hx.
  apply in_map_iff in Hx. destruct Hx as [d [<- _]].
  assert (HW : -1 * Qsum score <= wsum score (component d row)
               /\ wsum score (component d row) <= 1 * Qsum score).
  { apply wsum_bounds.
    - exact Hnn.
    - unfold component. rewrite length_map. exact Hlen.
    - unfold component. apply Forall_map, Forall_forall. intros a Ha.
      apply in_box_nth. rewrite Forall_forall in Hrow. apply Hrow. exact Ha. }
  rewrite Hsum in HW. destruct HW as [W1 W2].
  set (W := wsum score (component d row)) in *.
  pose proof (score_denom_ge_one dt score Hsum) as HD.
  set (D := score_denom dt score) in *.
  assert (Hm : W / D * D == W) by (field; lra).
  set (q := W / D) in *.
  split; nra.
Qed.

Lemma mppi_iteration_box (wm : WorldModel) (ml : CommonMath) (tc : Torch)
  (ag : Agent) (task : option nat) (e : nat) (z : latent wm) (i : nat)
  (st st' : PlanState) :
  (multitask (cfg ag) = true ->
   forall m, action_mask wm task = Some m ->
     Forall (fun x => 0 <= x /\ x <= 1) m) ->
  mppi_iteration wm ml tc ag task e z i st = Some st' ->
  Forall (Forall in_box) (ps_actions st) ->
  Forall (Forall in_box) (ps_actions st')
  /\ ((forall x, 0 < torch_exp tc x) -> Forall in_box (ps_mean st')).
Proof.
  intros Hm H Hst.
  destruct (mppi_iteration_inv _ _ _ _ _ _ _ _ _ _ H)
    as [mask [value [idxs [score [Hmask [_ [Ht [Hsc ->]]]]]]]].
  cbn [ps_actions ps_mean].
  pose proof (mask_in_box _ _ _ _ Hm Hmask) as Hbox.
  pose proof (candidates_box tc (cfg ag) mask e i st Hbox Hst) as Hc.
  split; [exact Hc |]. intro Hexp.
  destruct (elite_score_weights _ _ _ _ Hexp Hsc) as [Hlen [Hnn Hsum]].
  unfold update_mean. apply Forall_map, Forall_map, Forall_forall.
  intros row Hrow. apply Hbox. apply weighted_mean_box.
  - exact Hnn.
  - exact Hsum.
  - rewrite Hlen. unfold gather_values. rewrite length_map. symmetry.
    apply (gather_actions_rows _ _ _ Hrow).
  - pose proof (gather_actions_box _ idxs Hc) as Hg.
    rewrite Forall_forall in Hg. apply Hg. exact Hrow.
Qed.

Lemma mppi_loop_box (wm : WorldModel) (ml : CommonMath) (tc : Torch)
  (ag : Agent) (task : option nat) (e : nat) (z : latent wm) (n : nat) :
  (multitask (cfg ag) = true ->
   forall m, action_mask wm task = Some m ->
     Forall (fun x => 0 <= x /\ x <= 1) m) ->
  forall (i : nat) (st st' : PlanState),
    (0 < n)%nat ->
    mppi_loop wm ml tc ag task e z n i st = Some st' ->
    Forall (Forall in_box) (ps_actions st) ->
    Forall (Forall in_box) (ps_actions st')
    /\ ((forall x, 0 < torch_exp tc x) -> Forall in_box (ps_mean st')).
Proof.
  intro Hm. induction n as [| n IH]; intros i st st' Hn H Hst; [lia |].
  cbn [mppi_loop] in H. inv_bind H st1 H1.
  destruct (mppi_iteration_box _ _ _ _ _ _ _ _ _ _ Hm H1 Hst) as [A1 M1].
  destruct n as [| n].
  - cbn in H. injection H as <-. split; assumption.
  - apply (IH (S i) st1 st'); [lia | exact H | exact A1].
Qed.

Lemma pi_rollout_box (wm : WorldModel) (task : option nat) (e j n : nat) :
  (forall k z, in_box (pi_sample (pi wm k z task))) ->
  forall t z, Forall in_box (pi_rollout wm task e j n t z).
Proof.
  intro Hpi. induction n as [| n IH]; intros t z; cbn [pi_rollout].
  - constructor; [apply Hpi | constructor].
  - constructor; [apply Hpi | apply IH].
Qed.

Lemma vzeros_in_box (n : nat) : in_box (vzeros n).
Proof.
  unfold in_box, vzeros. apply Forall_forall. intros x Hx.
  apply repeat_spec in Hx. subst x. lra.
Qed.

Lemma init_actions_box (wm : WorldModel) (ag : Agent) (task : option nat)
  (e : nat) (z : latent wm) (actions : list (list vec)) :
  (forall k z, in_box (pi_sample (pi wm k z task))) ->
  init_actions wm ag task e z = Some actions ->
  Forall (Forall in_box) actions.
Proof.
  intros Hpi. unfold init_actions.
  assert (Hblank : forall n, Forall in_box
            (repeat (vzeros (action_dim (cfg ag))) n)).
  { intro n. apply Forall_forall. intros x Hx. apply repeat_spec in Hx.
    subst x. apply vzeros_in_box. }
  destruct (0 <? num_pi_trajs (cfg ag))%nat.
  - intro H. inv_bind H pa Hpa. injection H as <-.
    unfold pi_trajs in Hpa. inv_bind Hpa u Hu. injection Hpa as <-.
    apply Forall_map, Forall_map, Forall_forall. intros t _.
    apply Forall_app. split; [| apply Hblank].
    apply Forall_map, Forall_forall. intros j _.
    destruct (nth_in_or_default t
                (pi_rollout wm task e j (horizon (cfg ag) - 1) 0 z) [])
      as [Hin | ->]; [| constructor].
    pose proof (pi_rollout_box wm task e j (horizon (cfg ag) - 1) Hpi 0%nat z)
      as Hr.
    rewrite Forall_forall in Hr. apply Hr. exact Hin.
  - intro H. injection H as <-. apply Forall_forall. intros row Hrow.
    apply repeat_spec in Hrow. subst row. apply Hblank.
Qed.

(** The final state of a batch entry: candidates and (with a positive
    [torch.exp]) mean within the action bounds. *)
Lemma plan_refine_box (wm : WorldModel) (ml : CommonMath) (tc : Torch)
  (ag : Agent) (task : option nat) (eval_mode : bool) (e : nat)
  (o : observation wm) (m : list vec) (st : PlanState) (v : vec) :
  (forall k z, in_box (pi_sample (pi wm k z task))) ->
  (multitask (cfg ag) = true ->
   forall mk, action_mask wm task = Some mk ->
     Forall (fun x => 0 <= x /\ x <= 1) mk) ->
  plan_refine wm ml tc ag task e o m = Some st ->
  plan_select ml tc (cfg ag) eval_mode e st = Some v ->
  Forall (Forall in_box) (ps_actions st)
  /\ ((forall x, 0 < torch_exp tc x) -> Forall in_box (ps_mean st)).
Proof.
  intros Hpi Hm Href Hsel.
  destruct (plan_refine_last _ _ _ _ _ _ _ _ _ _ _ Href Hsel) as [Hit _].
  destruct (plan_refine_inv _ _ _ _ _ _ _ _ _ Href) as [_ [actions [Ha Hl]]].
  apply (mppi_loop_box _ _ _ _ _ _ _ _ Hm _ _ _ Hit Hl).
  cbn [ps_actions]. apply (init_actions_box _ _ _ _ _ _ Hpi Ha).
Qed.

Lemma nth_vmul_r (v m : vec) (d : nat) :
  nth d m 0 == 0 -> nth d (vmul v m) 0 == 0.
Proof.
  intro H. unfold vmul.
  destruct (lt_dec d (length (vmap2 Qmult v m))) as [Hd | Hd].
  - rewrite (vmap2_nth _ _ _ _ Hd), H. ring.
  - rewrite nth_overflow by lia. reflexivity.
Qed.

Lemma nth_vmul_l (v w : vec) (d : nat) :
  nth d v 0 == 0 -> nth d (vmul v w) 0 == 0.
Proof.
  intro H. unfold vmul.
  destruct (lt_dec d (length (vmap2 Qmult v w))) as [Hd | Hd].
  - rewrite (vmap2_nth _ _ _ _ Hd), H. ring.
  - rewrite nth_overflow by lia. reflexivity.
Qed.

Lemma nth_vadd (v w : vec) (d : nat) :
  nth d v 0 == 0 -> nth d w 0 == 0 -> nth d (vadd v w) 0 == 0.
Proof.
  intros H1 H2. unfold vadd.
  destruct (lt_dec d (length (vmap2 Qplus v w))) as [Hd | Hd].
  - rewrite (vmap2_nth _ _ _ _ Hd), H1, H2. ring.
  - rewrite nth_overflow by lia. reflexivity.
Qed.

Lemma nth_vclamp (v : vec) (d : nat) :
  nth d v 0 == 0 -> nth d (vclamp (-1) 1 v) 0 == 0.
Proof.
  intro H. unfold vclamp.
  destruct (lt_dec d (length v)) as [Hd | Hd].
  - rewrite (nth_indep _ 0 (clamp 0 (-1) 1)) by (rewrite length_map; exact Hd).
    rewrite (map_nth (fun x => clamp x (-1) 1)), H. reflexivity.
  - rewrite nth_overflow by (rewrite length_map; lia). reflexivity.
Qed.

Section BufferIndependence.

Variables (wm : WorldModel) (ml : CommonMath) (tc : Torch).
Variables (ag1 ag2 : Agent).
Hypothesis Hcfg : cfg ag1 = cfg ag2.
Hypothesis Hdisc : discount ag1 = discount ag2.

Lemma discount_update_same (task : option nat) :
  discount_update ag1 task = discount_update ag2 task.
Proof. unfold discount_update. rewrite Hcfg, Hdisc. reflexivity. Qed.

Lemma value_rollout_same (task : option nat) (actions : list vec)
  (ts : list nat) :
  forall st,
    value_rollout wm ml ag1 task actions ts st
    = value_rollout wm ml ag2 task actions ts st.
Proof.
  induction ts as [| t ts IH]; intros [[z G] disc]; [reflexivity |].
  cbn [value_rollout]. rewrite Hcfg, discount_update_same.
  destruct (nth_error actions t) as [a |]; [| reflexivity]. cbn [bind].
  destruct (discount_update ag2 task) as [du |]; [| reflexivity]. cbn [bind].
  apply IH.
Qed.

Lemma estimate_value_same (k : key) (z : latent wm) (actions : list vec)
  (task : option nat) :
  _estimate_value wm ml ag1 k z actions task
  = _estimate_value wm ml ag2 k z actions task.
Proof.
  unfold _estimate_value. rewrite Hcfg, value_rollout_same. reflexivity.
Qed.

Lemma traverse_ext {A B : Type} (f g : A -> option B) (l : list A) :
  (forall x, f x = g x) -> traverse f l = traverse g l.
Proof.
  intro H. unfold traverse. f_equal. apply map_ext. exact H.
Qed.

Lemma plan_values_same (task : option nat) (e i : nat) (z : latent wm)
  (actions : list (list vec)) :
  plan_values wm ml ag1 task e i z actions
  = plan_values wm ml ag2 task e i z actions.
Proof.
  unfold plan_values. rewrite Hcfg.
  rewrite (traverse_ext (candidate_value wm ml ag1 task e i z actions)
             (candidate_value wm ml ag2 task e i z actions));
    [reflexivity |].
  intro s. unfold candidate_value. rewrite estimate_value_same. reflexivity.
Qed.

Lemma masking_same (task : option nat) :
  masking wm ag1 task = masking wm ag2 task.
Proof. unfold masking. rewrite Hcfg. reflexivity. Qed.

Lemma mppi_iteration_same (task : option nat) (e : nat) (z : latent wm)
  (i : nat) (st : PlanState) :
  mppi_iteration wm ml tc ag1 task e z i st
  = mppi_iteration wm ml tc ag2 task e z i st.
Proof.
  unfold mppi_iteration. rewrite Hcfg, masking_same.
  destruct (masking wm ag2 task) as [mask |]; [| reflexivity]. cbn [bind].
  rewrite plan_values_same. reflexivity.
Qed.

Lemma mppi_loop_same (task : option nat) (e : nat) (z : latent wm)
  (n : nat) :
  forall i st,
    mppi_loop wm ml tc ag1 task e z n i st
    = mppi_loop wm ml tc ag2 task e z n i st.
Proof.
  induction n as [| n IH]; intros i st; [reflexivity |].
  cbn [mppi_loop]. rewrite mppi_iteration_same.
  destruct (mppi_iteration wm ml tc ag2 task e z i st) as [st' |];
    [| reflexivity].
  cbn [bind]. apply IH.
Qed.

Lemma plan_refine_same (task : option nat) (e : nat) (o : observation wm)
  (mean0 : list vec) :
  plan_refine wm ml tc ag1 task e o mean0
  = plan_refine wm ml tc ag2 task e o mean0.
Proof.
  unfold plan_refine, init_actions, pi_trajs. rewrite Hcfg.
  destruct (assert (num_pi_trajs (cfg ag2) <=? num_samples (cfg ag2))%nat);
    [| reflexivity].
  cbn [bind].
  destruct (0 <? num_pi_trajs (cfg ag2))%nat.
  - destruct (assert (0 <? horizon (cfg ag2))%nat); [| reflexivity].
    cbn [bind]. apply mppi_loop_same.
  - cbn [bind]. apply mppi_loop_same.
Qed.

End BufferIndependence.

Lemma plan_select_modes (ml : CommonMath) (tc : Torch) (c : Cfg) (e : nat)
  (st : PlanState) :
  plan_select ml tc c true e st = None
  <-> plan_select ml tc c false e st = None.
Proof.
  unfold plan_select. destruct (ps_elite st) as [[score ea] |]; cbn [bind];
    [| reflexivity].
  destruct (traverse _ ea) as [acts |]; cbn [bind]; [| reflexivity].
  destruct (nth_error acts 0) as [x |]; cbn [bind]; [| reflexivity].
  destruct (nth_error (ps_std st) 0) as [s |]; cbn [bind]; [| reflexivity].
  split; discriminate.
Qed.

Lemma traverse_none_iff {A B C : Type} (f : A -> option B)
  (g : A -> option C) (l : list A) :
  (forall x, f x = None <-> g x = None) ->
  (traverse f l = None <-> traverse g l = None).
Proof.
  intro H. unfold traverse. induction l as [| x l IH]; cbn [map sequence].
  - split; discriminate.
  - pose proof (H x) as Hx.
    destruct (f x) as [y |], (g x) as [y' |].
    + destruct (sequence (map f l)), (sequence (map g l));
        intuition congruence.
    + destruct Hx as [_ Hx]. specialize (Hx eq_refl). discriminate Hx.
    + destruct Hx as [Hx _]. specialize (Hx eq_refl). discriminate Hx.
    + split; reflexivity.
Qed.

Lemma nth_map_seq {A : Type} (g : nat -> A) (n j : nat) (d : A) :
  (j < n)%nat -> nth j (map g (seq 0 n)) d = g j.
Proof.
  intro H.
  rewrite (nth_indep _ d (g 0%nat)) by (rewrite length_map, length_seq; lia).
  rewrite map_nth, seq_nth by lia. reflexivity.
Qed.

Lemma nth_map_lt {A B : Type} (f : A -> B) (l : list A) (t : nat) (d : B)
  (d' : A) :
  (t < length l)%nat -> nth t (map f l) d = f (nth t l d').
Proof.
  intro H. rewrite (nth_indep _ d (f d')) by (rewrite length_map; exact H).
  apply map_nth.
Qed.

Lemma init_actions_holds (wm : WorldModel) (ag : Agent) (task : option nat)
  (e : nat) (z : latent wm) (actions : list (list vec))
  (mean std : list vec) :
  init_actions wm ag task e z = Some actions ->
  holds_pi_trajs wm ag task e z (mkPlanState mean std actions None).
Proof.
  unfold init_actions, holds_pi_trajs. cbn [ps_actions].
  destruct (0 <? num_pi_trajs (cfg ag))%nat eqn:Epi.
  - intro H. inv_bind H pa Hpa. injection H as <-.
    unfold pi_trajs in Hpa. inv_bind Hpa u Hu. injection Hpa as <-.
    split.
    + apply Forall_map, Forall_map, Forall_forall. intros t _.
      rewrite length_app, length_map, length_seq. lia.
    + intros t j Ht Hj. rewrite map_map.
      rewrite (nth_map_seq _ _ _ _ Ht).
      rewrite app_nth1 by (rewrite length_map, length_seq; exact Hj).
      exact (nth_map_seq
               (fun j0 =>
                  nth t (pi_rollout wm task e j0 (horizon (cfg ag) - 1) 0 z)
                    [])
               _ j [] Hj).
  - apply Nat.ltb_ge in Epi. intro H. injection H as <-. split.
    + apply Forall_forall. intros row Hrow. lia.
    + intros t j _ Hj. lia.
Qed.

Lemma mppi_iteration_holds (wm : WorldModel) (ml : CommonMath) (tc : Torch)
  (ag : Agent) (task : option nat) (e : nat) (z : latent wm) (i : nat)
  (st st' : PlanState) :
  multitask (cfg ag) = false ->
  mppi_iteration wm ml tc ag task e z i st = Some st' ->
  plan_shape (cfg ag) st ->
  holds_pi_trajs wm ag task e z st ->
  holds_pi_trajs wm ag task e z st'.
Proof.
  intros M H Hs [Hlen Hpi].
  destruct (mppi_iteration_inv _ _ _ _ _ _ _ _ _ _ H)
    as [mask [value [idxs [score [Hmask [_ [_ [_ ->]]]]]]]].
  rewrite (masking_single _ _ _ _ M Hmask).
  unfold holds_pi_trajs. cbn [ps_actions]. unfold candidates.
  set (samples := sample_actions tc (cfg ag) e i (ps_mean st) (ps_std st)).
  assert (Hid : forall l : list (list vec),
            map (map (fun v : vec => v)) l = l).
  { intro l. rewrite <- (map_id l) at 2. apply map_ext. intro r.
    apply map_id. }
  rewrite Hid.
  destruct Hs as [S1 [S2 S3]].
  assert (Ls : length samples = horizon (cfg ag)).
  { unfold samples. rewrite sample_actions_length. lia. }
  split.
  - apply Forall_map, Forall_forall. intros [old new] Hp. cbn [fst snd].
    rewrite Forall_forall in Hlen.
    specialize (Hlen old (in_combine_l _ _ _ _ Hp)). cbn beta in Hlen.
    rewrite length_app, length_firstn. lia.
  - intros t j Ht Hj.
    rewrite (nth_map_lt _ _ _ _ ([], []))
      by (rewrite length_combine; lia).
    rewrite combine_nth_lt by lia. cbn [fst snd].
    assert (Lo : (num_pi_trajs (cfg ag)
                  <= length (nth t (ps_actions st) []))%nat).
    { rewrite Forall_forall in Hlen. apply Hlen. apply nth_In. lia. }
    rewrite app_nth1 by (rewrite length_firstn; lia).
    rewrite nth_firstn.
    apply Nat.ltb_lt in Hj as Hb. rewrite Hb.
    apply Hpi; [exact Ht |]. apply Nat.ltb_lt. exact Hb.
Qed.

Lemma mppi_loop_holds (wm : WorldModel) (ml : CommonMath) (tc : Torch)
  (ag : Agent) (task : option nat) (e : nat) (z : latent wm) (n : nat) :
  multitask (cfg ag) = false ->
  forall i st st',
    mppi_loop wm ml tc ag task e z n i st = Some st' ->
    plan_shape (cfg ag) st ->
    holds_pi_trajs wm ag task e z st ->
    holds_pi_trajs wm ag task e z st'.
Proof.
  intro M. induction n as [| n IH]; intros i st st' H Hs Hp;
    cbn [mppi_loop] in H.
  - injection H as <-. exact Hp.
  - inv_bind H st1 H1. apply (IH _ _ _ H).
    + apply (mppi_iteration_shape _ _ _ _ _ _ _ _ _ _ H1 Hs).
    + apply (mppi_iteration_holds _ _ _ _ _ _ _ _ _ _ M H1 Hs Hp).
Qed.

(** ** The first samples of the refinement *)

Lemma Forall2_impl_in {A B : Type} (R R' : A -> B -> Prop) (l : list A)
  (ys : list B) :
  (forall x y, In x l -> In y ys -> R x y -> R' x y) ->
  Forall2 R l ys -> Forall2 R' l ys.
Proof.
  intros H F. induction F as [| x y l ys Hxy F IH]; constructor.
  - apply H; [left; reflexivity | left; reflexivity | exact Hxy].
  - apply IH. intros x' y' Hx Hy. apply H; right; assumption.
Qed.

Lemma indexed_nth {A : Type} (l : list A) (t : nat) (d : A) :
  (t < length l)%nat -> nth t (indexed l) (0%nat, d) = (t, nth t l d).
Proof.
  intro H. apply nth_error_Some_nth, indexed_nth_error.
  apply nth_error_nth_default. exact H.
Qed.

Lemma nth_repeat_lt {A : Type} (x d : A) (n t : nat) :
  (t < n)%nat -> nth t (repeat x n) d = x.
Proof.
  intro H. rewrite (nth_indep _ d x) by (rewrite repeat_length; exact H).
  apply nth_repeat.
Qed.

(** The sampled slot [s] of timestep [t]: the clamped draw around
    [mean[t]] with deviation [std[t]]. *)
Lemma sample_actions_nth (tc : Torch) (c : Cfg) (e i : nat)
  (mean std : list vec) (t s : nat) :
  (t < length mean)%nat -> (t < length std)%nat ->
  (s < num_samples c - num_pi_trajs c)%nat ->
  nth s (nth t (sample_actions tc c e i mean std) []) []
  = vclamp (-1) 1
      (vadd (nth t mean [])
         (vmul (nth t std [])
            (randn_vec tc [0; e; i; t; s]%nat (action_dim c)))).
Proof.
  intros Hm Hs Hn. unfold sample_actions.
  rewrite (nth_map_lt _ _ _ _ ((0%nat, ([], [])) : nat * (vec * vec)))
    by (rewrite indexed_length, length_combine; lia).
  rewrite (indexed_nth _ _ (([], []) : vec * vec)) by (rewrite length_combine; lia).
  rewrite combine_nth_lt by assumption. cbn [fst snd].
  exact (nth_map_seq
           (fun s0 =>
              vclamp (-1) 1
                (vadd (nth t mean [])
                   (vmul (nth t std [])
                      (randn_vec tc [0; e; i; t; s0]%nat (action_dim c)))))
           _ s [] Hn).
Qed.

(** Every iteration draws its samples around the mean of the state it
    starts from, with that state's std: after the iteration, the candidate
    in slot [num_pi_trajs + s] of timestep [t] is the masked, clamped
    draw [mean[t] + std[t] * r]. *)
Lemma iteration_samples (wm : WorldModel) (ml : CommonMath) (tc : Torch)
  (ag : Agent) (task : option nat) (e : nat) (z : latent wm) (i : nat)
  (st st1 : PlanState) :
  mppi_iteration wm ml tc ag task e z i st = Some st1 ->
  plan_shape (cfg ag) st ->
  Forall (fun row => (num_pi_trajs (cfg ag) <= length row)%nat)
    (ps_actions st) ->
  exists mask,
    masking wm ag task = Some mask
    /\ forall t s,
         (t < horizon (cfg ag))%nat ->
         (s < num_samples (cfg ag) - num_pi_trajs (cfg ag))%nat ->
         nth (num_pi_trajs (cfg ag) + s) (nth t (ps_actions st1) []) []
         = mask (vclamp (-1) 1
                   (vadd (nth t (ps_mean st) [])
                      (vmul (nth t (ps_std st) [])
                         (randn_vec tc [0; e; i; t; s]%nat
                            (action_dim (cfg ag)))))).
Proof.
  intros H [S1 [S2 S3]] Hlen.
  destruct (mppi_iteration_inv _ _ _ _ _ _ _ _ _ _ H)
    as [mask [value [idxs [score [Hmask [_ [_ [_ ->]]]]]]]].
  exists mask. split; [exact Hmask |]. intros t s Ht Hs.
  cbn [ps_actions]. unfold candidates.
  set (samples := sample_actions tc (cfg ag) e i (ps_mean st) (ps_std st)).
  assert (Ls : length samples = horizon (cfg ag)).
  { unfold samples. rewrite sample_actions_length. lia. }
  rewrite map_map.
  rewrite (nth_map_lt _ _ _ _ (([], []) : list vec * list vec))
    by (rewrite length_combine; lia).
  rewrite combine_nth_lt by lia. cbn [fst snd].
  assert (Lo : (num_pi_trajs (cfg ag)
                <= length (nth t (ps_actions st) []))%nat).
  { rewrite Forall_forall in Hlen. apply Hlen. apply nth_In. lia. }
  assert (Ln : length (nth t samples [])
               = (num_samples (cfg ag) - num_pi_trajs (cfg ag))%nat).
  { unfold samples, sample_actions.
    rewrite (nth_map_lt _ _ _ _ ((0%nat, ([], [])) : nat * (vec * vec)))
      by (rewrite indexed_length, length_combine; lia).
    rewrite length_map. apply length_seq. }
  rewrite (nth_map_lt mask _ _ _ [])
    by (rewrite length_app, length_firstn; lia).
  f_equal.
  rewrite app_nth2 by (rewrite length_firstn; lia).
  rewrite length_firstn.
  replace (num_pi_trajs (cfg ag) + s
           - Nat.min (num_pi_trajs (cfg ag))
               (length (nth t (ps_actions st) [])))%nat with s by lia.
  unfold samples. apply sample_actions_nth; lia.
Qed.

(** A completed [_plan] has run at least one iteration. *)
Lemma plan_iterations_pos (wm : WorldModel) (ml : CommonMath) (tc : Torch)
  (ag : Agent) (obs : list (observation wm)) (t0 eval_mode : bool)
  (task : option nat) (a : list vec) (ag' : Agent) :
  _plan wm ml tc ag obs t0 eval_mode task = Some (a, ag') ->
  (0 < iterations (cfg ag))%nat.
Proof.
  intro H.
  destruct (plan_inv _ _ _ _ _ _ _ _ _ _ H)
    as [mean0 [sts [a0 [Hm0 [Hsts [Ha0 [Hb _]]]]]]].
  destruct (warm_start_shape _ _ _ _ Hm0) as [Lm _].
  apply traverse_Forall2 in Hsts. apply traverse_Forall2 in Ha0.
  destruct obs as [| o obs]; [cbn in Hb; lia |].
  destruct mean0 as [| m mean0]; [discriminate |].
  cbn in Hsts. inversion Hsts as [| p st ps sts' Hst _ Ep Es]; subst.
  cbn [fst snd] in Hst.
  cbn in Ha0. inversion Ha0 as [| q v qs vs Hsel _ Eq Ev]; subst.
  cbn [fst snd] in Hsel.
  apply (plan_refine_last _ _ _ _ _ _ _ _ _ _ _ Hst Hsel).
Qed.

(** * The properties of the specification *)

(** ** Value estimator *)

(** C1. For an action sequence of [horizon] steps, [_estimate_value]
    returns the sum over [t < horizon] of the product of the first [t]
    discounts times the two-hot-decoded reward of [(z_t, action_t)], with
    [z_{t+1} = next(z_t, action_t)], plus the product of all [horizon]
    discounts times the average-mode Q of the final latent and a
    policy-sampled action.  With identity dynamics, reward constantly 1 and
    horizon 3 this is
    [1 + discount + discount^2 + discount^3 * bootstrap]. *)
Theorem estimate_value_return (wm : WorldModel) (ml : CommonMath)
  (ag : Agent) (k : key) (z : latent wm) (actions : list vec)
  (task : option nat) (d : Q) :
  length actions = horizon (cfg ag) ->
  discount_update ag task = Some d ->
  (exists g, _estimate_value wm ml ag k z actions task = Some g /\
     g == discounted_return wm ml ag k task z actions d)
  /\ (horizon (cfg ag) = 3%nat ->
      (forall (x : latent wm) (a : vec), next wm x a task = x) ->
      (forall (x : latent wm) (a : vec),
          two_hot_inv ml (reward wm x a task) (cfg ag) == 1) ->
      exists g, _estimate_value wm ml ag k z actions task = Some g /\
        g == 1 + d + d * d + d * d * d * bootstrap wm k task z).
Proof.
  intros Hlen Hd.
  assert (Gen : exists g, _estimate_value wm ml ag k z actions task = Some g /\
     g == discounted_return wm ml ag k task z actions d).
  { destruct (value_rollout_spec wm ml ag task actions z d Hd
                (horizon (cfg ag)) 0 0 1) as [G [disc [E [HG Hdisc]]]];
      [lia |].
    unfold _estimate_value. change (latent_at wm task z actions 0) with z in E.
    rewrite E. cbn [bind].
    eexists. split; [reflexivity |].
    unfold discounted_return, bootstrap. cbn [Nat.add] in *.
    rewrite HG, Hdisc. ring. }
  split; [exact Gen |].
  intros H3 Hnext Hrew.
  destruct Gen as [g [E Hg]]. exists g. split; [exact E |].
  rewrite Hg. unfold discounted_return. rewrite H3.
  assert (Hz : forall t, latent_at wm task z actions t = z).
  { intro t. unfold latent_at. generalize (firstn t actions). intro l.
    induction l as [| a l IHl]; [reflexivity |].
    cbn [fold_left]. rewrite Hnext. exact IHl. }
  rewrite Hz. cbn [seq map Qsum Qpow].
  unfold reward_at. rewrite !Hrew. ring.
Qed.

Lemma estimate_value_return_witness :
  exists g,
    _estimate_value wm_identity ml_example (agent_of cfg_default) [] 7
      [[1]; [1]; [1]] None = Some g
    /\ g == 1 + (99 # 100) + (99 # 100) * (99 # 100)
            + (99 # 100) * (99 # 100) * (99 # 100) * 7.
Proof.
  destruct (estimate_value_return wm_identity ml_example
              (agent_of cfg_default) [] 7 [[1]; [1]; [1]] None (2475 # 2500)
              eq_refl eq_refl) as [_ H].
  destruct H as [g [E Hg]].
  - reflexivity.
  - intros x a. reflexivity.
  - intros x a. reflexivity.
  - exists g. split; [exact E |]. rewrite Hg. reflexivity.
Defined.

(** ** Refinement loop: the standard deviation *)

(** In multi-task mode a masked-out component of [std] is zero, below a
    positive [min_std]. *)
Lemma std_masked_below_min_std :
  min_std cfg_multitask <= max_std cfg_multitask
  /\ exists st x,
       plan_refine wm_identity ml_example tc_example (agent_of cfg_multitask)
         (Some 1%nat) 0 0 [[0]] = Some st
       /\ ps_std st = [[x]]
       /\ ~ min_std cfg_multitask <= x.
Proof.
  split; [vm_compute; discriminate |].
  eexists. eexists. split; [vm_compute; reflexivity |].
  split; [reflexivity |]. vm_compute. intro H. apply H. reflexivity.
Qed.

(** C2 (amended). With [min_std <= max_std], after the std update of any
    refinement iteration: in single-task mode every component of [std] lies
    within [min_std, max_std]; in multi-task mode every component is a
    value within [min_std, max_std] multiplied by the task's mask entry, so
    it stays in range where the mask is 1 and is 0 where the mask is 0.
    From a state of the right shape the iterations do complete. *)
Theorem std_after_iteration (wm : WorldModel) (ml : CommonMath) (tc : Torch)
  (ag : Agent) (task : option nat) (e : nat) (z : latent wm) (n i : nat)
  (st : PlanState) :
  (0 < n)%nat ->
  min_std (cfg ag) <= max_std (cfg ag) ->
  (forall st', mppi_loop wm ml tc ag task e z n i st = Some st' ->
     (multitask (cfg ag) = false ->
        forall row x, In row (ps_std st') -> In x row ->
          min_std (cfg ag) <= x /\ x <= max_std (cfg ag))
     /\ (multitask (cfg ag) = true ->
         exists m, action_mask wm task = Some m /\
           forall row d, In row (ps_std st') -> (d < length row)%nat ->
             exists c, min_std (cfg ag) <= c /\ c <= max_std (cfg ag) /\
               nth d row 0 = c * nth d m 0))
  /\ (plan_shape (cfg ag) st ->
      (0 < num_elites (cfg ag) <= num_samples (cfg ag))%nat ->
      (exists d, discount_update ag task = Some d) ->
      (exists mask, masking wm ag task = Some mask) ->
      exists st', mppi_loop wm ml tc ag task e z n i st = Some st').
Proof.
  intros Hn Hle. split.
  - intros st' Hloop.
    destruct (mppi_loop_last _ _ _ _ _ _ _ _ _ _ _ Hn Hloop)
      as [j [st1 Hit]].
    destruct (mppi_iteration_inv _ _ _ _ _ _ _ _ _ _ Hit)
      as [mask [value [idxs [score [Hmask [_ [_ [_ Hst]]]]]]]].
    subst st'. cbn [ps_std]. split; intro Hm.
    + rewrite (masking_single _ _ _ _ Hm Hmask), map_id.
      intros row x Hrow Hx. unfold update_std in Hrow.
      apply in_map_iff in Hrow. destruct Hrow as [v [<- _]].
      pose proof (vclamp_bounds _ _ v Hle) as HB.
      rewrite Forall_forall in HB. apply HB. exact Hx.
    + destruct (masking_multi _ _ _ _ Hm Hmask) as [m [Hmk ->]].
      exists m. split; [exact Hmk |].
      intros row d Hrow Hd.
      apply in_map_iff in Hrow. destruct Hrow as [cl [<- Hcl]].
      unfold update_std in Hcl.
      apply in_map_iff in Hcl. destruct Hcl as [v [<- _]].
      pose proof (vclamp_bounds _ _ v Hle) as HB.
      rewrite Forall_forall in HB.
      exists (nth d (vclamp (min_std (cfg ag)) (max_std (cfg ag)) v) 0).
      unfold vmul in *. rewrite vmap2_nth by exact Hd.
      rewrite vmap2_length in Hd.
      repeat split; try reflexivity; apply HB, nth_In; lia.
  - intros Hshape Hk [d Hd] [mask Hmask].
    destruct (mppi_loop_total wm ml tc ag task e z mask d Hmask Hd Hk
                n i st Hn Hshape) as [st' [E _]].
    exists st'. exact E.
Qed.

Lemma std_after_iteration_witness :
  exists st',
    mppi_loop wm_identity ml_example tc_example (agent_of cfg_single) None
      0 0 1 0 (mkPlanState [[0]] [[2]] [[[1]]] None) = Some st'
    /\ forall row x, In row (ps_std st') -> In x row ->
         (1 # 20) <= x /\ x <= 2.
Proof.
  assert (Hn : (0 < 1)%nat) by lia.
  assert (Hle : min_std (cfg (agent_of cfg_single))
                <= max_std (cfg (agent_of cfg_single)))
    by (vm_compute; discriminate).
  destruct (std_after_iteration wm_identity ml_example tc_example
              (agent_of cfg_single) None 0 0 1 0
              (mkPlanState [[0]] [[2]] [[[1]]] None) Hn Hle) as [R T].
  destruct T as [st' E].
  - repeat split.
  - cbn. lia.
  - eexists. reflexivity.
  - eexists. reflexivity.
  - exists st'. split; [exact E |].
    apply (proj1 (R st' E)). reflexivity.
Defined.

(** ** Refinement loop: the value estimates *)

(** A value estimate that overflows to +Inf enters the elite selection as
    the largest finite float, not as zero. *)
Lemma plan_values_posinf_not_zero :
  candidate_value wm_overflow ml_example (agent_of cfg_single) None 0 0 0
    [[[1]]] 0 = Some (NonFinite PosInf)
  /\ plan_values wm_overflow ml_example (agent_of cfg_single) None 0 0 0
       [[[1]]] = Some [finfo_max Float32]
  /\ ~ finfo_max Float32 == 0.
Proof.
  split; [reflexivity | split; [reflexivity |]].
  intro H. pose proof (finfo_max_pos Float32) as P. rewrite H in P.
  discriminate P.
Qed.

(** C3 (amended). In [_plan] every value entering the top-k elite
    selection is: the estimate itself when it is finite, zero when it is
    NaN, the largest finite value of the dtype when it is +Inf and the
    smallest one when it is -Inf (the last two are nonzero).  The values
    are produced for every candidate tensor of [horizon] timesteps. *)
Theorem plan_values_replacement (wm : WorldModel) (ml : CommonMath)
  (ag : Agent) (task : option nat) (e i : nat) (z : latent wm)
  (actions : list (list vec)) :
  (forall value,
     plan_values wm ml ag task e i z actions = Some value ->
     length value = num_samples (cfg ag)
     /\ (forall s, (s < num_samples (cfg ag))%nat ->
           let k := [1; e; i; s]%nat in
           let acts := column s actions in
           exists g, _estimate_value wm ml ag k z acts task = Some g /\
             nth s value 0 =
               match degenerate wm k z acts task with
               | None => g
               | Some NaN => 0
               | Some PosInf => finfo_max (model_dtype wm)
               | Some NegInf => finfo_min (model_dtype wm)
               end)
     /\ 0 < finfo_max (model_dtype wm)
     /\ finfo_min (model_dtype wm) < 0)
  /\ (length actions = horizon (cfg ag) ->
      (exists d, discount_update ag task = Some d) ->
      exists value, plan_values wm ml ag task e i z actions = Some value).
Proof.
  split.
  - intros value H. unfold plan_values in H. inv_bind H raw Hraw.
    injection H as <-.
    apply traverse_Forall2 in Hraw.
    pose proof (Forall2_length_eq _ _ _ Hraw) as Hlen.
    rewrite length_seq in Hlen.
    split; [rewrite length_map; symmetry; exact Hlen | split].
    + intros s Hs k acts.
      destruct (Forall2_nth_error _ _ _ Hraw s s) as [v [Hv Hc]].
      { rewrite nth_error_seq by exact Hs. reflexivity. }
      unfold candidate_value in Hc. inv_bind Hc g Hg. injection Hc as Hc.
      exists g. split; [exact Hg |].
      assert (Hn : nth s (map (nan_to_num (model_dtype wm) 0 None None) raw) 0
                   = nan_to_num (model_dtype wm) 0 None None v).
      { apply nth_error_Some_nth. rewrite nth_error_map, Hv. reflexivity. }
      rewrite Hn, nan_to_num_cases, <- Hc.
      fold k acts.
      destruct (degenerate wm k z acts task) as [[] |]; reflexivity.
    + pose proof (finfo_max_pos (model_dtype wm)) as P.
      split; [exact P |]. unfold finfo_min. lra.
  - intros Hlen [d Hd].
    destruct (plan_values_total wm ml ag task e i z actions d Hlen Hd)
      as [value [E _]].
    exists value. exact E.
Qed.

Lemma plan_values_replacement_witness :
  exists value,
    plan_values wm_overflow ml_example (agent_of cfg_single) None 0 0 0
      [[[1]]] = Some value
    /\ length value = 1%nat.
Proof.
  destruct (plan_values_replacement wm_overflow ml_example
              (agent_of cfg_single) None 0 0 0 [[[1]]]) as [R T].
  destruct T as [value E].
  - reflexivity.
  - eexists. reflexivity.
  - exists value. split; [exact E | apply (R value E)].
Defined.

(** ** Warm start *)

(** The warm start of [agent_warm]: the buffer shifted by one timestep. *)
Example warm_start_example :
  warm_start agent_warm 1 false = Some [[[1 # 4]; [1 # 8]; [0]]].
Proof. reflexivity. Qed.

(** C4. When [_plan] is called with [t0 = False] the planning mean starts
    as the previous mean shifted by one timestep, [mean[t] =
    previous_mean[t+1]] for [t] in [0 .. horizon-2], with [mean[horizon-1]]
    zero; with [t0 = True] it starts all-zero.  The refinement of every
    batch entry starts from this mean: its first iteration runs on the
    state holding it (with std [max_std]), so that the sample in slot
    [num_pi_trajs + s] of timestep [t] is the masked, clamped draw
    [mean[t] + max_std * r], and the remaining iterations lead to the final
    state.  When the call returns (as it does under the planner's
    preconditions, which then hold again for the next call), the final
    mean of the refinement has been written to the warm-start buffer. *)
Theorem plan_warm_start (wm : WorldModel) (ml : CommonMath) (tc : Torch)
  (ag : Agent) (obs : list (observation wm)) (t0 eval_mode : bool)
  (task : option nat) :
  let c := cfg ag in
  (forall a ag',
     _plan wm ml tc ag obs t0 eval_mode task = Some (a, ag') ->
     exists mean0 sts,
       warm_start ag (length obs) t0 = Some mean0
       /\ traverse (fun p => plan_refine wm ml tc ag task
                               (fst p) (fst (snd p)) (snd (snd p)))
            (indexed (combine obs mean0)) = Some sts
       /\ Forall2
            (fun p st =>
               exists actions mask st1,
                 init_actions wm ag task (fst p)
                   (encode wm (fst (snd p)) task) = Some actions
                 /\ masking wm ag task = Some mask
                 /\ mppi_iteration wm ml tc ag task (fst p)
                      (encode wm (fst (snd p)) task) 0
                      (mkPlanState (snd (snd p))
                         (repeat (repeat (max_std c) (action_dim c))
                            (horizon c))
                         actions None) = Some st1
                 /\ mppi_loop wm ml tc ag task (fst p)
                      (encode wm (fst (snd p)) task)
                      (iterations c - 1) 1 st1 = Some st
                 /\ forall t s,
                      (t < horizon c)%nat ->
                      (s < num_samples c - num_pi_trajs c)%nat ->
                      nth (num_pi_trajs c + s) (nth t (ps_actions st1) []) []
                      = mask (vclamp (-1) 1
                                (vadd (nth t (snd (snd p)) [])
                                   (vmul (repeat (max_std c) (action_dim c))
                                      (randn_vec tc [0; fst p; 0; t; s]%nat
                                         (action_dim c))))))
            (indexed (combine obs mean0)) sts
       /\ (t0 = true ->
           Forall (fun m => m = repeat (vzeros (action_dim c)) (horizon c))
             mean0)
       /\ (t0 = false ->
           exists prev,
             broadcast_rows (length obs) (_prev_mean ag) = Some prev
             /\ Forall2 (fun p m =>
                  length m = horizon c
                  /\ (forall t, (S t < horizon c)%nat ->
                        nth t m [] = nth (S t) p [])
                  /\ ((0 < horizon c)%nat ->
                      nth (horizon c - 1) m [] = vzeros (action_dim c)))
                  prev mean0)
       /\ broadcast_rows (length (_prev_mean ag)) (map ps_mean sts)
          = Some (_prev_mean ag')
       /\ (length obs = length (_prev_mean ag) ->
           _prev_mean ag' = map ps_mean sts))
  /\ (plan_ready wm ml ag obs task ->
      exists a ag',
        _plan wm ml tc ag obs t0 eval_mode task = Some (a, ag')
        /\ plan_ready wm ml ag' obs task).
Proof.
  intro c. split.
  - intros a ag' H.
    destruct (plan_inv _ _ _ _ _ _ _ _ _ _ H)
      as [mean0 [sts [a0 [Hm0 [Hsts [_ [_ [Hprev _]]]]]]]].
    exists mean0, sts.
    split; [exact Hm0 |]. split; [exact Hsts |].
    split.
    { pose proof (plan_iterations_pos _ _ _ _ _ _ _ _ _ _ H) as Hit.
      destruct (warm_start_shape _ _ _ _ Hm0) as [_ Fm].
      eapply Forall2_impl_in; [| exact (traverse_Forall2 _ _ _ Hsts)].
      intros [e [o m]] st Hin _ Href. cbn [fst snd] in Href |- *.
      assert (Lm : length m = horizon c).
      { rewrite Forall_forall in Fm. apply Fm.
        apply in_indexed in Hin. cbn [snd] in Hin.
        apply (in_combine_r _ _ _ _ Hin). }
      destruct (plan_refine_inv _ _ _ _ _ _ _ _ _ Href)
        as [_ [actions [Hi Hl]]].
      fold c in Hl, Hit.
      destruct (iterations c) as [| n] eqn:En; [lia |].
      cbn [mppi_loop] in Hl. inv_bind Hl st1 H1.
      assert (Hs : plan_shape (cfg ag)
                     (mkPlanState m
                        (repeat (repeat (max_std c) (action_dim c))
                           (horizon c)) actions None)).
      { unfold plan_shape. cbn [ps_mean ps_std ps_actions].
        rewrite repeat_length. split; [exact Lm | split; [reflexivity |]].
        apply (init_actions_shape _ _ _ _ _ _ Hi). }
      destruct (iteration_samples _ _ _ _ _ _ _ _ _ _ H1 Hs
                  (proj1 (init_actions_holds _ _ _ _ _ _ _ _ Hi)))
        as [mask [Hmask Hsam]].
      exists actions, mask, st1.
      split; [exact Hi |]. split; [exact Hmask |]. split; [exact H1 |].
      split; [replace (S n - 1)%nat with n by lia; exact Hl |].
      intros t s Ht Hs'.
      etransitivity; [exact (Hsam t s Ht Hs') |].
      cbn [ps_mean ps_std].
      rewrite (nth_repeat_lt _ _ _ _ Ht). reflexivity. }
    pose proof Hm0 as Hw. unfold warm_start in Hw. inv_bind Hw prev Hp.
    apply traverse_Forall2 in Hw.
    split; [| split; [| split]].
    + intros ->. eapply Forall2_Forall_r; [| exact Hw].
      intros p m E. cbn in E. injection E as <-. reflexivity.
    + intros ->. exists prev. split; [exact Hp |].
      eapply Forall2_impl; [| exact Hw].
      intros p m E. apply init_mean_shift. exact E.
    + exact Hprev.
    + intro Hlen.
      pose proof (Forall2_length_eq _ _ _ (traverse_Forall2 _ _ _ Hsts)) as L.
      rewrite indexed_length in L.
      assert (Lm : length mean0 = length obs).
      { rewrite <- (Forall2_length_eq _ _ _ Hw).
        destruct t0.
        - injection Hp as <-. apply repeat_length.
        - apply (broadcast_rows_length _ _ _ Hp). }
      rewrite length_combine, Lm, Nat.min_id in L.
      rewrite broadcast_rows_same in Hprev by (rewrite length_map; lia).
      congruence.
  - intro Hr.
    destruct (plan_returns wm ml tc ag obs t0 eval_mode task Hr)
      as [a [ag' [E _]]].
    exists a, ag'. split; [exact E |].
    apply (plan_preserves_ready _ _ _ _ _ _ _ _ _ _ Hr E).
Qed.

Lemma plan_ready_example :
  plan_ready wm_identity ml_example (agent_of cfg_default) [0] None.
Proof.
  constructor.
  - cbn. lia.
  - cbn. lia.
  - cbn. lia.
  - cbn. lia.
  - cbn. lia.
  - reflexivity.
  - repeat constructor.
  - eexists. reflexivity.
  - eexists. reflexivity.
  - intros k score H. exact H.
Defined.

Lemma plan_ready_warm :
  plan_ready wm_identity ml_example agent_warm [0] None.
Proof.
  constructor.
  - cbn. lia.
  - cbn. lia.
  - cbn. lia.
  - cbn. lia.
  - cbn. lia.
  - reflexivity.
  - repeat constructor.
  - eexists. reflexivity.
  - eexists. reflexivity.
  - intros k score H. exact H.
Defined.

Lemma plan_warm_start_witness :
  exists a ag' mean0 sts,
    _plan wm_identity ml_example tc_example agent_warm [0] false true None
      = Some (a, ag')
    /\ warm_start agent_warm 1 false = Some mean0
    /\ mean0 = [[[1 # 4]; [1 # 8]; [0]]]
    /\ Forall2
         (fun p st =>
            exists st1,
              mppi_loop wm_identity ml_example tc_example agent_warm None
                (fst p) (encode wm_identity (fst (snd p)) None) 0 1 st1
              = Some st
              /\ forall t s, (t < 3)%nat -> (s < 6)%nat ->
                   nth (2 + s) (nth t (ps_actions st1) []) []
                   = vclamp (-1) 1
                       (vadd (nth t (snd (snd p)) [])
                          (vmul [2]
                             (randn_vec tc_example [0; fst p; 0; t; s]%nat
                                1))))
         (indexed (combine [0] mean0)) sts
    /\ _prev_mean ag' = map ps_mean sts.
Proof.
  destruct (plan_warm_start wm_identity ml_example tc_example agent_warm
              [0] false true None) as [R T].
  destruct (T plan_ready_warm) as [a [ag' [E _]]].
  destruct (R a ag' E) as [mean0 [sts [Hm [_ [HF [_ [_ [_ H]]]]]]]].
  exists a, ag', mean0, sts.
  split; [exact E |]. split; [exact Hm |].
  split; [cbn in Hm; injection Hm as <-; reflexivity |].
  split; [| apply H; reflexivity].
  eapply Forall2_impl; [| exact HF].
  intros p st [actions [mask [st1 [_ [Hmask [_ [Hl Hs]]]]]]].
  cbn in Hmask. injection Hmask as <-.
  exists st1. split; [exact Hl | exact Hs].
Defined.

(** ** The returned action *)

(** C5. Every component of every action returned by [_plan] lies in
    [-1, 1], with or without exploration noise; and under the planner's
    preconditions [_plan] does return, one action per observation. *)
Theorem plan_action_range (wm : WorldModel) (ml : CommonMath) (tc : Torch)
  (ag : Agent) (obs : list (observation wm)) (t0 eval_mode : bool)
  (task : option nat) :
  (forall a ag', _plan wm ml tc ag obs t0 eval_mode task = Some (a, ag') ->
     forall v x, In v a -> In x v -> -1 <= x /\ x <= 1)
  /\ (plan_ready wm ml ag obs task ->
      exists a ag', _plan wm ml tc ag obs t0 eval_mode task = Some (a, ag')
        /\ length a = length obs).
Proof.
  split.
  - intros a ag' H v x Hv Hx.
    destruct (plan_inv _ _ _ _ _ _ _ _ _ _ H)
      as [_ [_ [a0 [_ [_ [_ [_ [_ [-> _]]]]]]]]].
    apply in_map_iff in Hv. destruct Hv as [u [<- _]].
    assert (HB : Forall (fun y => -1 <= y /\ y <= 1) (vclamp (-1) 1 u)).
    { apply vclamp_bounds. lra. }
    rewrite Forall_forall in HB. apply HB. exact Hx.
  - apply plan_returns.
Qed.

Lemma plan_action_range_witness :
  exists a ag',
    _plan wm_identity ml_example tc_example (agent_of cfg_default) [0]
      false false None = Some (a, ag')
    /\ length a = 1%nat
    /\ forall v x, In v a -> In x v -> -1 <= x /\ x <= 1.
Proof.
  destruct (plan_action_range wm_identity ml_example tc_example
              (agent_of cfg_default) [0] false false None) as [R T].
  destruct (T plan_ready_example) as [a [ag' [E L]]].
  exists a, ag'. split; [exact E | split; [exact L | exact (R a ag' E)]].
Defined.

(** ** TD target *)

(** C6. [_td_target] returns [reward + discount * Q(next_z, pi(next_z))]
    with the world model's Q called in ["min"] mode on the target network;
    with a zero discount the target equals the reward, whatever the
    bootstrap term. *)
Theorem td_target_formula (wm : WorldModel) (ag : Agent) (k : key)
  (next_z : latent wm) (rew : Q) (task : option nat) (d : Q) :
  discount_update ag task = Some d ->
  _td_target wm ag k next_z rew task =
    Some (rew + d * model_Q wm next_z (pi_sample (pi wm k next_z task))
                      task RetMin true)
  /\ (d == 0 ->
      exists v, _td_target wm ag k next_z rew task = Some v /\ v == rew).
Proof.
  intro Hd. unfold _td_target. rewrite Hd. cbn [bind].
  split; [reflexivity |].
  intro H0. eexists. split; [reflexivity |]. rewrite H0. ring.
Qed.

Lemma td_target_formula_witness :
  exists v,
    _td_target wm_identity agent_myopic [] 7 3 None = Some v /\ v == 3.
Proof.
  destruct (td_target_formula wm_identity agent_myopic [] 7 3 None 0 eq_refl)
    as [_ H].
  apply H. reflexivity.
Defined.

(** ** Discount scheduler *)

(** C7. With no hardcoded override (and a nonzero [discount_denom]),
    [_get_discount] returns [clamp((frac - 1) / frac, discount_min,
    discount_max)] with [frac = episode_length / discount_denom] for every
    nonzero episode length; for [episode_length == discount_denom] this is
    [clamp(0, discount_min, discount_max)]; and as the episode length grows
    the result comes arbitrarily close to
    [clamp(1, discount_min, discount_max)]. *)
Theorem get_discount_heuristic (c : Cfg) :
  discount_hardcoded c == 0 ->
  ~ discount_denom c == 0 ->
  (forall L : Z, L <> 0%Z ->
     exists d, _get_discount c L = Some d /\
       let frac := inject_Z L / discount_denom c in
       d == clamp ((frac - 1) / frac) (discount_min c) (discount_max c))
  /\ (forall L : Z, inject_Z L == discount_denom c ->
        exists d, _get_discount c L = Some d /\
          d == clamp 0 (discount_min c) (discount_max c))
  /\ (forall eps : Q, 0 < eps ->
        exists N : Z, forall L : Z, (N <= L)%Z ->
          exists d, _get_discount c L = Some d /\
            Qabs (d - clamp 1 (discount_min c) (discount_max c)) < eps).
Proof.
  intros Hh Hd.
  assert (Gen : forall L : Z, L <> 0%Z ->
     exists d, _get_discount c L = Some d /\
       d == clamp ((inject_Z L / discount_denom c - 1)
                   / (inject_Z L / discount_denom c))
              (discount_min c) (discount_max c)).
  { intros L HL. eexists. split.
    - apply get_discount_no_override; assumption.
    - apply py_min_max_clamp. }
  split; [exact Gen | split].
  - intros L HL.
    assert (HL0 : L <> 0%Z).
    { intro E. subst L. apply Hd. rewrite <- HL. reflexivity. }
    destruct (Gen L HL0) as [d [E1 E2]]. exists d. split; [exact E1 |].
    rewrite E2. apply clamp_Proper; try reflexivity.
    rewrite HL. field. exact Hd.
  - intros eps He.
    destruct (heuristic_limit (discount_denom c) eps Hd He) as [N [HN HB]].
    exists N. intros L HL.
    assert (HL0 : L <> 0%Z) by lia.
    destruct (Gen L HL0) as [d [E1 E2]]. exists d. split; [exact E1 |].
    rewrite E2. eapply Qle_lt_trans; [apply clamp_lipschitz |].
    apply HB. exact HL.
Qed.

Lemma get_discount_heuristic_witness :
  exists d, _get_discount cfg_default 5 = Some d /\
    d == clamp 0 (95 # 100) (995 # 1000).
Proof.
  assert (Hh : discount_hardcoded cfg_default == 0) by reflexivity.
  assert (Hd : ~ discount_denom cfg_default == 0) by (vm_compute; discriminate).
  destruct (get_discount_heuristic cfg_default Hh Hd) as [_ [H _]].
  apply (H 5%Z). reflexivity.
Defined.

(** An override outside the bounds is returned as it is. *)
Lemma get_discount_override_out_of_bounds :
  _get_discount cfg_override 500 = Some 2 /\
  ~ (2 <= discount_max cfg_override).
Proof.
  split; [reflexivity |]. vm_compute. intro H. apply H. reflexivity.
Qed.

(** C8 (amended). A configured override is returned unchanged, whatever the
    bounds.  With no override, [discount_min <= discount_max] and nonzero
    [discount_denom] and episode length, [_get_discount] returns a discount
    within [discount_min, discount_max]. *)
Theorem get_discount_bounds (c : Cfg) (L : Z) :
  (~ discount_hardcoded c == 0 ->
     _get_discount c L = Some (discount_hardcoded c))
  /\ (discount_hardcoded c == 0 ->
      discount_min c <= discount_max c ->
      ~ discount_denom c == 0 ->
      L <> 0%Z ->
      exists d, _get_discount c L = Some d /\
        discount_min c <= d /\ d <= discount_max c).
Proof.
  split.
  - intro H. unfold _get_discount.
    destruct (Qeq_bool (discount_hardcoded c) 0) eqn:E; [| reflexivity].
    apply Qeq_bool_iff in E. contradiction.
  - intros Hh Hm Hd HL. eexists. split.
    + apply get_discount_no_override; assumption.
    + rewrite py_min_max_clamp. apply clamp_bounds. exact Hm.
Qed.

Lemma get_discount_bounds_witness :
  _get_discount cfg_override 500 = Some 2
  /\ exists d, _get_discount cfg_default 500 = Some d /\
       (95 # 100) <= d /\ d <= (995 # 1000).
Proof.
  split.
  - apply (proj1 (get_discount_bounds cfg_override 500)).
    vm_compute. discriminate.
  - apply (proj2 (get_discount_bounds cfg_default 500)).
    + reflexivity.
    + vm_compute. discriminate.
    + vm_compute. discriminate.
    + discriminate.
Defined.

(** ** Refinement loop: the mean *)


Lemma tc_example_exp_pos (x : Q) : 0 < torch_exp tc_example x.
Proof.
  cbn [torch_exp tc_example]. destruct (Qle_bool x 0) eqn:E.
  - apply Qle_bool_iff in E. apply Qlt_shift_div_l; lra.
  - destruct (Qlt_le_dec 0 x) as [H | H]; [lra |].
    apply Qle_bool_iff in H. congruence.
Defined.


(** ** Acting *)

(** C10. With planning disabled ([mpc = False]) [act] returns only the
    first entry of the policy's batched output, a single action, whatever
    the batch size; with [mpc = True] it returns the planner's output, one
    action per batch entry. *)
Theorem act_batch_shape (wm : WorldModel) (ml : CommonMath) (tc : Torch)
  (ag : Agent) (obs : list (observation wm)) (t0 eval_mode : bool)
  (task : option nat) :
  (mpc (cfg ag) = false ->
     forall o rest, obs = o :: rest ->
       act wm ml tc ag obs t0 eval_mode task =
         Some (Action ((if eval_mode then pi_mu else pi_sample)
                         (pi wm [2; 0]%nat (encode wm o task) task)), ag))
  /\ (mpc (cfg ag) = true ->
      (forall out ag',
          act wm ml tc ag obs t0 eval_mode task = Some (out, ag') ->
          exists a, out = Actions a /\ length a = length obs)
      /\ (plan_ready wm ml ag obs task ->
          exists a ag',
            act wm ml tc ag obs t0 eval_mode task = Some (Actions a, ag')
            /\ length a = length obs)).
Proof.
  split.
  - intros Hm o rest ->. unfold act. rewrite Hm.
    destruct eval_mode; reflexivity.
  - intro Hm. unfold act, plan. rewrite Hm. split.
    + intros out ag' H. inv_bind H p Hp. destruct p as [a ag1].
      injection H as <- <-. exists a. split; [reflexivity |].
      apply (plan_length _ _ _ _ _ _ _ _ _ _ Hp).
    + intro Hr.
      destruct (plan_returns wm ml tc ag obs t0 eval_mode task Hr)
        as [a [ag' [E L]]].
      exists a, ag'. rewrite E. split; [reflexivity | exact L].
Qed.

Lemma act_batch_shape_witness :
  act wm_identity ml_example tc_example (agent_of cfg_policy) [0; 1; 2]
    false false None = Some (Action [1], agent_of cfg_policy)
  /\ exists a ag',
       act wm_identity ml_example tc_example (agent_of cfg_default) [0]
         false false None = Some (Actions a, ag')
       /\ length a = 1%nat.
Proof.
  split.
  - apply (proj1 (act_batch_shape wm_identity ml_example tc_example
                    (agent_of cfg_policy) [0; 1; 2] false false None)
             eq_refl 0 [1; 2] eq_refl).
  - apply (proj2 (proj2 (act_batch_shape wm_identity ml_example tc_example
                           (agent_of cfg_default) [0] false false None)
                    eq_refl) plan_ready_example).
Defined.

(** * Further properties of the code *)

(** ** Discount scheduler *)

(** X1. [_get_discount] raises (on the division by zero) exactly when no
    override is configured and the denominator or the episode length is
    zero; with an override it returns for every episode length. *)
Theorem get_discount_raises (c : Cfg) (L : Z) :
  (_get_discount c L = None <->
   discount_hardcoded c == 0 /\ (discount_denom c == 0 \/ L = 0%Z))
  /\ (~ discount_hardcoded c == 0 ->
      _get_discount c L = Some (discount_hardcoded c)).
Proof.
  split; [apply get_discount_none_iff |].
  intro H. unfold _get_discount.
  destruct (Qeq_bool (discount_hardcoded c) 0) eqn:E; [| reflexivity].
  apply Qeq_bool_iff in E. contradiction.
Qed.

Lemma get_discount_raises_witness :
  _get_discount cfg_default 0 = None
  /\ discount_hardcoded cfg_default == 0.
Proof.
  split.
  - apply (proj2 (proj1 (get_discount_raises cfg_default 0))).
    split; [reflexivity | right; reflexivity].
  - apply (proj1 (proj1 (get_discount_raises cfg_default 0)) eq_refl).
Defined.

(** X2. With no override and a positive denominator, a longer episode never
    gets a smaller discount. *)
Theorem get_discount_monotone (c : Cfg) (L1 L2 : Z) :
  discount_hardcoded c == 0 ->
  0 < discount_denom c ->
  (0 < L1 <= L2)%Z ->
  exists d1 d2,
    _get_discount c L1 = Some d1 /\ _get_discount c L2 = Some d2 /\
    d1 <= d2.
Proof.
  intros Hh Hd [H1 H12].
  assert (Hd' : ~ discount_denom c == 0) by lra.
  assert (H2 : (0 < L2)%Z) by lia.
  eexists. eexists.
  split; [apply get_discount_no_override; [exact Hh | exact Hd' | lia] |].
  split; [apply get_discount_no_override; [exact Hh | exact Hd' | lia] |].
  rewrite !py_min_max_clamp. apply clamp_monotone.
  rewrite !heuristic_value by assumption.
  pose proof (inject_Z_pos L1 H1) as P1.
  pose proof (inject_Z_pos L2 H2) as P2.
  assert (P12 : inject_Z L1 <= inject_Z L2) by (rewrite <- Zle_Qle; exact H12).
  assert (Hdiv : discount_denom c / inject_Z L2
                 <= discount_denom c / inject_Z L1).
  { apply Qle_shift_div_l; [exact P1 |].
    assert (E : discount_denom c / inject_Z L2 * inject_Z L1
                == discount_denom c * (inject_Z L1 / inject_Z L2))
      by (field; lra).
    rewrite E.
    assert (Hr : inject_Z L1 / inject_Z L2 <= 1).
    { apply Qle_shift_div_r; [exact P2 | lra]. }
    rewrite <- (Qmult_1_r (discount_denom c)) at 2.
    rewrite (Qmult_comm (discount_denom c) (inject_Z L1 / inject_Z L2)).
    rewrite (Qmult_comm (discount_denom c) 1).
    apply Qmult_le_compat_r; lra. }
  lra.
Qed.

Lemma get_discount_monotone_witness :
  exists d1 d2,
    _get_discount cfg_default 200 = Some d1
    /\ _get_discount cfg_default 500 = Some d2 /\ d1 <= d2.
Proof.
  apply (get_discount_monotone cfg_default 200 500).
  - reflexivity.
  - reflexivity.
  - lia.
Defined.

(** X3. With no override, [discount_min <= discount_max] and a positive
    denominator: an episode with [L * (1 - discount_min) <= denom] gets
    [discount_min], one with [denom <= L * (1 - discount_max)] gets
    [discount_max], and in between the discount is [1 - denom / L]. *)
Theorem get_discount_saturation (c : Cfg) (L : Z) :
  discount_hardcoded c == 0 ->
  0 < discount_denom c ->
  discount_min c <= discount_max c ->
  (0 < L)%Z ->
  exists d, _get_discount c L = Some d
    /\ (inject_Z L * (1 - discount_min c) <= discount_denom c ->
        d == discount_min c)
    /\ (discount_denom c <= inject_Z L * (1 - discount_max c) ->
        d == discount_max c)
    /\ (discount_denom c <= inject_Z L * (1 - discount_min c) ->
        inject_Z L * (1 - discount_max c) <= discount_denom c ->
        d == 1 - discount_denom c / inject_Z L).
Proof.
  intros Hh Hd Hm HL.
  assert (Hd' : ~ discount_denom c == 0) by lra.
  pose proof (inject_Z_pos L HL) as P.
  eexists. split; [apply get_discount_no_override; [exact Hh | exact Hd' | lia] |].
  rewrite py_min_max_clamp, heuristic_value by assumption.
  set (q := discount_denom c / inject_Z L).
  assert (Hq : q * inject_Z L == discount_denom c) by (unfold q; field; lra).
  unfold clamp.
  assert (Hcancel : forall a b, a * inject_Z L <= b * inject_Z L -> a <= b).
  { intros a b Hab. apply (Qmult_le_r _ _ (inject_Z L)); assumption. }
  split; [| split].
  - intro H. assert (Hx : 1 - q <= discount_min c).
    { assert (Hc : 1 - discount_min c <= q).
      { apply Hcancel. rewrite Hq, Qmult_comm. exact H. }
      lra. }
    rewrite Q.max_r by exact Hx. rewrite Q.min_l by exact Hm. reflexivity.
  - intro H. assert (Hx : discount_max c <= 1 - q).
    { assert (Hc : q <= 1 - discount_max c).
      { apply Hcancel. rewrite Hq, Qmult_comm. exact H. }
      lra. }
    rewrite Q.max_l by lra. rewrite Q.min_r by exact Hx. reflexivity.
  - intros Hlo Hhi.
    assert (Hx1 : discount_min c <= 1 - q).
    { assert (Hc : q <= 1 - discount_min c).
      { apply Hcancel. rewrite Hq, Qmult_comm. exact Hlo. }
      lra. }
    assert (Hx2 : 1 - q <= discount_max c).
    { assert (Hc : 1 - discount_max c <= q).
      { apply Hcancel. rewrite Hq, Qmult_comm. exact Hhi. }
      lra. }
    rewrite Q.max_l by exact Hx1. rewrite Q.min_l by exact Hx2. reflexivity.
Qed.

Lemma get_discount_saturation_witness :
  exists d, _get_discount cfg_default 100 = Some d /\ d == 95 # 100.
Proof.
  destruct (get_discount_saturation cfg_default 100)
    as [d [E [H _]]].
  - reflexivity.
  - reflexivity.
  - vm_compute. discriminate.
  - lia.
  - exists d. split; [exact E |]. apply H. vm_compute. discriminate.
Defined.

(** X4. With no override the discount never exceeds [discount_max], whatever
    [discount_min] is, and is strictly below 1 when [discount_min] is. *)
Theorem get_discount_upper (c : Cfg) (L : Z) (d : Q) :
  discount_hardcoded c == 0 ->
  _get_discount c L = Some d ->
  d <= discount_max c
  /\ (0 < discount_denom c -> (0 < L)%Z -> discount_min c < 1 -> d < 1).
Proof.
  intros Hh H.
  assert (Hn : _get_discount c L <> None) by congruence.
  assert (Hd : ~ discount_denom c == 0).
  { intro E. apply Hn. apply get_discount_none_iff. auto. }
  assert (HL : L <> 0%Z).
  { intro E. apply Hn. apply get_discount_none_iff. auto. }
  rewrite get_discount_no_override in H by assumption.
  injection H as <-. rewrite py_min_max_clamp. unfold clamp. split.
  - apply Q.le_min_r.
  - intros Hpos HLpos Hmin.
    rewrite heuristic_value by assumption.
    pose proof (inject_Z_pos L HLpos) as P.
    assert (Hq : 0 < discount_denom c / inject_Z L).
    { apply Qlt_shift_div_l; [exact P | lra]. }
    eapply Qle_lt_trans; [apply Q.le_min_l |].
    destruct (Q.max_spec (1 - discount_denom c / inject_Z L)
                (discount_min c)) as [[_ E] | [_ E]]; rewrite E; lra.
Qed.

Lemma get_discount_upper_witness :
  exists d, _get_discount cfg_default 500 = Some d
    /\ d <= 995 # 1000 /\ d < 1.
Proof.
  destruct (_get_discount cfg_default 500) as [d |] eqn:E.
  - destruct (get_discount_upper cfg_default 500 d eq_refl E) as [H1 H2].
    exists d. split; [reflexivity | split; [exact H1 |]].
    apply H2; [reflexivity | lia | reflexivity].
  - vm_compute in E. discriminate E.
Defined.

(** ** Construction *)

(** X5. In multi-task mode the agent built by [__init__] holds one discount
    per entry of [episode_lengths]: task [k] uses
    [_get_discount(episode_lengths[k])]; a task index past the list, or no
    task at all, has no discount. *)
Theorem init_task_discounts (c : Cfg) (ag : Agent) :
  __init__ c = Some ag ->
  multitask c = true ->
  (forall k L, nth_error (episode_lengths c) k = Some L ->
     exists d, _get_discount c L = Some d
       /\ discount_update ag (Some k) = Some d)
  /\ (forall k, (length (episode_lengths c) <= k)%nat ->
        discount_update ag (Some k) = None)
  /\ discount_update ag None = None.
Proof.
  intros H Hm. pose proof (init_cfg c ag H) as Hc.
  destruct Hc as [_ [_ [_ [_ [_ [_ [Hmt _]]]]]]].
  pose proof (init_inv c ag H) as Hd. rewrite Hm in Hd.
  destruct (traverse (_get_discount c) (episode_lengths c)) as [ds |] eqn:E;
    [| discriminate].
  cbn in Hd. injection Hd as Hd.
  apply traverse_Forall2 in E.
  unfold discount_update. rewrite Hmt, Hm, <- Hd.
  split; [| split].
  - intros k L HL.
    destruct (Forall2_nth_error _ _ _ E k L HL) as [dk [Hk Hg]].
    exists dk. split; [exact Hg | exact Hk].
  - intros k Hk. apply nth_error_None.
    rewrite <- (Forall2_length_eq _ _ _ E). exact Hk.
  - reflexivity.
Qed.

Lemma init_task_discounts_witness :
  exists d, _get_discount cfg_multitask 1000 = Some d
    /\ discount_update (agent_of cfg_multitask) (Some 1%nat) = Some d.
Proof.
  destruct (init_task_discounts cfg_multitask (agent_of cfg_multitask)
              eq_refl eq_refl) as [H _].
  apply (H 1%nat 1000%Z). reflexivity.
Defined.

(** X6. A single-task configuration whose discount is defined and whose
    planner settings are consistent yields an agent on which [_plan] runs:
    for a batch of [num_envs] observations it returns [num_envs]
    actions. *)
Theorem init_then_plan (wm : WorldModel) (ml : CommonMath) (tc : Torch)
  (c : Cfg) (d : Q) (obs : list (observation wm)) (t0 eval_mode : bool)
  (task : option nat) :
  multitask c = false ->
  _get_discount c (episode_length c) = Some d ->
  (0 < iterations c \/ 20 <= action_dim c)%nat ->
  (0 < horizon c)%nat ->
  (0 < num_elites c <= num_samples c)%nat ->
  (num_pi_trajs c <= num_samples c)%nat ->
  (0 < num_envs c)%nat ->
  length obs = num_envs c ->
  (forall k score, (0 < length score)%nat ->
     (gumbel_softmax_sample ml k score < length score)%nat) ->
  exists ag a ag',
    __init__ c = Some ag
    /\ discount ag = ScalarDiscount d
    /\ _plan wm ml tc ag obs t0 eval_mode task = Some (a, ag')
    /\ length a = num_envs c.
Proof.
  intros Hm Hd Hit HH Hk Hpi Hn Hobs Hg.
  destruct (__init__ c) as [ag |] eqn:E.
  2:{ unfold __init__ in E. cbn [multitask] in E. rewrite Hm in E.
      change (_get_discount _ _) with (_get_discount c (episode_length c))
        in E.
      rewrite Hd in E. discriminate E. }
  destruct (init_cfg c ag E)
    as [Ci [Ch [Cs [Cp [Ce [Ca [Cm Cg]]]]]]].
  destruct (init_buffer_shape c ag E) as [Bl Bs].
  assert (Hdisc : discount ag = ScalarDiscount d).
  { pose proof (init_inv c ag E) as Hi. rewrite Hm, Hd in Hi.
    cbn in Hi. congruence. }
  assert (Hr : plan_ready wm ml ag obs task).
  { constructor.
    - rewrite Ci. destruct Hit as [Hit | Hit]; [lia |].
      apply Nat.leb_le in Hit. rewrite Hit. lia.
    - lia.
    - lia.
    - lia.
    - lia.
    - lia.
    - exact Bs.
    - exists d. unfold discount_update. rewrite Cm, Hm, Hdisc. reflexivity.
    - eexists. unfold masking. rewrite Cm, Hm. reflexivity.
    - exact Hg. }
  destruct (plan_returns wm ml tc ag obs t0 eval_mode task Hr)
    as [a [ag' [Ep La]]].
  exists ag, a, ag'.
  split; [reflexivity | split; [exact Hdisc | split; [exact Ep | lia]]].
Qed.

Lemma init_then_plan_witness :
  exists ag a ag',
    __init__ cfg_default = Some ag
    /\ discount ag = ScalarDiscount (2475 # 2500)
    /\ _plan wm_identity ml_example tc_example ag [0] false false None
       = Some (a, ag')
    /\ length a = 1%nat.
Proof.
  apply (init_then_plan wm_identity ml_example tc_example cfg_default
           (2475 # 2500) [0] false false None).
  - reflexivity.
  - reflexivity.
  - left. cbn. lia.
  - cbn. lia.
  - cbn. lia.
  - cbn. lia.
  - cbn. lia.
  - reflexivity.
  - intros k score H. exact H.
Defined.

(** X7. On a freshly constructed agent the warm-start buffer is zero, so the
    first call of [_plan] on a batch of [num_envs] observations gives the
    same result whether or not [t0] is set. *)
Theorem fresh_agent_t0_irrelevant (wm : WorldModel) (ml : CommonMath)
  (tc : Torch) (c : Cfg) (ag : Agent) (obs : list (observation wm))
  (eval_mode : bool) (task : option nat) :
  __init__ c = Some ag ->
  length obs = num_envs c ->
  _plan wm ml tc ag obs false eval_mode task
  = _plan wm ml tc ag obs true eval_mode task.
Proof.
  intros H Hobs.
  assert (Hw : warm_start ag (length obs) false
               = warm_start ag (length obs) true).
  { unfold warm_start. rewrite (init_buffer_zero c ag H).
    rewrite broadcast_rows_same by (rewrite repeat_length; lia).
    cbn [bind]. rewrite Hobs.
    rewrite (traverse_repeat _ _ _ _ (init_mean_zero_buffer _)).
    rewrite (traverse_repeat (init_mean _ true) []
               (repeat (vzeros (action_dim (cfg ag))) (horizon (cfg ag))));
      reflexivity. }
  unfold _plan, plan_states. rewrite Hw. reflexivity.
Qed.

Lemma fresh_agent_t0_irrelevant_witness :
  _plan wm_identity ml_example tc_example (agent_of cfg_default) [0]
    false true None
  = _plan wm_identity ml_example tc_example (agent_of cfg_default) [0]
      true true None.
Proof.
  apply (fresh_agent_t0_irrelevant wm_identity ml_example tc_example
           cfg_default (agent_of cfg_default) [0] true None);
    reflexivity.
Defined.

(** ** Value estimator *)

(** X8. [_estimate_value] raises exactly when the horizon is positive and
    either the action sequence is shorter than the horizon or the task has
    no discount; actions past the horizon are never read. *)
Theorem estimate_value_horizon (wm : WorldModel) (ml : CommonMath)
  (ag : Agent) (k : key) (z : latent wm) (actions : list vec)
  (task : option nat) :
  (_estimate_value wm ml ag k z actions task = None <->
   (0 < horizon (cfg ag))%nat
   /\ ((length actions < horizon (cfg ag))%nat
       \/ discount_update ag task = None))
  /\ _estimate_value wm ml ag k z actions task
     = _estimate_value wm ml ag k z (firstn (horizon (cfg ag)) actions) task.
Proof.
  split.
  - split.
    + intro H.
      destruct (Nat.eq_dec (horizon (cfg ag)) 0) as [H0 | H0].
      { unfold _estimate_value in H. rewrite H0 in H. discriminate H. }
      split; [lia |].
      destruct (discount_update ag task) as [d |] eqn:Hd; [| right; reflexivity].
      left. destruct (Nat.lt_ge_cases (length actions) (horizon (cfg ag)))
        as [Hlt | Hge]; [exact Hlt |].
      exfalso.
      destruct (value_rollout_spec wm ml ag task actions z d Hd
                  (horizon (cfg ag)) 0 0 1) as [G [disc [E _]]]; [lia |].
      unfold _estimate_value in H.
      change (latent_at wm task z actions 0) with z in E.
      rewrite E in H. discriminate H.
    + intros [HH [Hlen | Hd]]; unfold _estimate_value.
      * rewrite value_rollout_short; [reflexivity |].
        exists (length actions). split; [| lia].
        apply in_seq. lia.
      * destruct (horizon (cfg ag)) as [| h]; [lia |].
        cbn [seq value_rollout].
        destruct (nth_error actions 0); [| reflexivity]. cbn [bind].
        rewrite Hd. reflexivity.
  - unfold _estimate_value.
    rewrite (value_rollout_ext wm ml ag task actions
               (firstn (horizon (cfg ag)) actions)); [reflexivity |].
    intros t Ht. apply in_seq in Ht. rewrite nth_error_firstn.
    assert (E : (t <? horizon (cfg ag))%nat = true) by (apply Nat.ltb_lt; lia).
    rewrite E. reflexivity.
Qed.

Lemma estimate_value_horizon_witness :
  _estimate_value wm_identity ml_example (agent_of cfg_default) [] 7
    [[1]; [1]] None = None
  /\ _estimate_value wm_identity ml_example (agent_of cfg_default) [] 7
       [[1]; [1]; [1]; [1 # 2]] None
     = _estimate_value wm_identity ml_example (agent_of cfg_default) [] 7
         [[1]; [1]; [1]] None.
Proof.
  destruct (estimate_value_horizon wm_identity ml_example
              (agent_of cfg_default) [] 7 [[1]; [1]] None) as [[_ H] _].
  split.
  - apply H. split; [cbn; lia | left; cbn; lia].
  - apply (proj2 (estimate_value_horizon wm_identity ml_example
                    (agent_of cfg_default) [] 7
                    [[1]; [1]; [1]; [1 # 2]] None)).
Defined.

(** X9. With a discount in [0, 1], decoded rewards within [-R, R] and
    average-mode Q values within [-V, V], the value estimate lies within
    [horizon * R + V] of zero. *)
Theorem estimate_value_bounded (wm : WorldModel) (ml : CommonMath)
  (ag : Agent) (k : key) (z : latent wm) (actions : list vec)
  (task : option nat) (d R V : Q) :
  (horizon (cfg ag) <= length actions)%nat ->
  discount_update ag task = Some d ->
  0 <= d -> d <= 1 ->
  (forall (x : latent wm) (a : vec),
      - R <= two_hot_inv ml (reward wm x a task) (cfg ag)
      /\ two_hot_inv ml (reward wm x a task) (cfg ag) <= R) ->
  (forall (x : latent wm) (a : vec),
      - V <= model_Q wm x a task RetAvg false
      /\ model_Q wm x a task RetAvg false <= V) ->
  exists g, _estimate_value wm ml ag k z actions task = Some g
    /\ - (inject_Z (Z.of_nat (horizon (cfg ag))) * R + V) <= g
    /\ g <= inject_Z (Z.of_nat (horizon (cfg ag))) * R + V.
Proof.
  intros Hlen Hd Hd0 Hd1 HR HV.
  destruct (value_rollout_spec wm ml ag task actions z d Hd
              (horizon (cfg ag)) 0 0 1) as [G [disc [E [HG Hdisc]]]];
    [lia |].
  unfold _estimate_value. change (latent_at wm task z actions 0) with z in E.
  rewrite E. cbn [bind]. eexists. split; [reflexivity |].
  set (rs := map (fun j => Qpow d j
                  * reward_at wm ml ag task z actions (0 + j))
               (seq 0 (horizon (cfg ag)))) in HG.
  assert (Hrs : Forall (fun x => - R <= x /\ x <= R) rs).
  { unfold rs. apply Forall_map, Forall_forall. intros j _.
    destruct (Qpow_unit d j Hd0 Hd1) as [P0 P1].
    apply scaled_bound; try assumption; apply HR. }
  destruct (Qsum_bound R rs Hrs) as [S1 S2].
  assert (Lrs : length rs = horizon (cfg ag))
    by (unfold rs; rewrite length_map, length_seq; reflexivity).
  rewrite Lrs in S1, S2.
  destruct (Qpow_unit d (horizon (cfg ag)) Hd0 Hd1) as [P0 P1].
  set (b := model_Q wm _ _ task RetAvg false).
  assert (Hb : - V <= Qpow d (horizon (cfg ag)) * b
               /\ Qpow d (horizon (cfg ag)) * b <= V).
  { apply scaled_bound; try assumption; apply HV. }
  rewrite HG, Hdisc. lra.
Qed.

Lemma estimate_value_bounded_witness :
  exists g,
    _estimate_value wm_constant ml_example (agent_of cfg_default) [] 7
      [[1]; [1]; [1]] None = Some g
    /\ - (3 * 1 + 5) <= g /\ g <= 3 * 1 + 5.
Proof.
  apply (estimate_value_bounded wm_constant ml_example (agent_of cfg_default)
           [] 7 [[1]; [1]; [1]] None (2475 # 2500) 1 5).
  - cbn. lia.
  - reflexivity.
  - vm_compute. discriminate.
  - vm_compute. discriminate.
  - intros x a. split; vm_compute; discriminate.
  - intros x a. split; vm_compute; discriminate.
Defined.

(** X10. With a zero discount and a positive horizon the value estimate is the
    decoded reward of the first step alone: later rewards and the
    bootstrap term do not contribute. *)
Theorem estimate_value_myopic (wm : WorldModel) (ml : CommonMath)
  (ag : Agent) (k : key) (z : latent wm) (actions : list vec)
  (task : option nat) (d : Q) :
  discount_update ag task = Some d ->
  d == 0 ->
  (0 < horizon (cfg ag) <= length actions)%nat ->
  exists g, _estimate_value wm ml ag k z actions task = Some g
    /\ g == two_hot_inv ml (reward wm z (nth 0 actions []) task) (cfg ag).
Proof.
  intros Hd H0 [HH Hlen].
  destruct (value_rollout_spec wm ml ag task actions z d Hd
              (horizon (cfg ag)) 0 0 1) as [G [disc [E [HG Hdisc]]]];
    [lia |].
  unfold _estimate_value. change (latent_at wm task z actions 0) with z in E.
  rewrite E. cbn [bind]. eexists. split; [reflexivity |].
  destruct (horizon (cfg ag)) as [| h]; [lia |].
  rewrite HG, Hdisc, (Qpow_zero d h H0).
  cbn [seq map Qsum]. rewrite <- seq_shift, map_map.
  rewrite (Qsum_map_ext _
             (fun j => 0 * reward_at wm ml ag task z actions (0 + S j))).
  - rewrite Qsum_map_scale. unfold reward_at at 1. cbn [Qpow Nat.add].
    change (latent_at wm task z actions 0) with z. ring.
  - intro j. rewrite (Qpow_zero d j H0). reflexivity.
Qed.

Lemma estimate_value_myopic_witness :
  exists g,
    _estimate_value wm_identity ml_example agent_myopic [] 7
      [[1]; [1]; [1]] None = Some g
    /\ g == 1.
Proof.
  destruct (estimate_value_myopic wm_identity ml_example agent_myopic [] 7
              [[1]; [1]; [1]] None 0 eq_refl) as [g [E Hg]].
  - reflexivity.
  - cbn. lia.
  - exists g. split; [exact E |]. rewrite Hg. reflexivity.
Defined.

(** ** Planner: when it returns *)

(** X11. [_plan] returns only for a consistent configuration and a non-empty
    batch: at least one iteration and one timestep,
    [0 < num_elites <= num_samples] and [num_pi_trajs <= num_samples]. *)
Theorem plan_requires (wm : WorldModel) (ml : CommonMath) (tc : Torch)
  (ag : Agent) (obs : list (observation wm)) (t0 eval_mode : bool)
  (task : option nat) (a : list vec) (ag' : Agent) :
  _plan wm ml tc ag obs t0 eval_mode task = Some (a, ag') ->
  (0 < length obs)%nat
  /\ (0 < iterations (cfg ag))%nat
  /\ (0 < horizon (cfg ag))%nat
  /\ (0 < num_elites (cfg ag) <= num_samples (cfg ag))%nat
  /\ (num_pi_trajs (cfg ag) <= num_samples (cfg ag))%nat.
Proof.
  intro H.
  destruct (plan_inv _ _ _ _ _ _ _ _ _ _ H)
    as [mean0 [sts [a0 [Hm0 [Hsts [Ha0 [Hb _]]]]]]].
  split; [exact Hb |].
  destruct (warm_start_shape _ _ _ _ Hm0) as [Lm Fm].
  apply traverse_Forall2 in Hsts. apply traverse_Forall2 in Ha0.
  destruct obs as [| o obs]; [cbn in Hb; lia |].
  destruct mean0 as [| m mean0]; [discriminate |].
  cbn in Hsts. inversion Hsts as [| p st ps sts' Hst _ Ep Es]; subst.
  cbn [fst snd] in Hst.
  cbn in Ha0. inversion Ha0 as [| q v qs vs Hsel _ Eq Ev]; subst.
  cbn [fst snd] in Hsel.
  inversion Fm as [| ? ? Hmlen _]; subst.
  pose proof (plan_refine_shape _ _ _ _ _ _ _ _ _ Hst Hmlen) as Hshape.
  destruct (plan_refine_inv _ _ _ _ _ _ _ _ _ Hst) as [Hpi [actions [_ Hl]]].
  destruct (plan_select_inv _ _ _ _ _ _ _ Hsel)
    as [score [ea [row [x [std0 [He [_ [_ [Hs0 _]]]]]]]]].
  assert (Hit : (0 < iterations (cfg ag))%nat).
  { destruct (iterations (cfg ag)) as [| n]; [| lia].
    cbn in Hl. injection Hl as <-. discriminate He. }
  destruct (mppi_loop_last _ _ _ _ _ _ _ _ _ _ _ Hit Hl) as [j [st1 Hi]].
  destruct (mppi_iteration_inv _ _ _ _ _ _ _ _ _ _ Hi)
    as [mask [value [idxs [sc [_ [Hv [Ht [Hsc _]]]]]]]].
  split; [exact Hit |]. split.
  - destruct Hshape as [_ [Hstd _]].
    destruct (ps_std st) as [| s0 ss]; [discriminate |].
    cbn in Hstd. lia.
  - split; [| exact Hpi].
    unfold topk in Ht.
    destruct (num_elites (cfg ag) <=? length value)%nat eqn:Ek;
      [| discriminate].
    apply Nat.leb_le in Ek. injection Ht as <-.
    unfold plan_values in Hv. inv_bind Hv raw Hraw. injection Hv as <-.
    rewrite length_map in Ek.
    rewrite <- (Forall2_length_eq _ _ _ (traverse_Forall2 _ _ _ Hraw)),
      length_seq in Ek.
    split; [| exact Ek].
    unfold elite_score in Hsc. inv_bind Hsc mx Hmx.
    unfold gather_values in Hmx.
    destruct (num_elites (cfg ag)) as [| k]; [| lia].
    cbn in Hmx. discriminate Hmx.
Qed.

Lemma plan_requires_witness :
  (0 < length [0])%nat
  /\ (0 < iterations (cfg (agent_of cfg_default)))%nat
  /\ (0 < horizon (cfg (agent_of cfg_default)))%nat
  /\ (0 < num_elites (cfg (agent_of cfg_default))
      <= num_samples (cfg (agent_of cfg_default)))%nat
  /\ (num_pi_trajs (cfg (agent_of cfg_default))
      <= num_samples (cfg (agent_of cfg_default)))%nat.
Proof.
  destruct (_plan wm_identity ml_example tc_example (agent_of cfg_default)
              [0] false true None) as [[a ag'] |] eqn:E.
  - apply (plan_requires wm_identity ml_example tc_example
             (agent_of cfg_default) [0] false true None a ag' E).
  - vm_compute in E. discriminate E.
Defined.

(** X12. [_plan] returns only when the batch of observations has as many
    entries as the warm-start buffer, with one exception: a single
    observation at [t0], whose final mean is then written to every row of
    the buffer.  The buffer keeps its number of rows. *)
Theorem plan_batch_buffer (wm : WorldModel) (ml : CommonMath) (tc : Torch)
  (ag : Agent) (obs : list (observation wm)) (t0 eval_mode : bool)
  (task : option nat) (a : list vec) (ag' : Agent) :
  _plan wm ml tc ag obs t0 eval_mode task = Some (a, ag') ->
  length (_prev_mean ag') = length (_prev_mean ag)
  /\ (length (_prev_mean ag) = length obs
      \/ (t0 = true /\ length obs = 1%nat
          /\ exists m, _prev_mean ag' = repeat m (length (_prev_mean ag)))).
Proof.
  intro H.
  destruct (plan_inv _ _ _ _ _ _ _ _ _ _ H)
    as [mean0 [sts [a0 [Hm0 [Hsts [_ [_ [Hprev _]]]]]]]].
  split; [apply (broadcast_rows_length _ _ _ Hprev) |].
  pose proof (plan_states_length _ _ _ _ _ _ _ _ _ Hm0 Hsts) as Ls.
  destruct (broadcast_rows_inv _ _ _ Hprev) as [[L _] | [r [E Hout]]].
  - left. rewrite length_map in L. lia.
  - assert (L1 : length obs = 1%nat).
    { rewrite <- Ls, <- (length_map ps_mean), E. reflexivity. }
    destruct t0.
    + right. split; [reflexivity | split; [exact L1 |]].
      exists r. exact Hout.
    + left. unfold warm_start in Hm0. inv_bind Hm0 prev Hp.
      destruct (broadcast_rows_inv _ _ _ Hp) as [[L _] | [r' [E' _]]].
      * exact L.
      * rewrite E', L1. reflexivity.
Qed.

Lemma plan_batch_buffer_witness :
  exists ag',
    length (_prev_mean ag') = 1%nat
    /\ (length (_prev_mean (agent_of cfg_default)) = 1%nat
        \/ (true = true /\ 1%nat = 1%nat
            /\ exists m, _prev_mean ag' = repeat m 1)).
Proof.
  destruct (_plan wm_identity ml_example tc_example (agent_of cfg_default)
              [0] true true None) as [[a ag'] |] eqn:E.
  - exists ag'.
    apply (plan_batch_buffer wm_identity ml_example tc_example
             (agent_of cfg_default) [0] true true None a ag' E).
  - vm_compute in E. discriminate E.
Defined.

(** X13. [act] raises on an empty batch, with and without planning. *)
Theorem act_empty_batch (wm : WorldModel) (ml : CommonMath) (tc : Torch)
  (ag : Agent) (t0 eval_mode : bool) (task : option nat) :
  act wm ml tc ag [] t0 eval_mode task = None.
Proof.
  unfold act. destruct (mpc (cfg ag)).
  - unfold plan.
    destruct (_plan wm ml tc ag [] t0 eval_mode task) as [[a ag'] |] eqn:E;
      [| reflexivity].
    destruct (plan_inv _ _ _ _ _ _ _ _ _ _ E)
      as [_ [_ [_ [_ [_ [_ [Hb _]]]]]]].
    cbn in Hb. lia.
  - reflexivity.
Qed.

(** ** Planner: elite selection *)

(** X14. After every iteration the elite set consists of [num_elites] distinct
    candidates out of the [num_samples] evaluated, and no candidate left
    out has a larger value than an elite; the elite actions are the
    actions of these candidates. *)
Theorem elites_are_top_candidates (wm : WorldModel) (ml : CommonMath)
  (tc : Torch) (ag : Agent) (task : option nat) (e : nat) (z : latent wm)
  (i : nat) (st st' : PlanState) :
  mppi_iteration wm ml tc ag task e z i st = Some st' ->
  exists value idxs score,
    plan_values wm ml ag task e i z (ps_actions st') = Some value
    /\ length value = num_samples (cfg ag)
    /\ ps_elite st' = Some (score, gather_actions (ps_actions st') idxs)
    /\ length idxs = num_elites (cfg ag)
    /\ NoDup idxs
    /\ (forall s, In s idxs -> (s < num_samples (cfg ag))%nat)
    /\ (forall s s', In s idxs -> (s' < num_samples (cfg ag))%nat ->
          ~ In s' idxs -> nth s' value 0 <= nth s value 0).
Proof.
  intro H.
  destruct (mppi_iteration_inv _ _ _ _ _ _ _ _ _ _ H)
    as [mask [value [idxs [score [_ [Hv [Ht [_ ->]]]]]]]].
  cbn zeta in Hv. cbn [ps_actions ps_elite].
  pose proof (plan_values_length _ _ _ _ _ _ _ _ _ Hv) as Lv.
  destruct (topk_spec _ _ _ Ht) as [Hk [Hn [Hr Hd]]].
  rewrite Lv in Hr, Hd.
  exists value, idxs, score.
  split; [exact Hv |]. split; [exact Lv |]. split; [reflexivity |].
  split; [exact Hk |]. split; [exact Hn |]. split; [exact Hr | exact Hd].
Qed.

Lemma elites_are_top_candidates_witness :
  exists st' value idxs score,
    mppi_iteration wm_identity ml_example tc_example (agent_of cfg_default)
      None 0 0 0
      (mkPlanState [[0]; [0]; [0]] [[2]; [2]; [2]]
         [[[1]; [1]]; [[1]; [1]]; [[1]; [1]]] None) = Some st'
    /\ plan_values wm_identity ml_example (agent_of cfg_default) None 0 0 0
         (ps_actions st') = Some value
    /\ ps_elite st' = Some (score, gather_actions (ps_actions st') idxs)
    /\ length idxs = 2%nat
    /\ NoDup idxs.
Proof.
  destruct (mppi_iteration wm_identity ml_example tc_example
              (agent_of cfg_default) None 0 0 0
              (mkPlanState [[0]; [0]; [0]] [[2]; [2]; [2]]
                 [[[1]; [1]]; [[1]; [1]]; [[1]; [1]]] None))
    as [st' |] eqn:E.
  - destruct (elites_are_top_candidates wm_identity ml_example tc_example
                (agent_of cfg_default) None 0 0 0 _ st' E)
      as [value [idxs [score [Hv [_ [He [Hk [Hn _]]]]]]]].
    exists st', value, idxs, score.
    split; [reflexivity |]. split; [exact Hv |]. split; [exact He |].
    split; [exact Hk | exact Hn].
  - vm_compute in E. discriminate E.
Defined.

(** ** Planner: the entries of the batch *)

(** ** Planner: actions stay within the action bounds *)

(** X15. When the policy's actions lie within [-1, 1] (and, in multi-task mode,
    the task's mask within [0, 1]) and [torch.exp] is positive, every
    component of the warm-start buffer written by [_plan] lies within
    [-1, 1], whatever the buffer held before. *)
Theorem plan_buffer_in_box (wm : WorldModel) (ml : CommonMath) (tc : Torch)
  (ag : Agent) (obs : list (observation wm)) (t0 eval_mode : bool)
  (task : option nat) (a : list vec) (ag' : Agent) :
  (forall x, 0 < torch_exp tc x) ->
  (forall k z, in_box (pi_sample (pi wm k z task))) ->
  (multitask (cfg ag) = true ->
   forall mk, action_mask wm task = Some mk ->
     Forall (fun x => 0 <= x /\ x <= 1) mk) ->
  _plan wm ml tc ag obs t0 eval_mode task = Some (a, ag') ->
  forall m row x, In m (_prev_mean ag') -> In row m -> In x row ->
    -1 <= x /\ x <= 1.
Proof.
  intros Hexp Hpi Hm H m row x Hin Hrow Hx.
  destruct (plan_entries _ _ _ _ _ _ _ _ _ _ H)
    as [sts [a0 [_ [_ [HA [HB HC]]]]]].
  destruct (HC m Hin) as [st [Hst ->]].
  destruct (HB st Hst) as [e [v [He Hv]]].
  destruct (HA e v Hv) as [st' [o [m0 [He' [_ [_ [Href Hsel]]]]]]].
  rewrite He in He'. injection He' as <-.
  destruct (plan_refine_box _ _ _ _ _ _ _ _ _ _ _ Hpi Hm Href Hsel)
    as [_ Hmean].
  specialize (Hmean Hexp). rewrite Forall_forall in Hmean.
  specialize (Hmean row Hrow). unfold in_box in Hmean.
  rewrite Forall_forall in Hmean. apply Hmean. exact Hx.
Qed.

Lemma plan_buffer_in_box_witness :
  exists a ag',
    _plan wm_identity ml_example tc_example agent_warm [0] false false None
    = Some (a, ag')
    /\ forall m row x, In m (_prev_mean ag') -> In row m -> In x row ->
         -1 <= x /\ x <= 1.
Proof.
  destruct (_plan wm_identity ml_example tc_example agent_warm [0] false
              false None) as [[a ag'] |] eqn:E.
  - exists a, ag'. split; [reflexivity |].
    apply (plan_buffer_in_box wm_identity ml_example tc_example agent_warm
             [0] false false None a ag' tc_example_exp_pos).
    + intros k z. cbn. constructor; [split; lra | constructor].
    + intro M. cbn in M. discriminate M.
    + exact E.
  - vm_compute in E. discriminate E.
Defined.

(** X16. In eval mode, when the policy's actions lie within [-1, 1] (and, in
    multi-task mode, the task's mask within [0, 1]), every action returned
    by [_plan] is, unchanged, the first action of the elite drawn by
    [gumbel_softmax_sample], which is the first action of one of the
    [num_samples] candidates of the last iteration: no noise is added and
    the final clamp has no effect. *)
Theorem plan_eval_returns_candidate (wm : WorldModel) (ml : CommonMath)
  (tc : Torch) (ag : Agent) (obs : list (observation wm)) (t0 : bool)
  (task : option nat) (a : list vec) (ag' : Agent) :
  (forall k z, in_box (pi_sample (pi wm k z task))) ->
  (multitask (cfg ag) = true ->
   forall mk, action_mask wm task = Some mk ->
     Forall (fun x => 0 <= x /\ x <= 1) mk) ->
  _plan wm ml tc ag obs t0 true task = Some (a, ag') ->
  exists sts,
    plan_states wm ml tc ag obs t0 task = Some sts
    /\ forall e v, nth_error a e = Some v ->
         exists st score elite_actions row s,
           nth_error sts e = Some st
           /\ ps_elite st = Some (score, elite_actions)
           /\ nth_error elite_actions 0 = Some row
           /\ nth_error row (gumbel_softmax_sample ml [e] score) = Some v
           /\ (s < num_samples (cfg ag))%nat
           /\ v = nth s (nth 0 (ps_actions st) []) [].
Proof.
  intros Hpi Hm H.
  destruct (plan_entries _ _ _ _ _ _ _ _ _ _ H)
    as [sts [a0 [Hsts [Ha [HA _]]]]].
  exists sts. split; [exact Hsts |]. intros e v Hv.
  rewrite Ha in Hv.
  apply nth_error_map_inv in Hv. destruct Hv as [v0 [Hv0 ->]].
  destruct (HA e v0 Hv0) as [st [o [m0 [He [_ [_ [Href Hsel]]]]]]].
  destruct (plan_refine_box _ _ _ _ _ _ _ _ _ _ _ Hpi Hm Href Hsel)
    as [Hbox _].
  destruct (plan_refine_last _ _ _ _ _ _ _ _ _ _ _ Href Hsel)
    as [_ [j [st1 Hi]]].
  destruct (plan_select_inv _ _ _ _ _ _ _ Hsel)
    as [score [ea [row [x [std0 [Hel [Hrow [Hx [_ ->]]]]]]]]].
  destruct (mppi_iteration_inv _ _ _ _ _ _ _ _ _ _ Hi)
    as [mask [value [idxs [sc [_ [Hval [Ht [_ Est]]]]]]]].
  cbn zeta in Hval. subst st. cbn [ps_actions ps_elite] in *.
  injection Hel as <- <-.
  set (cands := candidates tc (cfg ag) mask e j st1) in *.
  unfold gather_actions in Hrow.
  apply nth_error_map_inv in Hrow. destruct Hrow as [r [Hr ->]].
  apply nth_error_map_inv in Hx. destruct Hx as [s [Hs ->]].
  assert (Hxbox : in_box (nth s r [])).
  { destruct (nth_in_or_default s r []) as [Hin | ->]; [| constructor].
    rewrite Forall_forall in Hbox.
    specialize (Hbox r (nth_error_In _ _ Hr)).
    rewrite Forall_forall in Hbox. apply Hbox. exact Hin. }
  rewrite (vclamp_box_id _ Hxbox).
  exists (mkPlanState
            (map mask (update_mean (model_dtype wm) (cfg ag) sc
                         (gather_actions cands idxs)))
            (map mask (update_std tc (model_dtype wm) (cfg ag) sc
                         (gather_actions cands idxs)
                         (update_mean (model_dtype wm) (cfg ag) sc
                            (gather_actions cands idxs))))
            cands (Some (sc, gather_actions cands idxs))),
    sc, (gather_actions cands idxs), (map (fun s0 => nth s0 r []) idxs), s.
  cbn [ps_actions ps_elite].
  split; [exact He |]. split; [reflexivity |].
  split; [unfold gather_actions; rewrite nth_error_map, Hr; reflexivity |].
  split; [rewrite nth_error_map, Hs; reflexivity |].
  split.
  - destruct (topk_spec _ _ _ Ht) as [_ [_ [Hrange _]]].
    rewrite <- (plan_values_length _ _ _ _ _ _ _ _ _ Hval).
    apply Hrange. apply (nth_error_In _ _ Hs).
  - exact (f_equal (fun r0 : list vec => nth s r0 [])
             (eq_sym (nth_error_Some_nth _ _ _ [] Hr))).
Qed.

Lemma plan_eval_returns_candidate_witness :
  exists a ag' sts,
    _plan wm_identity ml_example tc_example agent_warm [0] false true None
    = Some (a, ag')
    /\ plan_states wm_identity ml_example tc_example agent_warm [0] false
         None = Some sts
    /\ forall e v, nth_error a e = Some v ->
         exists st s,
           nth_error sts e = Some st
           /\ (s < 8)%nat
           /\ v = nth s (nth 0 (ps_actions st) []) [].
Proof.
  destruct (_plan wm_identity ml_example tc_example agent_warm [0] false
              true None) as [[a ag'] |] eqn:E.
  - destruct (plan_eval_returns_candidate wm_identity ml_example tc_example
                agent_warm [0] false None a ag') as [sts [Hsts Hall]].
    + intros k z. cbn. constructor; [split; lra | constructor].
    + intro M. cbn in M. discriminate M.
    + exact E.
    + exists a, ag', sts. split; [reflexivity |]. split; [exact Hsts |].
      intros e v Hv.
      destruct (Hall e v Hv)
        as [st [score [ea [row [s [H1 [_ [_ [_ [H5 H6]]]]]]]]]].
      exists st, s. split; [exact H1 |]. split; [exact H5 | exact H6].
  - vm_compute in E. discriminate E.
Defined.

(** ** Planner: multi-task masking *)

(** X17. In multi-task mode, every action dimension that the task's mask
    zeroes is exactly zero in every action returned by [_plan], with or
    without exploration noise, and in every row of the warm-start buffer
    it writes. *)
Theorem plan_masked_components (wm : WorldModel) (ml : CommonMath)
  (tc : Torch) (ag : Agent) (obs : list (observation wm))
  (t0 eval_mode : bool) (task : option nat) (a : list vec) (ag' : Agent)
  (mk : vec) (d : nat) :
  multitask (cfg ag) = true ->
  action_mask wm task = Some mk ->
  nth d mk 0 == 0 ->
  _plan wm ml tc ag obs t0 eval_mode task = Some (a, ag') ->
  (forall v, In v a -> nth d v 0 == 0)
  /\ (forall m row, In m (_prev_mean ag') -> In row m -> nth d row 0 == 0).
Proof.
  intros M Hmk Hd H.
  destruct (plan_entries _ _ _ _ _ _ _ _ _ _ H)
    as [sts [a0 [_ [Ha [HA [HB HC]]]]]].
  assert (Hfinal : forall e v st o m0,
            plan_refine wm ml tc ag task e o m0 = Some st ->
            plan_select ml tc (cfg ag) eval_mode e st = Some v ->
            nth d v 0 == 0
            /\ forall row, In row (ps_mean st) -> nth d row 0 == 0).
  { intros e v st o m0 Href Hsel.
    destruct (plan_refine_last _ _ _ _ _ _ _ _ _ _ _ Href Hsel)
      as [_ [j [st1 Hi]]].
    destruct (plan_select_inv _ _ _ _ _ _ _ Hsel)
      as [score [ea [row [x [std0 [Hel [Hrow [Hx [Hstd ->]]]]]]]]].
    destruct (mppi_iteration_inv _ _ _ _ _ _ _ _ _ _ Hi)
      as [mask [value [idxs [sc [Hmask [_ [_ [_ Est]]]]]]]].
    destruct (masking_multi _ _ _ _ M Hmask) as [mk' [Emk Emask]].
    rewrite Hmk in Emk. injection Emk as <-.
    subst st. cbn [ps_actions ps_elite ps_std ps_mean] in *.
    injection Hel as <- <-.
    assert (Hmasked : forall w, nth d (mask w) 0 == 0).
    { intro w. rewrite Emask. apply nth_vmul_r. exact Hd. }
    assert (Hxd : nth d x 0 == 0).
    { unfold gather_actions in Hrow.
      apply nth_error_map_inv in Hrow. destruct Hrow as [r [Hr ->]].
      apply nth_error_In, in_map_iff in Hx. destruct Hx as [s [<- _]].
      destruct (nth_in_or_default s r []) as [Hin | ->].
      - apply nth_error_In in Hr. unfold candidates in Hr.
        apply in_map_iff in Hr. destruct Hr as [r1 [<- _]].
        apply in_map_iff in Hin. destruct Hin as [w [<- _]].
        apply Hmasked.
      - destruct d; reflexivity. }
    split.
    - destruct eval_mode; [exact Hxd |].
      apply nth_vadd; [exact Hxd |]. apply nth_vmul_l.
      apply nth_error_In, in_map_iff in Hstd. destruct Hstd as [w [<- _]].
      apply Hmasked.
    - intros row0 Hin. apply in_map_iff in Hin. destruct Hin as [w [<- _]].
      apply Hmasked. }
  split.
  - intros v Hv. rewrite Ha in Hv. apply in_map_iff in Hv.
    destruct Hv as [v0 [<- Hv0]]. apply In_nth_error in Hv0.
    destruct Hv0 as [e He].
    destruct (HA e v0 He) as [st [o [m0 [_ [_ [_ [Href Hsel]]]]]]].
    apply nth_vclamp. exact (proj1 (Hfinal e v0 st o m0 Href Hsel)).
  - intros m row Hm Hrow. destruct (HC m Hm) as [st [Hst ->]].
    destruct (HB st Hst) as [e [v [He Hv]]].
    destruct (HA e v Hv) as [st' [o [m0 [He' [_ [_ [Href Hsel]]]]]]].
    rewrite He in He'. injection He' as <-.
    exact (proj2 (Hfinal e v st o m0 Href Hsel) row Hrow).
Qed.

Lemma plan_masked_components_witness :
  exists a ag',
    _plan wm_identity ml_example tc_example (agent_of cfg_multitask) [0]
      false false (Some 1%nat) = Some (a, ag')
    /\ (forall v, In v a -> nth 0 v 0 == 0)
    /\ (forall m row, In m (_prev_mean ag') -> In row m -> nth 0 row 0 == 0).
Proof.
  destruct (_plan wm_identity ml_example tc_example (agent_of cfg_multitask)
              [0] false false (Some 1%nat)) as [[a ag'] |] eqn:E.
  - exists a, ag'. split; [reflexivity |].
    apply (plan_masked_components wm_identity ml_example tc_example
             (agent_of cfg_multitask) [0] false false (Some 1%nat) a ag'
             [0] 0).
    + reflexivity.
    + reflexivity.
    + reflexivity.
    + exact E.
  - vm_compute in E. discriminate E.
Defined.

(** ** Planner: the warm-start buffer at the start of an episode *)

(** X18. At the start of an episode ([t0]) the planner does not read the
    warm-start buffer: two agents with the same configuration and
    discount, and buffers of the same number of rows, get the same actions
    and the same new buffer from [_plan], whatever their buffers held. *)
Theorem plan_t0_forgets (wm : WorldModel) (ml : CommonMath) (tc : Torch)
  (ag1 ag2 : Agent) (obs : list (observation wm)) (eval_mode : bool)
  (task : option nat) :
  cfg ag1 = cfg ag2 ->
  discount ag1 = discount ag2 ->
  length (_prev_mean ag1) = length (_prev_mean ag2) ->
  _plan wm ml tc ag1 obs true eval_mode task
  = _plan wm ml tc ag2 obs true eval_mode task.
Proof.
  intros Hcfg Hdisc Hlen.
  unfold _plan, plan_states, warm_start. rewrite Hcfg, Hdisc, Hlen.
  cbn [bind].
  destruct (traverse (init_mean (cfg ag2) true) (repeat [] (length obs)))
    as [mean0 |]; [| reflexivity].
  cbn [bind].
  rewrite (traverse_ext
             (fun p => plan_refine wm ml tc ag1 task
                         (fst p) (fst (snd p)) (snd (snd p)))
             (fun p => plan_refine wm ml tc ag2 task
                         (fst p) (fst (snd p)) (snd (snd p))));
    [reflexivity |].
  intro p. apply plan_refine_same; assumption.
Qed.

Lemma plan_t0_forgets_witness :
  _plan wm_identity ml_example tc_example agent_warm [0] true false None
  = _plan wm_identity ml_example tc_example
      (mkAgent cfg_default (ScalarDiscount (99 # 100)) [[[0]; [0]; [0]]])
      [0] true false None.
Proof.
  apply (plan_t0_forgets wm_identity ml_example tc_example agent_warm
           (mkAgent cfg_default (ScalarDiscount (99 # 100))
              [[[0]; [0]; [0]]]) [0] false None).
  - reflexivity.
  - reflexivity.
  - reflexivity.
Defined.

(** ** Acting without planning *)

(** X19. [policy_action] returns one action per observation and never raises;
    [act] without planning keeps only the first one: on the same model and
    random stream its result is the first row of [policy_action], and it
    leaves the agent unchanged. *)
Theorem act_policy_head (wm : WorldModel) (ml : CommonMath) (tc : Torch)
  (ag : Agent) (obs : list (observation wm)) (t0 eval_mode : bool)
  (task : option nat) :
  mpc (cfg ag) = false ->
  length (policy_action wm obs eval_mode task) = length obs
  /\ act wm ml tc ag obs t0 eval_mode task
     = option_map (fun a => (Action a, ag))
         (nth_error (policy_action wm obs eval_mode task) 0).
Proof.
  intro H. split.
  - unfold policy_action. rewrite !length_map, indexed_length.
    apply length_map.
  - unfold act, policy_action. rewrite H.
    destruct (nth_error _ 0); reflexivity.
Qed.

Lemma act_policy_head_witness :
  length (policy_action wm_identity [3; 4] true None) = 2%nat
  /\ act wm_identity ml_example tc_example (agent_of cfg_policy) [3; 4]
       false true None
     = option_map (fun a => (Action a, agent_of cfg_policy))
         (nth_error (policy_action wm_identity [3; 4] true None) 0).
Proof.
  apply (act_policy_head wm_identity ml_example tc_example
           (agent_of cfg_policy) [3; 4] false true None).
  reflexivity.
Defined.

(** ** Planner: exploration noise and the planner's state *)

(** X20. The [eval_mode] flag changes the returned actions only: with and
    without exploration noise [_plan] raises on the same inputs and leaves
    the agent with the same warm-start buffer. *)
Theorem plan_eval_mode_state (wm : WorldModel) (ml : CommonMath) (tc : Torch)
  (ag : Agent) (obs : list (observation wm)) (t0 : bool)
  (task : option nat) :
  option_map snd (_plan wm ml tc ag obs t0 true task)
  = option_map snd (_plan wm ml tc ag obs t0 false task).
Proof.
  unfold _plan.
  destruct (plan_states wm ml tc ag obs t0 task) as [sts |]; [| reflexivity].
  cbn [bind].
  pose proof (traverse_none_iff
                (fun p => plan_select ml tc (cfg ag) true (fst p) (snd p))
                (fun p => plan_select ml tc (cfg ag) false (fst p) (snd p))
                (indexed sts)
                (fun p => plan_select_modes ml tc (cfg ag) (fst p) (snd p)))
    as Hiff.
  destruct (traverse
              (fun p => plan_select ml tc (cfg ag) true (fst p) (snd p))
              (indexed sts)) as [a1 |],
           (traverse
              (fun p => plan_select ml tc (cfg ag) false (fst p) (snd p))
              (indexed sts)) as [a2 |].
  - cbn [bind]. destruct (assert (0 <? length obs)%nat); [| reflexivity].
    cbn [bind].
    destruct (broadcast_rows (length (_prev_mean ag)) (map ps_mean sts));
      reflexivity.
  - destruct Hiff as [_ Hiff]. specialize (Hiff eq_refl). discriminate Hiff.
  - destruct Hiff as [Hiff _]. specialize (Hiff eq_refl). discriminate Hiff.
  - reflexivity.
Qed.

(** ** Planner: the policy trajectories among the candidates *)

(** X21. In single-task mode the policy trajectories stay among the
    candidates through every iteration: in the final state of every batch
    entry of a completed [_plan], candidate [j < num_pi_trajs] at timestep
    [t] is the action of policy rollout [j] at [t], as sampled before the
    loop. *)
Theorem plan_keeps_pi_trajs (wm : WorldModel) (ml : CommonMath) (tc : Torch)
  (ag : Agent) (obs : list (observation wm)) (t0 eval_mode : bool)
  (task : option nat) (a : list vec) (ag' : Agent) :
  multitask (cfg ag) = false ->
  _plan wm ml tc ag obs t0 eval_mode task = Some (a, ag') ->
  exists sts,
    plan_states wm ml tc ag obs t0 task = Some sts
    /\ forall e v, nth_error a e = Some v ->
         exists st o,
           nth_error sts e = Some st
           /\ nth_error obs e = Some o
           /\ forall t j,
                (t < horizon (cfg ag))%nat ->
                (j < num_pi_trajs (cfg ag))%nat ->
                nth j (nth t (ps_actions st) []) []
                = nth t (pi_rollout wm task e j (horizon (cfg ag) - 1) 0
                           (encode wm o task)) [].
Proof.
  intros M H.
  destruct (plan_entries _ _ _ _ _ _ _ _ _ _ H)
    as [sts [a0 [Hsts [Ha [HA _]]]]].
  exists sts. split; [exact Hsts |]. intros e v Hv.
  rewrite Ha in Hv.
  apply nth_error_map_inv in Hv. destruct Hv as [v0 [Hv0 _]].
  destruct (HA e v0 Hv0) as [st [o [m0 [He [Ho [Lm [Href _]]]]]]].
  exists st, o. split; [exact He |]. split; [exact Ho |].
  destruct (plan_refine_inv _ _ _ _ _ _ _ _ _ Href) as [_ [actions [Hi Hl]]].
  apply (mppi_loop_holds _ _ _ _ _ _ _ _ M _ _ _ Hl).
  - unfold plan_shape. cbn [ps_mean ps_std ps_actions].
    rewrite repeat_length. split; [exact Lm | split; [reflexivity |]].
    apply (init_actions_shape _ _ _ _ _ _ Hi).
  - apply (init_actions_holds _ _ _ _ _ _ _ _ Hi).
Qed.

Lemma plan_keeps_pi_trajs_witness :
  exists a ag' sts,
    _plan wm_identity ml_example tc_example agent_warm [0] false false None
    = Some (a, ag')
    /\ plan_states wm_identity ml_example tc_example agent_warm [0] false
         None = Some sts
    /\ forall e v, nth_error a e = Some v ->
         exists st,
           nth_error sts e = Some st
           /\ forall t j, (t < 3)%nat -> (j < 2)%nat ->
                nth j (nth t (ps_actions st) []) [] = [1].
Proof.
  destruct (_plan wm_identity ml_example tc_example agent_warm [0] false
              false None) as [[a ag'] |] eqn:E.
  - destruct (plan_keeps_pi_trajs wm_identity ml_example tc_example
                agent_warm [0] false false None a ag' eq_refl E)
      as [sts [Hsts Hall]].
    exists a, ag', sts. split; [reflexivity |]. split; [exact Hsts |].
    intros e v Hv. destruct (Hall e v Hv) as [st [o [H1 [_ H3]]]].
    exists st. split; [exact H1 |]. intros t j Ht Hj.
    rewrite (H3 t j Ht Hj).
    destruct t as [| [| [| t]]]; [reflexivity | reflexivity | reflexivity |].
    lia.
  - vm_compute in E. discriminate E.
Defined.

